(** * Collision_Avoidance: the point data model, the demo programs' exit
    paths and the point-cloud operations, checked against the specification.

    Layout of the development:
    - [ieee]: IEEE-754 binary32 / binary64 arithmetic, as C++ [float] and
      [double] have it, on top of the Standard Library's [SpecFloat];
    - [gca]: [src/geometry/type.hpp] ([point_property], [color3], [point_t],
      the stream output operator);
    - [stored]: the property of a point as the byte a record holds;
    - [apps]: the cloud loader of [apps/test_color_icp.cpp];
    - [roundoff]: numbers of either sign and how near a round-off leaves them;
    - [cloud]: the spatial index and the filters of the point-cloud facade,
      in single precision;
    - [exact]: the datum a format has for a number;
    - [pcl]: the point filters of [apps/test_color_icp.cpp];
    - [display]: the points both programs hand to the viewers;
    - [mains]: [main] of [apps/app.cpp] and of [apps/test_color_icp.cpp],
      statement by statement, and how a run ends;
    - the lemmas and the theorems about all of the above. *)

From Stdlib Require Import ZArith QArith Qround Qabs Qpower Qminmax Lia Lqa Bool.
From Stdlib Require Import SpecFloat.
From stdpp Require Import base option list gmap strings.

#[local] Open Scope Z_scope.

(** ** IEEE-754 arithmetic *)

Module ieee.

(** C++ [float]: binary32. *)
Module f32.
Definition prec : Z := 24.
Definition emax : Z := 128.
Definition add : spec_float -> spec_float -> spec_float := SFadd prec emax.
Definition sub : spec_float -> spec_float -> spec_float := SFsub prec emax.
Definition mul : spec_float -> spec_float -> spec_float := SFmul prec emax.
Definition div : spec_float -> spec_float -> spec_float := SFdiv prec emax.
(** [(float)n] for an integer [n]. *)
Definition of_Z (n : Z) : spec_float := binary_normalize prec emax n 0 false.
(** The literal [1.0f]. *)
Definition one : spec_float := S754_finite false 8388608 (-23).
Definition zero : spec_float := S754_zero false.
(** Well-formed finite value or zero: no infinity, no NaN. *)
Definition finite (x : spec_float) : bool :=
  match x with
  | S754_zero _ => true
  | S754_finite _ m e => bounded prec emax m e
  | _ => false
  end.
End f32.

(** C++ [double]: binary64. *)
Module f64.
Definition prec : Z := 53.
Definition emax : Z := 1024.
Definition add : spec_float -> spec_float -> spec_float := SFadd prec emax.
Definition mul : spec_float -> spec_float -> spec_float := SFmul prec emax.
Definition div : spec_float -> spec_float -> spec_float := SFdiv prec emax.
Definition of_Z (n : Z) : spec_float := binary_normalize prec emax n 0 false.
(** [static_cast<double>(x)] for a [float] [x]: exact. *)
Definition of_f32 (x : spec_float) : spec_float :=
  match x with
  | S754_finite s m e => binary_normalize prec emax (cond_Zopp s (Zpos m)) e s
  | _ => x
  end.
(** The implicit conversion of a [double] to [float]: rounds to nearest,
    ties to even; overflows to infinity. *)
Definition to_f32 (x : spec_float) : spec_float :=
  match x with
  | S754_finite s m e =>
    binary_normalize f32.prec f32.emax (cond_Zopp s (Zpos m)) e s
  | _ => x
  end.
End f64.

(** The rational number a floating-point datum stands for (0 for the
    infinities and NaN, which stand for none). *)
Definition value (x : spec_float) : Q :=
  match x with
  | S754_finite s m e => inject_Z (cond_Zopp s (Zpos m)) * (2 ^ e)%Q
  | _ => 0%Q
  end.

(** A number that is not negative: a zero or a positive finite datum. *)
Definition nonneg (x : spec_float) : bool :=
  match x with
  | S754_zero _ | S754_finite false _ _ => true
  | _ => false
  end.

(** *** The vocabulary of the round-off lemmas *)

(** What a shift record of [SpecFloat] says of the magnitude [V] it was
    shifted out of: [shr_m] is its integer part, the round and sticky bits
    tell where it lies between [shr_m] and [shr_m + 1]. *)
Definition represents (mrs : shr_record) (V : Q) : Prop :=
  let m := inject_Z (shr_m mrs) in
  (m <= V /\ V < m + 1)%Q /\
  match loc_of_shr_record mrs with
  | loc_Exact => (V == m)%Q
  | loc_Inexact Lt => (m < V /\ V < m + (1 # 2))%Q
  | loc_Inexact Eq => (V == m + (1 # 2))%Q
  | loc_Inexact Gt => (m + (1 # 2) < V)%Q
  end.

(** The last step of [binary_round_aux]: the datum of a mantissa and an
    exponent, an infinity on overflow. *)
Definition finish (prec emax : Z) (sx : bool) (m e : Z) : spec_float :=
  match m with
  | Z0 => S754_zero sx
  | Zpos p => if e <=? emax - prec then S754_finite sx p e else S754_infinity sx
  | Zneg _ => S754_nan
  end.

(** The result of a round-off of the magnitude [V], whose digits end at
    exponent [e1]: a multiple [m2 * 2 ^ e1] at most half a unit away. *)
Definition rounded (prec emax : Z) (sx : bool) (V : Q) (e1 : Z) (x : spec_float)
    : Prop :=
  exists m2 m3 e3 : Z,
    x = finish prec emax sx m3 e3 /\
    0 <= m2 /\ 0 <= m3 /\
    (inject_Z m3 * 2 ^ e3 == inject_Z m2 * 2 ^ e1)%Q /\
    (inject_Z m2 * 2 ^ e1 - V <= 2 ^ e1 * (1 # 2))%Q /\
    (V - inject_Z m2 * 2 ^ e1 <= 2 ^ e1 * (1 # 2))%Q.

(** A number that is not negative and within [err] of [V]. *)
Definition close (V err : Q) (x : spec_float) : Prop :=
  nonneg x = true /\ (value x - V <= err)%Q /\ (V - value x <= err)%Q.

End ieee.

(** ** [src/geometry/type.hpp] *)

Module gca.
Import ieee.

(** [enum point_property : uint8_t]. *)
Inductive point_property : Set :=
  | invalid
  | active
  | inactive.

(** The enumerator values; the underlying type is [uint8_t]. *)
Definition point_property_value (p : point_property) : Z :=
  match p with
  | invalid => 0
  | active => 1
  | inactive => 2
  end.

(** Reading a byte back as a [point_property]. *)
Definition point_property_of_value (v : Z) : option point_property :=
  if v =? 0 then Some invalid
  else if v =? 1 then Some active
  else if v =? 2 then Some inactive
  else None.

(** [==] on the enumeration compares the underlying values. *)
Definition point_property_eqb (p q : point_property) : bool :=
  point_property_value p =? point_property_value q.

(** CUDA's [float3] (vector_types.h). *)
Record float3 : Set := make_float3 { x : spec_float; y : spec_float; z : spec_float }.

Record color3 : Set := Build_color3 { r : spec_float; g : spec_float; b : spec_float }.

(** [color3::operator float3()]. *)
Definition color3_to_float3 (c : color3) : float3 :=
  make_float3 (r c) (g c) (b c).

(** [color3::operator+]. *)
Definition color3_add (c other : color3) : color3 :=
  Build_color3 (f32.add (r c) (r other)) (f32.add (g c) (g other))
               (f32.add (b c) (b other)).

(** [color3::operator+=]: the updated object (which is also what the
    returned reference designates). *)
Definition color3_add_assign (c other : color3) : color3 :=
  let r' := f32.add (r c) (r other) in
  let g' := f32.add (g c) (g other) in
  let b' := f32.add (b c) (b other) in
  Build_color3 r' g' b'.

(** The literals of [to_intensity], as the nearest binary64 numbers. *)
Definition lit_0_2126 : spec_float := S754_finite false 7659722246231740 (-55).
Definition lit_0_7152 : spec_float := S754_finite false 6441948906990757 (-53).
Definition lit_0_0722 : spec_float := S754_finite false 5202558289538397 (-56).
Definition lit_3_0 : spec_float := S754_finite false 6755399441055744 (-51).

(** [color3::to_intensity]: evaluated in [double], every product and sum
    rounded on its own, and returned as [float]. *)
Definition to_intensity (c : color3) : spec_float :=
  f64.to_f32
    (f64.add
       (f64.add (f64.mul lit_0_2126 (f64.of_f32 (r c)))
                (f64.mul lit_0_7152 (f64.of_f32 (g c))))
       (f64.mul lit_0_0722 (f64.of_f32 (b c)))).

(** [color3::get_average]. *)
Definition get_average (c : color3) : spec_float :=
  f64.to_f32
    (f64.div
       (f64.add (f64.add (f64.of_f32 (r c)) (f64.of_f32 (g c)))
                (f64.of_f32 (b c)))
       lit_3_0).

(** [color3::operator/], at an integral count type [T]:
    [_n = 1.0f / (float)n], then one multiplication per channel. *)
Definition color3_div (c : color3) (n : Z) : color3 :=
  let _n := f32.div f32.one (f32.of_Z n) in
  Build_color3 (f32.mul (r c) _n) (f32.mul (g c) _n) (f32.mul (b c) _n).

(** What [operator/] does not do: one division per channel. *)
Definition color3_div_direct (c : color3) (n : Z) : color3 :=
  let d := f32.of_Z n in
  Build_color3 (f32.div (r c) d) (f32.div (g c) d) (f32.div (b c) d).

Record point_t : Set := Build_point_t {
  coordinates : float3;
  color : color3;
  property : point_property
  }.

(** The character the escape [\n] denotes. *)
Definition newline : string := String (Ascii.ascii_of_nat 10) EmptyString.

(** The stream output operator. How [std::ostream] formats a [float] is
    the standard library's business: [show_float] stands for it. *)
Section Output.
Variable show_float : spec_float -> string.

Definition show_property (p : point_property) : string :=
  if point_property_eqb p active then "Active" else "Inactive".

(** The characters [operator<<] appends to the stream. *)
Definition print_point (point : point_t) : string :=
  "Coordinates: x = " +:+ show_float (x (coordinates point)) +:+ newline
  +:+ "             y = " +:+ show_float (y (coordinates point)) +:+ newline
  +:+ "             z = " +:+ show_float (z (coordinates point)) +:+ newline
  +:+ "R: " +:+ show_float (r (color point))
  +:+ " G: " +:+ show_float (g (color point))
  +:+ " B: " +:+ show_float (b (color point)) +:+ newline
  +:+ "Property: " +:+ show_property (property point)
  +:+ newline.
End Output.

(** A host-interchange record: the seven fields of a downloaded point,
    the property as its byte. *)
Definition host_record (p : point_t) : list spec_float * Z :=
  ([x (coordinates p); y (coordinates p); z (coordinates p);
    r (color p); g (color p); b (color p)],
   point_property_value (property p)).

End gca.

(** ** [type.hpp]: the property as the byte a record holds *)

Module stored.
Import ieee gca.

(** [enum point_property : uint8_t]: the underlying type is fixed, so the
    values of the enumeration are all the values of [uint8_t], the three
    enumerators among them. What a [point_property] object holds is a
    byte. *)
Definition byte (v : Z) : Prop := 0 <= v < 2 ^ 8.

(** [struct point_t] as memory holds it: the property is the byte that is
    there, whatever wrote it. *)
Record point_record : Set := Build_point_record {
  coordinates : float3;
  color : color3;
  property : Z
  }.

Definition well_formed (p : point_record) : Prop := byte (property p).

(** The record of a point whose property is one of the enumerators. *)
Definition record_of (p : point_t) : point_record :=
  {| coordinates := gca.coordinates p; color := gca.color p;
     property := point_property_value (gca.property p) |}.

(** [point.property == gca::point_property::active ? "Active" : "Inactive"]
    of [operator<<], on the byte of a record. *)
Definition show_property (p : point_record) : string :=
  if property p =? point_property_value active then "Active" else "Inactive".

(** A record at the origin, black, whose property byte is 3: the value
    [static_cast<gca::point_property>(3)]. *)
Definition unnamed : point_record :=
  {| coordinates := make_float3 f32.zero f32.zero f32.zero;
     color := Build_color3 f32.zero f32.zero f32.zero;
     property := 3 |}.

End stored.

(** ** [apps/test_color_icp.cpp]: loading a cloud *)

Module apps.

Record icp_env : Type := {
  loadPCDFile : string -> Z;      (* [pcl::io::loadPCDFile], -1 on failure *)
  loadPLYFile : string -> Z;      (* [pcl::io::loadPLYFile], -1 on failure *)
  viewer_stopped : nat -> bool;   (* [viewer->wasStopped()] *)
  viewer_2_stopped : nat -> bool  (* [viewer_2->wasStopped()] *)
  }.

(** [std::string::substr(pos, n)]: throws [std::out_of_range] when [pos]
    is past the end. *)
Definition substr (s : string) (pos : Z) (n : nat) : option string :=
  if pos <=? Z.of_nat (String.length s)
  then Some (String.substring (Z.to_nat pos) n s)
  else None.

(** [loadPointCloud]; [filename.size() - 4] is computed in [size_t]. *)
Definition loadPointCloud (env : icp_env) (filename : string) : option Z :=
  match substr filename ((Z.of_nat (String.length filename) - 4) mod 2 ^ 64) 4 with
  | None => None
  | Some extension =>
      if String.eqb extension ".pcd" then
        if loadPCDFile env filename =? -1 then Some 0 else Some 1
      else if String.eqb extension ".ply" then
        if loadPLYFile env filename =? -1 then Some 0 else Some 1
      else Some 0
  end.


End apps.

(** ** IEEE-754: numbers of either sign *)

Module roundoff.
Import ieee.

(** A number: a zero or a finite datum, no infinity, no NaN. *)
Definition number (x : spec_float) : bool :=
  match x with
  | S754_zero _ | S754_finite _ _ _ => true
  | _ => false
  end.

(** A number within [err] of [V]. *)
Definition near (V err : Q) (x : spec_float) : Prop :=
  number x = true /\ (Qabs (value x - V) <= err)%Q.

(** [x], or [-x]. *)
Definition flip (s : bool) (x : spec_float) : spec_float :=
  if s then SFopp x else x.

End roundoff.

(** ** The point-cloud operations

    [geometry/point_cloud.hpp], [geometry/cuda_nn_search.cuh] and the CUDA
    kernels behind them are not among the sources: this module is written
    from the specification (sections 3, 4.1, 4.2, 4.3, 4.4, 4.8, 7 and 9).
    Coordinates, cell sizes and radii are [float]s and every operation on
    them is the single-precision one (section 4.1): the differences, the
    quotient by the cell size, the squared distances, the running sums and
    the means are all rounded. *)

Module cloud.
Import ieee gca.

(** Modelled from the spec: the error kinds of section 7 (the header that
    declares them is not among the sources). *)
Inductive error : Set :=
  | InvalidArgument
  | OutOfMemory
  | DeviceError
  | MissingNormals
  | NoCorrespondences
  | Singular
  | IoError.

(** Modelled from the spec: section 7, errors are explicit result values. *)
Inductive result (A : Type) : Type :=
  | Ok (a : A)
  | Err (e : error).
Arguments Ok {A} a.
Arguments Err {A} e.

(** Sequencing of fallible steps: the first error is the result. *)
Definition bind {A B : Type} (m : result A) (k : A -> result B) : result B :=
  match m with
  | Ok a => k a
  | Err e => Err e
  end.

(** One fallible step per element, in order. *)
Fixpoint mapM {A B : Type} (f : A -> result B) (l : list A) : result (list B) :=
  match l with
  | [] => Ok []
  | a :: l' => bind (f a) (fun b => bind (mapM f l') (fun bs => Ok (b :: bs)))
  end.

Abbreviation cell := (Z * Z * Z)%type.

(** Modelled from the spec: sections 3, 4.8 and 9; the live points of a
    cloud, those the operations work on; a point whose property is
    [invalid] is excluded, [active] and [inactive] are treated alike. *)
Definition live (p : point_t) : bool :=
  negb (point_property_eqb (property p) invalid).

(** Modelled from the spec: section 3; [floor] of a [float], the
    greatest integer not above it; an infinity and NaN have none. *)
Definition floor (v : spec_float) : option Z :=
  match v with
  | S754_zero _ => Some 0
  | S754_finite _ _ _ => Some (Qfloor (value v))
  | _ => None
  end.

(** Modelled from the spec: section 3; [floor((p - min) / h)] along one
    axis, the difference and the quotient in single precision. *)
Definition cell_axis (o h a : spec_float) : option Z :=
  floor (f32.div (f32.sub a o) h).

(** Modelled from the spec: section 3;
    [(ix, iy, iz) = floor((p - min) / h)] (the hashing kernel is not among
    the sources). A point one of whose quotients is no number has no
    cell. *)
Definition cell_of (o : float3) (h : spec_float) (p : float3) : option cell :=
  ix ← cell_axis (x o) h (x p);
  iy ← cell_axis (y o) h (y p);
  iz ← cell_axis (z o) h (z p);
  Some (ix, iy, iz).

(** Modelled from the spec: sections 4.1 and 4.2; the squared distance
    the queries filter by, in single precision: three differences, three
    squares, two sums ([geometry/cuda_nn_search.cuh] is not among the
    sources). *)
Definition dist2 (p q : float3) : spec_float :=
  let dx := f32.sub (x p) (x q) in
  let dy := f32.sub (y p) (y q) in
  let dz := f32.sub (z p) (z q) in
  f32.add (f32.add (f32.mul dx dx) (f32.mul dy dy)) (f32.mul dz dz).

(** The lesser of two [float]s: [c < a ? c : a]. *)
Definition fmin (a c : spec_float) : spec_float := if SFltb c a then c else a.

(** Component-wise minimum. *)
Definition vmin (a c : float3) : float3 :=
  make_float3 (fmin (x a) (x c)) (fmin (y a) (y c)) (fmin (z a) (z c)).

(** Modelled from the spec: sections 3 and 4.1; the lower corner
    [min_xyz] of the bounding box, the [min] reduction over the
    coordinates of the live points; the origin for a cloud without one
    (the bounding box reduction is not among the sources). *)
Definition bbox_min (pts : list point_t) : float3 :=
  match coordinates <$> filter (fun p => live p = true) pts with
  | [] => make_float3 f32.zero f32.zero f32.zero
  | p :: ps => fold_left vmin ps p
  end.

(** Modelled from the spec: section 3; the grid hash; for every occupied
    cell, the indices of the points in it ([geometry/cuda_nn_search.cuh] is
    not among the sources). *)
Record Index : Type := {
  origin : float3;
  cell_size : spec_float;
  indexed : list point_t;
  cells : gmap cell (list nat)
  }.

(** The point indices stored for a cell; none for a cell that is not
    occupied. *)
Definition bucket (m : gmap cell (list nat)) (c : cell) : list nat :=
  default [] (m !! c).

(** Modelled from the spec: sections 3 and 4.2; one point hashed into the
    cell table: a live point goes to the bucket of its cell. *)
Definition enter (o : float3) (h : spec_float) (i : nat) (p : point_t)
    (m : gmap cell (list nat)) : gmap cell (list nat) :=
  if live p then
    match cell_of o h (coordinates p) with
    | Some c => <[c := bucket m c ++ [i]]> m
    | None => m
    end
  else m.

(** Modelled from the spec: section 4.2; hash the points [pts], numbered
    from [i] on, into the cell table [m] (the build kernel is not among the
    sources). *)
Fixpoint fill (o : float3) (h : spec_float) (i : nat) (pts : list point_t)
    (m : gmap cell (list nat)) : gmap cell (list nat) :=
  match pts with
  | [] => m
  | p :: ps => fill o h (S i) ps (enter o h i p m)
  end.

(** Modelled from the spec: section 4.2; [build(points, cell_size h)],
    where [h > 0]; the grid origin is the lower corner of the bounding box
    (the build routine is not among the sources). *)
Definition build (pts : list point_t) (h : spec_float) : result Index :=
  if SFltb f32.zero h then
    let o := bbox_min pts in
    Ok {| origin := o; cell_size := h; indexed := pts;
          cells := fill o h 0 pts ∅ |}
  else Err InvalidArgument.

(** The steps to the neighbor cells along one axis. *)
Definition offsets : list Z := [-1; 0; 1].

(** Modelled from the spec: section 4.2; the 27 cells a query scans, the
    3x3x3 block around [c]. *)
Definition neighborhood (c : cell) : list cell :=
  let '(ix, iy, iz) := c in
  dx ← offsets; dy ← offsets; dz ← offsets; [(ix + dx, iy + dy, iz + dz)].

(** Modelled from the spec: section 4.2; the filter by squared distance;
    the result entry (point id, squared distance) of point [i] for the query
    [(q, r)], when it has one. *)
Definition hit (pts : list point_t) (q : float3) (r : spec_float) (i : nat)
    : option (nat * spec_float) :=
  match pts !! i with
  | Some p =>
      let d := dist2 (coordinates p) q in
      if SFleb d (f32.mul r r) then Some (i, d) else None
  | None => None
  end.

(** Modelled from the spec: sections 4.2 and 7; [radius_search(q, r)]; a
    negative radius and [r > h] are invalid arguments, otherwise the 27
    cells around the query's cell are scanned (the query kernel is not among
    the sources). A query that has no cell finds nothing. *)
Definition radius_search (idx : Index) (q : float3) (r : spec_float)
    : result (list (nat * spec_float)) :=
  if negb (SFleb f32.zero r) then Err InvalidArgument
  else if negb (SFleb r (cell_size idx)) then Err InvalidArgument
  else
    Ok (match cell_of (origin idx) (cell_size idx) q with
        | Some cq =>
            c ← neighborhood cq;
            omap (hit (indexed idx) q r) (bucket (cells idx) c)
        | None => []
        end).

(** The positions of the live points of a cloud. *)
Definition live_ids (pts : list point_t) : list nat :=
  filter (fun i => (live <$> pts !! i) = Some true) (seq 0 (length pts)).

(** The reference of section 8, property 4: a scan over all live points,
    with the same filter. *)
Definition brute_force (pts : list point_t) (q : float3) (r : spec_float)
    : list (nat * spec_float) :=
  omap (hit pts q r) (live_ids pts).





(** *** Radius outlier removal (section 4.4) *)

(** Modelled from the spec: section 3; the cell size is chosen per
    operation, typically the query radius; a radius of 0 is none, and
    then any will do: 1. *)
Definition outlier_cell_size (radius : spec_float) : spec_float :=
  if SFltb f32.zero radius then radius else f32.one.

(** Modelled from the spec: section 4.4; how many points other than [i]
    itself the index finds around point [i]; self is not counted. *)
Definition neighbor_count (idx : Index) (r : spec_float) (i : nat) (p : point_t)
    : result nat :=
  bind (radius_search idx (coordinates p) r)
       (fun found => Ok (length (filter (fun e => e.1 ≠ i) found))).

(** A list with its elements numbered from [s] on. *)
Definition numbered {A : Type} (s : nat) (l : list A) : list (nat * A) :=
  zip (seq s (length l)) l.

(** Modelled from the spec: section 2, filters as a mask over the index;
    stream compaction, the elements whose mask bit is set, in order. *)
Fixpoint compact {A : Type} (l : list A) (mask : list bool) : list A :=
  match l, mask with
  | a :: l', keep :: mask' =>
      if keep then a :: compact l' mask' else compact l' mask'
  | _, _ => []
  end.

(** Modelled from the spec: section 4.4; the mask bit of point [i]: a
    live point with at least [min_neighbors] others found around it. *)
Definition keeps (idx : Index) (radius : spec_float) (min_neighbors : nat)
    (ip : nat * point_t) : result bool :=
  if live ip.2 then
    bind (neighbor_count idx radius ip.1 ip.2)
         (fun n => Ok (min_neighbors <=? n)%nat)
  else Ok false.

(** Modelled from the spec: sections 2, 3, 4.4 and 7; radius outlier
    removal on the points of a cloud; a negative radius is an invalid
    argument; an index, one radius query per live point, a mask, a
    compaction (the filter kernel is not among the sources). *)
Definition radius_outlier_points (pts : list point_t) (radius : spec_float)
    (min_neighbors : nat) : result (list point_t) :=
  if negb (SFleb f32.zero radius) then Err InvalidArgument
  else
    bind (build pts (outlier_cell_size radius)) (fun idx =>
    bind (mapM (keeps idx radius min_neighbors) (numbered 0 pts)) (fun mask =>
    Ok (compact pts mask))).

(** The claim's wording: the live points other than [i] within [radius]
    of point [i], by the squared distance of the scan. *)
Definition others_within (pts : list point_t) (radius : spec_float) (i : nat)
    : list nat :=
  match pts !! i with
  | Some p =>
      filter (fun j => j ≠ i)
             (brute_force pts (coordinates p) radius).*1
  | None => []
  end.

(** The claim's wording: the points with at least [min_neighbors] other
    points within [radius], in their input order. *)
Definition inliers (pts : list point_t) (radius : spec_float)
    (min_neighbors : nat) : list point_t :=
  (filter (fun ip => live ip.2 = true /\
                     (min_neighbors <= length (others_within pts radius ip.1))%nat)
          (numbered 0 pts)).*2.


(** *** Voxel-grid down-sampling (sections 3 and 4.3) *)

(** Modelled from the spec: the sum of two [float3], channel by channel in
    single precision (the helpers of [util/math.cuh] are not among the
    sources). *)
Definition float3_add (a c : float3) : float3 :=
  make_float3 (f32.add (x a) (x c)) (f32.add (y a) (y c)) (f32.add (z a) (z c)).

(** Modelled from the spec: a [float3] over a count, channel by channel
    in single precision (the helpers of [util/math.cuh] are not among the
    sources). *)
Definition float3_div (a : float3) (n : Z) : float3 :=
  let d := f32.of_Z n in
  make_float3 (f32.div (x a) d) (f32.div (y a) d) (f32.div (z a) d).

(** Modelled from the spec: section 3; the voxel accumulator's running
    sum [(Σxyz, Σrgb, count)] (the down-sampling kernel is not among the
    sources). *)
Record voxel_sum : Set := {
  sum_xyz : float3;
  sum_rgb : color3;
  count : Z
  }.

(** The running sum of a voxel no point has reached yet. *)
Definition voxel_zero : voxel_sum :=
  {| sum_xyz := make_float3 f32.zero f32.zero f32.zero;
     sum_rgb := Build_color3 f32.zero f32.zero f32.zero;
     count := 0 |}.

(** Modelled from the spec: section 3; one more contributor to a running
    sum; the colours add up with [color3::operator+=]. *)
Definition accumulate (acc : voxel_sum) (p : point_t) : voxel_sum :=
  {| sum_xyz := float3_add (sum_xyz acc) (coordinates p);
     sum_rgb := color3_add_assign (sum_rgb acc) (color p);
     count := count acc + 1 |}.

(** Modelled from the spec: section 4.3; the output point of a voxel,
    the sums over the count, with property [active]; the colour is divided
    with [color3::operator/]. *)
Definition voxel_point (acc : voxel_sum) : point_t :=
  {| coordinates := float3_div (sum_xyz acc) (count acc);
     color := color3_div (sum_rgb acc) (count acc);
     property := active |}.

(** Modelled from the spec: sections 4.3 and 4.8; the voxel that contains
    a point, the cell of size [leaf] it falls in; a point that is not live
    is in none. *)
Definition voxel_of (o : float3) (leaf : spec_float) (p : point_t) : option cell :=
  if live p then cell_of o leaf (coordinates p) else None.

(** Modelled from the spec: section 4.3; a point contributes to the
    running sum of its voxel. *)
Definition voxel_accumulate (o : float3) (leaf : spec_float)
    (m : gmap cell voxel_sum) (p : point_t) : gmap cell voxel_sum :=
  match voxel_of o leaf p with
  | Some k => <[k := accumulate (default voxel_zero (m !! k)) p]> m
  | None => m
  end.

(** Modelled from the spec: sections 4.3 and 7; voxel-grid down-sampling
    on the points of a cloud; the leaf size is a cell size, [leaf > 0];
    every point contributes to its voxel's running sum, one output point
    per entry of the accumulator (the down-sampling kernel is not among the
    sources). *)
Definition voxel_points (pts : list point_t) (leaf : spec_float)
    : result (list point_t) :=
  if SFltb f32.zero leaf then
    let o := bbox_min pts in
    Ok ((fun kv => voxel_point kv.2)
          <$> map_to_list (fold_left (voxel_accumulate o leaf) pts ∅))
  else Err InvalidArgument.

(** The claim's wording: the input points that fall in voxel [k], in
    input order. *)
Definition contributors (o : float3) (leaf : spec_float) (pts : list point_t)
    (k : cell) : list point_t :=
  filter (fun p => voxel_of o leaf p = Some k) pts.







(** *** The facade (section 4.8): clouds in device memory *)

(** Device memory holds the clouds; a handle is a position in it. An
    operation that returns a new cloud allocates a fresh one. *)
Abbreviation device := (list (list point_t)).

(** Modelled from the spec: sections 4.8 and 5; a fresh buffer for a new
    cloud; nothing already in device memory is touched. *)
Definition alloc (d : device) (c : list point_t) : device * nat :=
  (d ++ [c], length d).


(** Modelled from the spec: sections 4.4 and 4.8;
    [this->radius_outlier_removal(radius, min_neighbors)], which returns a
    new cloud ([geometry/point_cloud.hpp] is not among the sources).
    [None]: [this] is no cloud. *)
Definition radius_outlier_removal (d : device) (this : nat) (radius : spec_float)
    (min_neighbors : nat) : option (result (device * nat)) :=
  c ← d !! this;
  Some (bind (radius_outlier_points c radius min_neighbors)
             (fun out => Ok (alloc d out))).

End cloud.

(** Clouds to query. *)
Module cloud_samples.
Import ieee gca cloud.

(** Some [float]s: 2, and the three around the cell borders:
    [-2^-24], [1 - 2^-23] and [2 - 2^-23]. *)
Definition two : spec_float := S754_finite false 8388608 (-22).

(** A white point on the first axis. *)
Definition on_axis (a : spec_float) (property : point_property) : point_t :=
  Build_point_t (make_float3 a f32.zero f32.zero)
                (Build_color3 f32.one f32.one f32.one) property.




(** Ten points in a row, a unit apart; with one that is not valid. *)
Definition ten_points : list point_t :=
  (fun a => on_axis (f32.of_Z a) active) <$> [0; 1; 2; 3; 4; 5; 6; 7; 8; 9].
Definition eleven_points : list point_t :=
  ten_points ++ [on_axis f32.one invalid].

(** Three points on a line, 1 and 3/2 apart. *)
Definition three_points : list point_t :=
  [on_axis f32.zero active; on_axis f32.one active;
   on_axis (S754_finite false 10485760 (-22)) active].

(** The index over [three_points], of cell size 1. *)
Definition three_points_index : Index :=
  {| origin := make_float3 f32.zero f32.zero f32.zero; cell_size := f32.one;
     indexed := three_points;
     cells := fill (make_float3 f32.zero f32.zero f32.zero) f32.one 0
                   three_points ∅ |}.

End cloud_samples.

(** ** Sample data *)

Module samples.
Import ieee gca.

(** The colour (0.625, 0, 0). *)
Definition five_eighths_red : color3 :=
  Build_color3 (S754_finite false 10485760 (-24)) f32.zero f32.zero.

(** Pure red. *)
Definition red : color3 := Build_color3 f32.one f32.zero f32.zero.

End samples.

(** ** IEEE-754: the datum of a number *)

Module exact.
Import ieee.

(** [x] is the datum a format has for the number of sign [s] and
    magnitude [V]: a finite one, of a mantissa and an exponent that are
    the format's own, and that stands for [V]. *)
Definition datum (prec emax : Z) (s : bool) (V : Q) (x : spec_float) : Prop :=
  exists (q : positive) (f : Z),
    x = S754_finite s q f /\ bounded prec emax q f = true /\
    (inject_Z (Zpos q) * 2 ^ f == V)%Q.

End exact.

(** ** [apps/test_color_icp.cpp]: the point filters

    The six filters the file adds to namespace [pcl], and [removeNaNPoints]
    which calls two of them on one cloud. A cloud is passed by reference,
    and input and output may be the same object: the clouds live in a
    memory, a reference is a position in it. [None] is undefined behaviour:
    an element access past the end of a vector. *)

Module pcl.
Import ieee.

(** [std::isfinite] on a [float]. *)
Definition isfinite (v : spec_float) : bool :=
  match v with
  | S754_zero _ | S754_finite _ _ _ => true
  | _ => false
  end.

(** [static_cast<int>(i)] for a [size_t] [i]: modulo [2 ^ 32], signed. *)
Definition to_int (i : Z) : Z := (i + 2 ^ 31) mod 2 ^ 32 - 2 ^ 31.

(** [static_cast<uint32_t>(j)] for a [size_t] [j]. *)
Definition to_uint32 (j : Z) : Z := j mod 2 ^ 32.

(** An [int] read as a [size_t], as [for (size_t i : index)] does. *)
Definition to_size_t (i : Z) : Z := i mod 2 ^ 64.

(** [pcl::PointCloud<PointT>]; [Header] is [pcl::PCLHeader], which the
    filters only copy. *)
Record PointCloud (Header PointT : Type) : Type := Build_PointCloud {
  header : Header;
  points : list PointT;
  width : Z;
  height : Z;
  is_dense : bool;
  sensor_origin_ : list spec_float;
  sensor_orientation_ : list spec_float
  }.
Arguments Build_PointCloud {Header PointT}.
Arguments header {Header PointT}.
Arguments points {Header PointT}.
Arguments width {Header PointT}.
Arguments height {Header PointT}.
Arguments is_dense {Header PointT}.
Arguments sensor_origin_ {Header PointT}.
Arguments sensor_orientation_ {Header PointT}.

(** The positions of the elements of [l] that [skip] lets through, counted
    from [i]: what a filter is expected to leave in [index]. *)
Fixpoint kept_from {A : Type} (skip : A -> bool) (i : nat) (l : list A) : list nat :=
  match l with
  | [] => []
  | p :: l' =>
      if skip p then kept_from skip (S i) l' else i :: kept_from skip (S i) l'
  end.

Section Filters.
Context {Header PointT : Type}.

(** A value-initialised point: what [std::vector::resize] appends. *)
Variable point0 : PointT.

#[local] Abbreviation memory := (list (PointCloud Header PointT)).

Definition set_header (h : Header) (c : PointCloud Header PointT)
    : PointCloud Header PointT :=
  Build_PointCloud h (points c) (width c) (height c) (is_dense c)
                   (sensor_origin_ c) (sensor_orientation_ c).

Definition set_points (pts : list PointT) (c : PointCloud Header PointT)
    : PointCloud Header PointT :=
  Build_PointCloud (header c) pts (width c) (height c) (is_dense c)
                   (sensor_origin_ c) (sensor_orientation_ c).

(** [cloud.points.size()]. *)
Definition size (m : memory) (cloud : nat) : option nat :=
  c ← m !! cloud; Some (length (points c)).

(** Reading [cloud.points[i]]. *)
Definition load (m : memory) (cloud i : nat) : option PointT :=
  c ← m !! cloud; points c !! i.

(** [cloud.points[j] = p]. *)
Definition store (m : memory) (cloud j : nat) (p : PointT) : option memory :=
  c ← m !! cloud;
  guard (j < length (points c))%nat;;
  Some (<[cloud := set_points (<[j := p]> (points c)) c]> m).

(** [cloud.points.resize(n)]. *)
Definition resize_points (m : memory) (cloud n : nat) : option memory :=
  c ← m !! cloud;
  Some (<[cloud := set_points (resize n point0 (points c)) c]> m).

(** [index[j] = v]. *)
Definition store_index (index : list Z) (j : nat) (v : Z) : option (list Z) :=
  guard (j < length index)%nat;; Some (<[j := v]> index).

(** The first lines of a filter: an output that is another object than the
    input takes the input's header and size. *)
Definition prepare_output (m : memory) (cloud_in cloud_out : nat) : option memory :=
  if decide (cloud_in ≠ cloud_out) then
    cin ← m !! cloud_in;
    cout ← m !! cloud_out;
    resize_points (<[cloud_out := set_header (header cin) cout]> m)
                  cloud_out (length (points cin))
  else Some m.

(** The copying loop of a filter, over the positions [range] of the input:
    [if (skip) continue; cloud_out.points[j] = cloud_in.points[i];
     index[j] = static_cast<int>(i); j++;]. The body assigns elements
    only, so that [cloud_in.points.size()], the bound of the loop, is the
    same at every test. *)
Fixpoint copy_unless (skip : PointT -> bool) (cloud_in cloud_out : nat)
    (range : list nat) (m : memory) (index : list Z) (j : nat)
    : option (memory * list Z * nat) :=
  match range with
  | [] => Some (m, index, j)
  | i :: range' =>
      p ← load m cloud_in i;
      if skip p then copy_unless skip cloud_in cloud_out range' m index j
      else
        m' ← store m cloud_out j p;
        index' ← store_index index j (to_int (Z.of_nat i));
        copy_unless skip cloud_in cloud_out range' m' index' (S j)
  end.

(** The last lines of a filter: [if (j != cloud_in.points.size())] both
    vectors shrink to [j]; then height, width and density are set. *)
Definition shrink_output (m : memory) (cloud_in cloud_out : nat)
    (index : list Z) (j : nat) : option (memory * list Z) :=
  n ← size m cloud_in;
  '(m1, index1) ←
    (if decide (j ≠ n) then
       m' ← resize_points m cloud_out j; Some (m', resize j 0 index)
     else Some (m, index));
  cout ← m1 !! cloud_out;
  Some (<[cloud_out :=
            Build_PointCloud (header cout) (points cout)
                             (to_uint32 (Z.of_nat j)) 1 true
                             (sensor_origin_ cout) (sensor_orientation_ cout)]> m1,
        index1).

(** The filters that test every point: [removeNaNFromPointCloudBruteForce]
    and [removeNaNRGBFromPointCloud] differ in the test only. *)
Definition remove_unless (skip : PointT -> bool) (m : memory)
    (cloud_in cloud_out : nat) (index : list Z) : option (memory * list Z) :=
  m1 ← prepare_output m cloud_in cloud_out;
  n ← size m1 cloud_in;
  let index1 := resize n 0 index in
  '(m2, index2, j) ← copy_unless skip cloud_in cloud_out (seq 0 n) m1 index1 0%nat;
  shrink_output m2 cloud_in cloud_out index2 j.

(** [index[j] = static_cast<int>(j)] for every [j] below the output's size. *)
Fixpoint number_index (js : list nat) (index : list Z) : option (list Z) :=
  match js with
  | [] => Some index
  | j :: js' =>
      index' ← store_index index j (to_int (Z.of_nat j));
      number_index js' index'
  end.

(** The filters on descriptors: a cloud that says it is dense is copied as
    it is, its points not looked at. *)
Definition remove_unless_dense (skip : PointT -> bool) (m : memory)
    (cloud_in cloud_out : nat) (index : list Z) : option (memory * list Z) :=
  m1 ← prepare_output m cloud_in cloud_out;
  n ← size m1 cloud_in;
  let index1 := resize n 0 index in
  cin ← m1 !! cloud_in;
  if is_dense cin then
    _ ← m1 !! cloud_out;
    let m2 := <[cloud_out := cin]> m1 in
    nout ← size m2 cloud_out;
    index2 ← number_index (seq 0 nout) index1;
    Some (m2, index2)
  else
    '(m2, index2, j) ← copy_unless skip cloud_in cloud_out (seq 0 n) m1 index1 0%nat;
    shrink_output m2 cloud_in cloud_out index2 j.

(** [template <typename PointT> removeNaNFromPointCloudBruteForce], for a
    point type with members [x], [y] and [z]. *)
Definition removeNaNFromPointCloudBruteForce (x y z : PointT -> spec_float)
    : memory -> nat -> nat -> list Z -> option (memory * list Z) :=
  remove_unless
    (fun p => negb (isfinite (x p)) || negb (isfinite (y p)) || negb (isfinite (z p))).

(** [template <typename PointT> removeNaNRGBFromPointCloud], for a point
    type with the member [rgba]. *)
Definition removeNaNRGBFromPointCloud (rgba : PointT -> Z)
    : memory -> nat -> nat -> list Z -> option (memory * list Z) :=
  remove_unless (fun p => rgba p =? 0).

(** The loop of [removePointsFromPointCloud]:
    [for (size_t i : index) { cloud_out.points[j] = cloud_in.points[i]; j++; }]. *)
Fixpoint copy_indexed (cloud_in cloud_out : nat) (index : list Z) (m : memory)
    (j : nat) : option (memory * nat) :=
  match index with
  | [] => Some (m, j)
  | i :: index' =>
      p ← load m cloud_in (Z.to_nat (to_size_t i));
      m' ← store m cloud_out j p;
      copy_indexed cloud_in cloud_out index' m' (S j)
  end.

(** [template <typename PointT> removePointsFromPointCloud]: the output is
    not sized beforehand, nor does it take the input's header. *)
Definition removePointsFromPointCloud (m : memory) (cloud_in cloud_out : nat)
    (index : list Z) : option memory :=
  '(m1, j) ← copy_indexed cloud_in cloud_out index m 0%nat;
  n ← size m1 cloud_in;
  m2 ← (if decide (j ≠ n) then resize_points m1 cloud_out j else Some m1);
  cout ← m2 !! cloud_out;
  Some (<[cloud_out :=
            Build_PointCloud (header cout) (points cout)
                             (to_uint32 (Z.of_nat j)) 1 true
                             (sensor_origin_ cout) (sensor_orientation_ cout)]> m2).

End Filters.

(** [pcl::FPFHSignature33]: [float histogram[33]], an array as the function
    of its positions. *)
Record FPFHSignature33 : Type := { histogram : nat -> spec_float }.

(** [pcl::SHOT352] and [pcl::SHOT1344]: [float descriptor[n]; float rf[9]],
    for [n] the number in the name. *)
Record SHOT (n : nat) : Type := { descriptor : nat -> spec_float; rf : nat -> spec_float }.
Arguments descriptor {n}.
Arguments rf {n}.

Definition removeNaNFPFHFromPointCloud {Header : Type} (point0 : FPFHSignature33)
    : list (PointCloud Header FPFHSignature33) -> nat -> nat -> list Z ->
      option (list (PointCloud Header FPFHSignature33) * list Z) :=
  remove_unless_dense (Header := Header) point0
    (fun p => negb (isfinite (histogram p 0%nat))).

Definition removeNaNSHOTFromPointCloud {Header : Type} (point0 : SHOT 352)
    : list (PointCloud Header (SHOT 352)) -> nat -> nat -> list Z ->
      option (list (PointCloud Header (SHOT 352)) * list Z) :=
  remove_unless_dense (Header := Header) point0
    (fun p => negb (isfinite (descriptor p 0%nat)) || negb (isfinite (rf p 0%nat))).

Definition removeNaNSHOTColorFromPointCloud {Header : Type} (point0 : SHOT 1344)
    : list (PointCloud Header (SHOT 1344)) -> nat -> nat -> list Z ->
      option (list (PointCloud Header (SHOT 1344)) * list Z) :=
  remove_unless_dense (Header := Header) point0
    (fun p => negb (isfinite (descriptor p 0%nat)) || negb (isfinite (rf p 0%nat))).

(** [pcl::PointXYZRGB]: the colour is the 32-bit word [rgba]. *)
Record PointXYZRGB : Type := { x : spec_float; y : spec_float; z : spec_float; rgba : Z }.

(** [removeNaNPoints]: both filters on the one cloud, in place, with one
    [nan_idx] for both. The result holds the two sizes it prints. *)
Definition removeNaNPoints {Header : Type} (point0 : PointXYZRGB)
    (m : list (PointCloud Header PointXYZRGB)) (cloud : nat)
    : option (list (PointCloud Header PointXYZRGB) * list nat) :=
  let nan_idx := [] in
  '(m1, nan_idx1) ← removeNaNFromPointCloudBruteForce point0 x y z m cloud cloud nan_idx;
  n1 ← size m1 cloud;
  '(m2, nan_idx2) ← removeNaNRGBFromPointCloud point0 rgba m1 cloud cloud nan_idx1;
  n2 ← size m2 cloud;
  Some (m2, [n1; n2]).

End pcl.

(** Clouds to try the filters on. *)
Module pcl_samples.
Import ieee pcl.

(** A value-initialised [pcl::PointXYZRGB]. *)
Definition origin : PointXYZRGB :=
  {| x := S754_zero false; y := S754_zero false; z := S754_zero false; rgba := 0 |}.

(** A white point at (1, 0, 0), a white point whose [y] is NaN, and a
    point at (1, 0, 0) without a colour. *)
Definition white : PointXYZRGB :=
  {| x := f32.one; y := S754_zero false; z := S754_zero false; rgba := 4294967295 |}.
Definition broken : PointXYZRGB :=
  {| x := f32.one; y := S754_nan; z := S754_zero false; rgba := 4294967295 |}.
Definition colourless : PointXYZRGB :=
  {| x := f32.one; y := S754_zero false; z := S754_zero false; rgba := 0 |}.

(** A cloud of four points, not marked dense, and an empty one. *)
Definition scan : PointCloud unit PointXYZRGB :=
  Build_PointCloud tt [broken; white; colourless; white] 4 1 false [] [].
Definition blank : PointCloud unit PointXYZRGB :=
  Build_PointCloud tt [] 0 0 true [] [].

(** A memory that holds both. *)
Definition two_clouds : list (PointCloud unit PointXYZRGB) := [scan; blank].

(** A cloud of three points to select into, and a memory with it. *)
Definition canvas : PointCloud unit PointXYZRGB :=
  Build_PointCloud tt [origin; origin; origin] 3 1 true [] [].
Definition scan_and_canvas : list (PointCloud unit PointXYZRGB) := [scan; canvas].

(** Descriptors: one whose first bin is NaN, one that is sound; a cloud
    of both that says it is dense, and one that does not. *)
Definition nan_histogram : FPFHSignature33 := {| histogram := fun _ => S754_nan |}.
Definition flat_histogram : FPFHSignature33 := {| histogram := fun _ => f32.one |}.
Definition dense_features : PointCloud unit FPFHSignature33 :=
  Build_PointCloud tt [nan_histogram; flat_histogram] 2 1 true [] [].
Definition sparse_features : PointCloud unit FPFHSignature33 :=
  Build_PointCloud tt [nan_histogram; flat_histogram] 2 1 false [] [].

(** A SHOT descriptor that is sound at position 0 only, and one that is
    not; in a cloud that is not marked dense. *)
Definition late_nan {n : nat} : SHOT n :=
  {| descriptor := fun k => match k with O => f32.one | _ => S754_nan end;
     rf := fun _ => f32.one |}.
Definition early_nan {n : nat} : SHOT n :=
  {| descriptor := fun _ => S754_nan; rf := fun _ => f32.one |}.
Definition shots {n : nat} : PointCloud unit (SHOT n) :=
  Build_PointCloud tt [early_nan; late_nan] 2 1 false [] [].

End pcl_samples.

(** ** The two programs: from downloaded points to points on display

    Both [main]s copy the points a cloud's [download()] gives into a
    [pcl::PointCloud<pcl::PointXYZRGBA>] for the viewer, one
    [cloud->points[i] = p] at a time. [None] is undefined behaviour: a
    [float] that does not fit the [uint8_t] it is converted to, an element
    access past the end of a vector. *)

Module display.
Import ieee.

(** [pcl::PointXYZRGBA]. *)
Record PointXYZRGBA : Type := Build_PointXYZRGBA {
  x : spec_float; y : spec_float; z : spec_float;
  r : Z; g : Z; b : Z; a : Z
  }.

(** The integer part of a [float], toward zero; an infinity and NaN have
    none. *)
Definition truncate (v : spec_float) : option Z :=
  match v with
  | S754_zero _ => Some 0
  | S754_finite s m e => Some (cond_Zopp s (Z.shiftl (Zpos m) e))
  | _ => None
  end.

(** The conversion of a [float] to [uint8_t]: its integer part, when that
    is one of 0 .. 255; undefined otherwise. *)
Definition to_uint8 (v : spec_float) : option Z :=
  t ← truncate v; guard (0 <= t <= 255);; Some t.

(** The conversion of an [int] to [uint8_t]: modulo 256. *)
Definition int_to_uint8 (n : Z) : Z := n mod 256.

(** [c * 255] for a [float] [c]: the [int] becomes a [float], the product
    is rounded to single precision. *)
Definition times_255 (c : spec_float) : spec_float := f32.mul c (f32.of_Z 255).

(** [-v] for a [float] [v]. *)
Definition neg (v : spec_float) : spec_float := SFopp v.

(** A colour channel as the data model has it: a number from 0 to 1. *)
Definition unit_channel (c : spec_float) : Prop :=
  f32.finite c = true /\ (0 <= value c <= 1)%Q.

(** A host point whose three channels are. *)
Definition in_gamut (h : gca.point_t) : Prop :=
  unit_channel (gca.r (gca.color h)) /\ unit_channel (gca.g (gca.color h))
  /\ unit_channel (gca.b (gca.color h)).

Section Convert.

(** A default-constructed [pcl::PointXYZRGBA]: what [PointT p;] starts
    from, and what [resize] appends. *)
Variable point0 : PointXYZRGBA.

(** The body of the loops of [test_color_icp]: [p.x = pc_host[i].coordinates.x;
    ... p.r = pc_host[i].color.r * 255; ...]. *)
Definition to_pcl (h : gca.point_t) : option PointXYZRGBA :=
  r' ← to_uint8 (times_255 (gca.r (gca.color h)));
  g' ← to_uint8 (times_255 (gca.g (gca.color h)));
  b' ← to_uint8 (times_255 (gca.b (gca.color h)));
  Some (Build_PointXYZRGBA (gca.x (gca.coordinates h)) (gca.y (gca.coordinates h))
          (gca.z (gca.coordinates h)) r' g' b' (a point0)).

(** The body of the last loop of [app]: as above, with [y] and [z] negated. *)
Definition to_pcl_mirrored (h : gca.point_t) : option PointXYZRGBA :=
  r' ← to_uint8 (times_255 (gca.r (gca.color h)));
  g' ← to_uint8 (times_255 (gca.g (gca.color h)));
  b' ← to_uint8 (times_255 (gca.b (gca.color h)));
  Some (Build_PointXYZRGBA (gca.x (gca.coordinates h))
          (neg (gca.y (gca.coordinates h))) (neg (gca.z (gca.coordinates h)))
          r' g' b' (a point0)).

(** One turn of a loop: [PointT p; ...; cloud->points[i] = p;]. *)
Definition put (convert : gca.point_t -> option PointXYZRGBA)
    (host : list gca.point_t) (pts : list PointXYZRGBA) (i : nat)
    : option (list PointXYZRGBA) :=
  h ← host !! i;
  p ← convert h;
  guard (i < length pts)%nat;;
  Some (<[i := p]> pts).

(** The turns of a loop, or of two, in the order they are taken. *)
Fixpoint put_all (convert : gca.point_t -> option PointXYZRGBA)
    (host : list gca.point_t) (turns : list nat) (pts : list PointXYZRGBA)
    : option (list PointXYZRGBA) :=
  match turns with
  | [] => Some pts
  | i :: turns' =>
      pts' ← put convert host pts i;
      put_all convert host turns' pts'
  end.

(** [test_color_icp]: the turns of the task given to [std::async],
    [for (size_t i = 0; i < number_of_points / 2; i++)], and those of
    [main] meanwhile, [for (size_t i = number_of_points / 2; i <
    number_of_points; i++)]. *)
Definition async_turns (number_of_points : nat) : list nat :=
  seq 0 (number_of_points / 2).
Definition main_turns (number_of_points : nat) : list nat :=
  seq (number_of_points / 2) (number_of_points - number_of_points / 2).

(** [test_color_icp]: the points of [pcl_pc_result] after [f.get()], for
    the order [schedule] in which the turns of the two threads were taken.
    The cloud is new: [points.resize(number_of_points)] makes every point
    a default one. *)
Definition result_points (pc_host : list gca.point_t) (schedule : list nat)
    : option (list PointXYZRGBA) :=
  put_all to_pcl pc_host schedule (resize (length pc_host) point0 []).

(** [app]: the points of [cloud_0] after the last loop of a frame; the
    cloud is the one of the frame before, resized. *)
Definition frame_points (points_1 : list gca.point_t) (cloud_0 : list PointXYZRGBA)
    : option (list PointXYZRGBA) :=
  put_all to_pcl_mirrored points_1 (seq 0 (length points_1))
          (resize (length points_1) point0 cloud_0).

(** [app]: [rand()], as the sequence of the numbers it returns; the state
    is the number of calls made. *)
Variable rand : nat -> Z.

(** [generateRandomColor]; [%] is the remainder of the division that
    truncates. *)
Definition generateRandomColor (calls : nat) : (Z * Z * Z) * nat :=
  let r := Z.rem (rand calls) 256 in
  let g := Z.rem (rand (S calls)) 256 in
  let b := Z.rem (rand (S (S calls))) 256 in
  ((r, g, b), S (S (S calls))).

(** [app]: the point an object's colour [c] gives the host point [h]:
    [p.x = ...; p.y = -...; p.z = -...; p.r = c(0); p.g = c(1); p.b = c(2);]. *)
Definition painted (c : Z * Z * Z) (h : gca.point_t) : PointXYZRGBA :=
  Build_PointXYZRGBA (gca.x (gca.coordinates h))
    (neg (gca.y (gca.coordinates h))) (neg (gca.z (gca.coordinates h)))
    (int_to_uint8 c.1.1) (int_to_uint8 c.1.2) (int_to_uint8 c.2) (a point0).

(** [app]: [for (const auto &i : obj) { ...; cloud_1->points[i] = p; }];
    the members of an object are positions in the cloud. *)
Fixpoint paint_object (points_0 : list gca.point_t) (c : Z * Z * Z)
    (obj : list nat) (pts : list PointXYZRGBA) : option (list PointXYZRGBA) :=
  match obj with
  | [] => Some pts
  | i :: obj' =>
      h ← points_0 !! i;
      guard (i < length pts)%nat;;
      paint_object points_0 c obj' (<[i := painted c h]> pts)
  end.

(** [app]: [for (const auto &obj : objs) { auto c = generateRandomColor();
    ... }]. *)
Fixpoint paint_objects (points_0 : list gca.point_t) (objs : list (list nat))
    (calls : nat) (pts : list PointXYZRGBA) : option (list PointXYZRGBA * nat) :=
  match objs with
  | [] => Some (pts, calls)
  | obj :: objs' =>
      let '(c, calls') := generateRandomColor calls in
      pts' ← paint_object points_0 c obj pts;
      paint_objects points_0 objs' calls' pts'
  end.

(** [app]: the points of [cloud_1] a frame shows: [cloud_1->clear();
    cloud_1->points.resize(number_of_points);], then the objects painted. *)
Definition shown_points (points_0 : list gca.point_t) (objs : list (list nat))
    (calls : nat) : option (list PointXYZRGBA * nat) :=
  paint_objects points_0 objs calls (resize (length points_0) point0 []).

End Convert.

(** The orders in which the turns of two threads can be taken: each
    thread's own turns in its order. *)
Inductive interleaving {A : Type} : list A -> list A -> list A -> Prop :=
  | interleaving_nil : interleaving [] [] []
  | interleaving_left (t : A) (l1 l2 l : list A) :
      interleaving l1 l2 l -> interleaving (t :: l1) l2 (t :: l)
  | interleaving_right (t : A) (l1 l2 l : list A) :
      interleaving l1 l2 l -> interleaving l1 (t :: l2) (t :: l).

End display.

Module display_samples.
Import ieee gca display.

(** A default-constructed [pcl::PointXYZRGBA] (PCL 1.8 and later: opaque
    black at the origin). *)
Definition black : PointXYZRGBA :=
  Build_PointXYZRGBA (S754_zero false) (S754_zero false) (S754_zero false) 0 0 0 255.

(** One half, as a [float]. *)
Definition half : spec_float := S754_finite false 8388608 (-24).

(** Host points at (k, 0, 0), mid-grey. *)
Definition grey_point (k : Z) : point_t :=
  Build_point_t (make_float3 (f32.of_Z k) f32.zero f32.zero)
                (Build_color3 half half half) active.
Definition four_grey : list point_t := grey_point <$> [0; 1; 2; 3].

(** [rand()] that counts. *)
Definition counter (k : nat) : Z := 1000 + Z.of_nat k.

End display_samples.

(** Colours to add in two orders: 1 and two times [2^-24], the half of
    the step between 1 and the next [float]. *)
Module colour_samples.
Import ieee gca.
Definition speck : spec_float := S754_finite false 8388608 (-47).
Definition white : color3 := Build_color3 f32.one f32.one f32.one.
Definition specks : color3 := Build_color3 speck speck speck.
Definition nothing : color3 := Build_color3 f32.zero f32.zero f32.zero.
(** A colour whose red channel is NaN. *)
Definition nan_red : color3 := Build_color3 S754_nan f32.zero f32.zero.
Definition active_point : point_t :=
  Build_point_t (make_float3 f32.zero f32.zero f32.zero) white active.
Definition invalid_point : point_t :=
  Build_point_t (make_float3 f32.zero f32.zero f32.zero) white invalid.
End colour_samples.

(** An environment for [test_color_icp]. *)
Module load_samples.
Import apps.

(** Every file is there and loads; the viewers are closed at once. *)
Definition every_file : icp_env :=
  {| loadPCDFile := fun _ => 0; loadPLYFile := fun _ => 0;
     viewer_stopped := fun _ => true; viewer_2_stopped := fun _ => true |}.

End load_samples.

(** ** The two programs: how a run of [main] ends

    [main] of [apps/app.cpp] and of [apps/test_color_icp.cpp], statement by
    statement. Neither has a handler ([try], [catch]) nor a call of [exit]:
    a run ends by a [return] of [main], by an exception that leaves [main],
    or inside a callee. The callees that are not among the sources (the
    camera, the CUDA and PCL libraries, the viewers, the streams,
    [operator new], the destructors) are named by their call sites, each
    with the line it is on; what each call comes to is the
    environment's. *)

Module mains.
Import ieee apps.

(** What a call comes to: it returns, it throws (and no handler of [main]
    catches), or it ends the process itself with a status. *)
Inductive reply : Set :=
  | Returns
  | Throws
  | Exits (status : Z).

(** How a run ends. *)
Inductive ending : Set :=
  | Returned (code : Z)          (* [return code;] from [main] *)
  | Uncaught                     (* an exception nothing catches: [std::terminate] *)
  | Ended_by_callee (status : Z) (* a callee ended the process *)
  | Undefined                    (* undefined behaviour was reached *)
  | Unfinished.                  (* still running when the fuel ran out *)

(** Calls one after the other, the [k]-th time round: the first that does
    not return ends the run. [None]: all of them returned. *)
Fixpoint calls (reply_of : string -> nat -> reply) (k : nat) (sites : list string)
    : option ending :=
  match sites with
  | [] => None
  | site :: sites' =>
      match reply_of site k with
      | Returns => calls reply_of k sites'
      | Throws => Some Uncaught
      | Exits status => Some (Ended_by_callee status)
      end
  end.



(** *** [apps/app.cpp] *)












(** *** [apps/test_color_icp.cpp] *)












(** *** Both programs *)





End mains.

(** Runs of the two programs. *)
Module run_samples.
Import ieee apps mains.






End run_samples.

(** * Lemmas and theorems *)

Import ieee.

(** ** IEEE-754 round-off *)

Lemma inject_Z_xO (p : positive) : (inject_Z (Zpos p~0) == 2 * inject_Z (Zpos p))%Q.
Proof. change (Zpos p~0) with (2 * Zpos p). rewrite inject_Z_mult; reflexivity. Qed.

Lemma inject_Z_xI (p : positive) : (inject_Z (Zpos p~1) == 2 * inject_Z (Zpos p) + 1)%Q.
Proof. change (Zpos p~1) with (2 * Zpos p + 1). rewrite inject_Z_plus, inject_Z_mult. reflexivity. Qed.

(** One shift to the right halves the magnitude a record stands for. *)
Lemma shr_1_represents (mrs : shr_record) (V : Q) :
  0 <= shr_m mrs -> represents mrs V ->
  0 <= shr_m (shr_1 mrs) /\ represents (shr_1 mrs) (V * (1 # 2)).
Proof.
  destruct mrs as [m r s]. simpl. intros Hm.
  destruct m as [|p|p]; [| |lia].
  - unfold represents; destruct r, s; simpl; change (inject_Z 0) with 0%Q;
      intros [H1 H2]; (split; [lia|]); repeat split; lra.
  - unfold represents. destruct p as [p|p|].
    + pose proof (inject_Z_xI p) as HI.
      destruct r, s; simpl; intros H; rewrite !HI in H;
        generalize dependent (inject_Z (Z.pos p)); intros q H;
        (split; [lia|]); repeat split; lra.
    + pose proof (inject_Z_xO p) as HO.
      destruct r, s; simpl; intros H; rewrite !HO in H;
        generalize dependent (inject_Z (Z.pos p)); intros q H;
        (split; [lia|]); repeat split; lra.
    + destruct r, s; simpl; change (inject_Z 0) with 0%Q;
        change (inject_Z 1) with 1%Q; intros H;
        (split; [lia|]); repeat split; lra.
Qed.

(** [represents] respects equality of rational numbers. *)
Lemma represents_proper (mrs : shr_record) (V V' : Q) :
  (V == V')%Q -> represents mrs V -> represents mrs V'.
Proof.
  unfold represents. intros HV [[H1 H2] H3]. rewrite HV in H1, H2.
  split; [done|].
  destruct (loc_of_shr_record mrs) as [|[ | | ]]; rewrite <- HV; exact H3.
Qed.

Section Pow2.
#[local] Open Scope Q_scope.

Lemma pow2_pos (e : Z) : 0 < 2 ^ e.
Proof. by apply Qpower_0_lt. Qed.

Lemma pow2_plus (a c : Z) : 2 ^ (a + c) == 2 ^ a * 2 ^ c.
Proof. by apply Qpower_plus. Qed.

Lemma pow2_le (a c : Z) : (a <= c)%Z -> 2 ^ a <= 2 ^ c.
Proof. intros. by apply Qpower_le_compat_l. Qed.

Lemma pow2_lt (a c : Z) : (a < c)%Z -> 2 ^ a < 2 ^ c.
Proof. intros. by apply Qpower_lt_compat_l. Qed.

Lemma pow2_lt_inv (a c : Z) : 2 ^ a < 2 ^ c -> (a < c)%Z.
Proof. intros. by apply (Qpower_lt_compat_l_inv 2). Qed.

Lemma pow2_inject (n : Z) : (0 <= n)%Z -> inject_Z (2 ^ n) == 2 ^ n.
Proof. intros. by rewrite Zpower_Qpower. Qed.

Lemma pow2_succ (a : Z) : 2 ^ (a + 1) == 2 * 2 ^ a.
Proof. rewrite pow2_plus. change (2 ^ 1) with 2. ring. Qed.

Lemma half_pow2 (a : Z) : (1 # 2) ^ a * 2 ^ a == 1.
Proof.
  rewrite <- Qmult_power. change ((1 # 2) * 2) with (2 # 2).
  assert (2 # 2 == 1) as -> by reflexivity. apply Qpower_1.
Qed.
End Pow2.

(** [p] shifts to the right divide the magnitude by [2 ^ p]. *)
Lemma iter_shr_1_represents (p : positive) :
  forall (mrs : shr_record) (V : Q),
    0 <= shr_m mrs -> represents mrs V ->
    0 <= shr_m (SpecFloat.iter_pos shr_1 p mrs) /\
    represents (SpecFloat.iter_pos shr_1 p mrs) (V * (1 # 2) ^ Zpos p).
Proof.
  induction p as [p IH|p IH|]; intros mrs V Hm HV; cbn [SpecFloat.iter_pos].
  - destruct (shr_1_represents _ _ Hm HV) as [H1 R1].
    destruct (IH _ _ H1 R1) as [H2 R2].
    destruct (IH _ _ H2 R2) as [H3 R3].
    split; [done|]. eapply represents_proper; [|exact R3].
    replace (Zpos p~1) with (1 + (Zpos p + Zpos p)) by lia.
    rewrite !Qpower_plus by done. change ((1 # 2) ^ 1)%Q with (1 # 2). ring.
  - destruct (IH _ _ Hm HV) as [H2 R2].
    destruct (IH _ _ H2 R2) as [H3 R3].
    split; [done|]. eapply represents_proper; [|exact R3].
    replace (Zpos p~0) with (Zpos p + Zpos p) by lia.
    rewrite !Qpower_plus by done. ring.
  - destruct (shr_1_represents _ _ Hm HV) as [H1 R1].
    split; [done|]. exact R1.
Qed.

(** Rounding to nearest, ties to even, of a located value. *)
Lemma round_nearest_even_represents (mrs : shr_record) (V : Q) :
  represents mrs V ->
  let m := round_nearest_even (shr_m mrs) (loc_of_shr_record mrs) in
  (m = shr_m mrs \/ m = shr_m mrs + 1) /\
  (inject_Z m - (1 # 2) <= V /\ V <= inject_Z m + (1 # 2))%Q.
Proof.
  unfold represents. intros [[H1 H2] H3]. simpl.
  assert (inject_Z (shr_m mrs + 1) == inject_Z (shr_m mrs) + 1)%Q as Hs
    by (rewrite inject_Z_plus; reflexivity).
  destruct (loc_of_shr_record mrs) as [|[ | | ]]; simpl.
  - split; [by left|]. lra.
  - destruct (Z.even (shr_m mrs)).
    + split; [by left|]. lra.
    + split; [by right|]. rewrite Hs. lra.
  - split; [by left|]. lra.
  - split; [by right|]. rewrite Hs. lra.
Qed.

(** [digits2_pos p] is the number of binary digits of [p]. *)
Lemma digits2_pos_spec (p : positive) :
  2 ^ (Zpos (digits2_pos p) - 1) <= Zpos p < 2 ^ Zpos (digits2_pos p).
Proof.
  induction p as [p IH|p IH|]; simpl digits2_pos.
  - rewrite Pos2Z.inj_succ.
    replace (Z.succ (Zpos (digits2_pos p)) - 1) with (Z.succ (Zpos (digits2_pos p) - 1)) by lia.
    rewrite !Z.pow_succ_r by lia. lia.
  - rewrite Pos2Z.inj_succ.
    replace (Z.succ (Zpos (digits2_pos p)) - 1) with (Z.succ (Zpos (digits2_pos p) - 1)) by lia.
    rewrite !Z.pow_succ_r by lia. lia.
  - simpl. lia.
Qed.

(** The number of binary digits of a non-negative integer. *)
Lemma Zdigits2_spec (m : Z) :
  0 < m -> 2 ^ (Zdigits2 m - 1) <= m < 2 ^ Zdigits2 m.
Proof. destruct m as [|p|p]; try lia. intros _. apply digits2_pos_spec. Qed.

(** A number below [2 ^ d] has at most [d] digits. *)
Lemma Zdigits2_bound (m d : Z) :
  0 <= d -> 0 <= m < 2 ^ d -> Zdigits2 m <= d.
Proof.
  intros Hd Hm. destruct (Z.eq_dec m 0) as [->|Hne]; [simpl; lia|].
  pose proof (Zdigits2_spec m ltac:(lia)) as [Hlo _].
  destruct (Z_lt_le_dec d (Zdigits2 m)) as [Hlt|]; [|lia].
  assert (2 ^ d <= 2 ^ (Zdigits2 m - 1)) by (apply Z.pow_le_mono_r; lia).
  lia.
Qed.

(** A positive number has a digit. *)
Lemma Zdigits2_pos (m : Z) : 0 < m -> 0 < Zdigits2 m.
Proof. destruct m; simpl; lia. Qed.

(** [2 ^ k] has [k + 1] digits. *)
Lemma Zdigits2_pow2 (k : Z) : 0 <= k -> Zdigits2 (2 ^ k) = k + 1.
Proof.
  intros Hk. assert (0 < 2 ^ k) as Hpos by (apply Z.pow_pos_nonneg; lia).
  pose proof (Zdigits2_spec _ Hpos) as [Hlo Hhi].
  pose proof (Zdigits2_pos _ Hpos) as Hd.
  apply Z.pow_lt_mono_r_iff in Hhi; [|lia|lia].
  apply Z.pow_le_mono_r_iff in Hlo; [|lia|lia]. lia.
Qed.

Section Round.
Variables prec emax : Z.
Hypothesis Hprec : 0 < prec.

(** The exponent of the last digit grows with the magnitude. *)
Lemma fexp_mono (a c : Z) : a <= c -> fexp prec emax a <= fexp prec emax c.
Proof. unfold fexp. lia. Qed.

(** A mantissa that fits the format is not shifted. *)
Lemma shr_fexp_noshift (m e : Z) (l : location) :
  fexp prec emax (Zdigits2 m + e) <= e ->
  shr_fexp prec emax m e l = (shr_record_of_loc m l, e).
Proof.
  intros H. unfold shr_fexp, shr.
  destruct (fexp prec emax (Zdigits2 m + e) - e) eqn:Hn; try reflexivity. lia.
Qed.

(** A record that was not shifted stands for its mantissa. *)
Lemma represents_exact (m : Z) :
  represents (shr_record_of_loc m loc_Exact) (inject_Z m).
Proof. unfold represents. simpl. repeat split; lra. Qed.

(** A mantissa too long for the format is shifted down to the exponent
    [fexp] gives, and the record says where the magnitude lies. *)
Lemma shr_fexp_shift (m e : Z) :
  0 <= m -> e < fexp prec emax (Zdigits2 m + e) ->
  exists mrs,
    shr_fexp prec emax m e loc_Exact = (mrs, fexp prec emax (Zdigits2 m + e)) /\
    0 <= shr_m mrs /\
    represents mrs (inject_Z m * (1 # 2) ^ (fexp prec emax (Zdigits2 m + e) - e)).
Proof.
  intros Hm He. unfold shr_fexp, shr.
  destruct (fexp prec emax (Zdigits2 m + e) - e) as [|p|p] eqn:Hn; try lia.
  destruct (iter_shr_1_represents p (shr_record_of_loc m loc_Exact) (inject_Z m))
    as [H1 H2]; [simpl; lia|apply represents_exact|].
  eexists. split; [|split; [exact H1|exact H2]].
  f_equal. lia.
Qed.

(** A round-off that stays exact: no digit is shifted out. *)
Lemma binary_round_aux_exact (sx : bool) (mx ex : Z) :
  fexp prec emax (Zdigits2 mx + ex) <= ex ->
  binary_round_aux prec emax sx mx ex loc_Exact = finish prec emax sx mx ex.
Proof.
  intros H. unfold binary_round_aux.
  rewrite shr_fexp_noshift by done. simpl.
  rewrite shr_fexp_noshift by done. reflexivity.
Qed.

(** The second shift of [binary_round_aux] loses nothing. *)
Lemma second_shift (m2 e1 : Z) :
  0 <= m2 ->
  fexp prec emax (Zdigits2 m2 + e1) <= e1 \/
  (fexp prec emax (Zdigits2 m2 + e1) = e1 + 1 /\ Z.even m2 = true) ->
  exists mrs e3,
    shr_fexp prec emax m2 e1 loc_Exact = (mrs, e3) /\
    0 <= shr_m mrs /\
    (inject_Z (shr_m mrs) * 2 ^ e3 == inject_Z m2 * 2 ^ e1)%Q.
Proof.
  intros Hm [Hno|[Hone Hev]].
  - rewrite shr_fexp_noshift by done. eexists _, _. split; [reflexivity|].
    simpl. split; [done|reflexivity].
  - destruct (shr_fexp_shift m2 e1 Hm ltac:(lia)) as (mrs & -> & H0 & [[R1 R2] _]).
    eexists _, _. split; [reflexivity|]. split; [done|].
    rewrite Hone in *. replace (e1 + 1 - e1) with 1 in * by lia.
    change ((1 # 2) ^ 1)%Q with (1 # 2) in *.
    apply Zeven_bool_iff, Zeven_ex in Hev as [k ->].
    rewrite inject_Z_mult in *. change (inject_Z 2) with 2%Q in *.
    assert (shr_m mrs = k) as ->.
    { assert (inject_Z (shr_m mrs) <= inject_Z k)%Q as A by lra.
      assert (inject_Z k < inject_Z (shr_m mrs + 1))%Q as B
        by (rewrite inject_Z_plus; change (inject_Z 1) with 1%Q; lra).
      rewrite <- Zle_Qle in A. rewrite <- Zlt_Qlt in B. lia. }
    rewrite pow2_succ. ring.
Qed.
End Round.

(** The number of digits is not negative. *)
Lemma Zdigits2_nonneg (m : Z) : 0 <= Zdigits2 m.
Proof. destruct m; simpl; lia. Qed.

(** A number is below the power of two its number of digits gives. *)
Lemma Zdigits2_upper (m : Z) : 0 <= m -> m < 2 ^ Zdigits2 m.
Proof.
  intros Hm. destruct (Z.eq_dec m 0) as [->|]; [simpl; lia|].
  apply Zdigits2_spec. lia.
Qed.

(** A positive power of two is even. *)
Lemma even_pow2 (k : Z) : 0 < k -> Z.even (2 ^ k) = true.
Proof.
  intros Hk. replace k with (Z.succ (k - 1)) by lia.
  rewrite Z.pow_succ_r by lia. apply Z.even_mul.
Qed.

Section RoundInexact.
Variables prec emax : Z.
Hypothesis Hprec : 0 < prec.

(** How the mantissa left by the first shift sits against the format:
    either it fits, or it is the carry [2 ^ prec], which is even. *)
Lemma carry_cases (mx ex m' m2 : Z) :
  let e1 := fexp prec emax (Zdigits2 mx + ex) in
  0 <= mx -> ex < e1 -> 0 <= m' ->
  m' * 2 ^ (e1 - ex) <= mx ->
  m2 = m' \/ m2 = m' + 1 ->
  fexp prec emax (Zdigits2 m2 + e1) <= e1 \/
  (fexp prec emax (Zdigits2 m2 + e1) = e1 + 1 /\ Z.even m2 = true).
Proof.
  intros e1 Hmx He Hm' Hle Hm2.
  pose proof (Zdigits2_upper mx Hmx) as Hup.
  pose proof (Zdigits2_nonneg mx) as HD.
  set (D := Zdigits2 mx) in *. set (n := e1 - ex) in *.
  assert (0 < n) as Hn by (unfold n; lia).
  assert (0 < 2 ^ n) as Hpn by (apply Z.pow_pos_nonneg; lia).
  destruct (Z_le_gt_dec n D) as [HnD|HnD].
  - assert (2 ^ D = 2 ^ (D - n) * 2 ^ n) as HDn
      by (rewrite <- Z.pow_add_r by lia; f_equal; lia).
    assert (m' < 2 ^ (D - n)) as Hlt by nia.
    assert (0 <= m2 <= 2 ^ (D - n)) as Hm2b by lia.
    destruct (Z.eq_dec m2 (2 ^ (D - n))) as [Heq|Hne].
    + rewrite Heq, Zdigits2_pow2 by lia.
      replace (D - n + 1 + e1) with (D + ex + 1) by (unfold n; lia).
      unfold e1, fexp in *. fold D in He |- *. fold D.
      destruct (Z_le_gt_dec (emin prec emax) (D + ex - prec)).
      * right. split; [lia|]. apply even_pow2. unfold n, e1, fexp. fold D. lia.
      * left. lia.
    + left. assert (Zdigits2 m2 <= D - n) by (apply Zdigits2_bound; lia).
      etrans; [apply fexp_mono with (c := D + ex); unfold n in *; lia|].
      unfold e1. fold D. lia.
  - left. assert (2 ^ D < 2 ^ n) by (apply Z.pow_lt_mono_r; lia).
    assert (m' = 0) by nia.
    assert (Zdigits2 m2 <= 1).
    { destruct Hm2 as [-> | ->]; subst m'; simpl; lia. }
    assert (e1 = emin prec emax) as Hemin.
    { unfold n, e1, fexp in *. fold D in HnD, He |- *. lia. }
    etrans; [apply fexp_mono with (c := 1 + e1); lia|].
    rewrite Hemin. unfold fexp. lia.
Qed.

(** A round-off that shifts digits out: to nearest, ties to even. *)
Lemma binary_round_aux_inexact (sx : bool) (mx ex : Z) :
  let e1 := fexp prec emax (Zdigits2 mx + ex) in
  0 <= mx -> ex < e1 ->
  exists m2 m3 e3,
    binary_round_aux prec emax sx mx ex loc_Exact = finish prec emax sx m3 e3 /\
    0 <= m2 /\ 0 <= m3 /\
    (inject_Z m3 * 2 ^ e3 == inject_Z m2 * 2 ^ e1)%Q /\
    (inject_Z m2 * 2 ^ e1 - inject_Z mx * 2 ^ ex <= 2 ^ e1 * (1 # 2))%Q /\
    (inject_Z mx * 2 ^ ex - inject_Z m2 * 2 ^ e1 <= 2 ^ e1 * (1 # 2))%Q.
Proof.
  intros e1 Hmx He.
  destruct (shr_fexp_shift prec emax mx ex Hmx He) as (mrs & Heq & H0 & Hrep).
  fold e1 in Heq, Hrep.
  pose proof (round_nearest_even_represents _ _ Hrep) as [Hm2 [Hlo Hhi]].
  simpl in Hm2, Hlo, Hhi.
  set (m2 := round_nearest_even (shr_m mrs) (loc_of_shr_record mrs)) in *.
  set (n := e1 - ex) in *.
  assert (0 < n) as Hn by (unfold n; lia).
  pose proof (half_pow2 n) as Hhalf.
  pose proof (pow2_pos n) as Hpn. pose proof (pow2_pos ex) as Hpx.
  pose proof (pow2_pos e1) as Hp1.
  assert (2 ^ e1 == 2 ^ n * 2 ^ ex)%Q as He1
    by (rewrite <- pow2_plus; unfold n; replace (e1 - ex + ex) with e1 by lia;
        reflexivity).
  assert (shr_m mrs * 2 ^ n <= mx) as Hint.
  { destruct Hrep as [[R1 _] _].
    rewrite Zle_Qle, inject_Z_mult, pow2_inject by lia.
    set (a := inject_Z (shr_m mrs)) in *. set (c := inject_Z mx) in *.
    set (hp := ((1 # 2) ^ n)%Q) in *. set (p := (2 ^ n)%Q) in *.
    assert (a * p <= c * hp * p)%Q by (apply Qmult_le_compat_r; lra).
    assert (c * hp * p == c)%Q by (rewrite <- Qmult_assoc, Hhalf; ring).
    lra. }
  destruct (second_shift prec emax m2 e1 ltac:(lia)
              (carry_cases mx ex (shr_m mrs) m2 Hmx He H0 Hint Hm2))
    as (mrs3 & e3 & Heq3 & H3 & Hval).
  exists m2, (shr_m mrs3), e3.
  split.
  { unfold binary_round_aux. rewrite Heq. fold m2. rewrite Heq3. reflexivity. }
  split; [lia|]. split; [done|]. split; [done|].
  set (a := inject_Z m2) in *. set (c := inject_Z mx) in *.
  set (hp := ((1 # 2) ^ n)%Q) in *. set (p := (2 ^ n)%Q) in *.
  set (px := (2 ^ ex)%Q) in *. rewrite He1.
  assert (c * hp * (p * px) == c * px)%Q as Hc.
  { transitivity (c * (hp * p) * px)%Q; [ring|]. rewrite Hhalf. ring. }
  assert (0 < p * px)%Q as Hppx by (apply Qmult_lt_0_compat; done).
  assert ((a - (1 # 2)) * (p * px) <= c * hp * (p * px))%Q
    by (apply Qmult_le_compat_r; lra).
  assert (c * hp * (p * px) <= (a + (1 # 2)) * (p * px))%Q
    by (apply Qmult_le_compat_r; lra).
  split; lra.
Qed.
End RoundInexact.

(** [rounded] respects equality of rational numbers. *)
Lemma rounded_proper (prec emax : Z) (sx : bool) (V V' : Q) (e1 : Z)
    (x : spec_float) :
  (V == V')%Q -> rounded prec emax sx V e1 x -> rounded prec emax sx V' e1 x.
Proof.
  intros HV (m2 & m3 & e3 & H1 & H2 & H3 & H4 & H5 & H6).
  exists m2, m3, e3. rewrite <- HV. done.
Qed.

(** Shifting a mantissa to the left adds digits. *)
Lemma digits2_pos_iter_xO (m d : positive) :
  Zpos (digits2_pos (Pos.iter xO m d)) = Zpos (digits2_pos m) + Zpos d.
Proof.
  induction d as [|d IH] using Pos.peano_ind.
  - simpl. lia.
  - rewrite Pos.iter_succ. simpl. lia.
Qed.

(** Shifting a mantissa to the left multiplies by a power of two. *)
Lemma Zpos_iter_xO (m d : positive) :
  Zpos (Pos.iter xO m d) = Zpos m * 2 ^ Zpos d.
Proof.
  induction d as [|d IH] using Pos.peano_ind.
  - simpl. lia.
  - rewrite Pos.iter_succ, Pos2Z.inj_succ, Z.pow_succ_r by lia.
    change (Zpos (Pos.iter xO m d)~0) with (2 * Zpos (Pos.iter xO m d)). lia.
Qed.

Section RoundSpec.
Variables prec emax : Z.
Hypothesis Hprec : 0 < prec.

(** [binary_round_aux] on an exact location rounds the magnitude
    [mx * 2 ^ ex] at the exponent [fexp] gives, and is exact when no digit
    is shifted out. *)
Lemma binary_round_aux_rounded (sx : bool) (mx ex : Z) :
  0 <= mx ->
  rounded prec emax sx (inject_Z mx * 2 ^ ex)
          (fexp prec emax (Zdigits2 mx + ex))
          (binary_round_aux prec emax sx mx ex loc_Exact) /\
  (fexp prec emax (Zdigits2 mx + ex) <= ex ->
   binary_round_aux prec emax sx mx ex loc_Exact = finish prec emax sx mx ex).
Proof.
  intros Hmx. split; [|by apply binary_round_aux_exact].
  set (e1 := fexp prec emax (Zdigits2 mx + ex)).
  destruct (Z_lt_le_dec ex e1) as [Hlt|Hle].
  - destruct (binary_round_aux_inexact prec emax Hprec sx mx ex Hmx Hlt)
      as (m2 & m3 & e3 & H1 & H2 & H3 & H4 & H5 & H6).
    by exists m2, m3, e3.
  - rewrite binary_round_aux_exact by done.
    exists (mx * 2 ^ (ex - e1)), mx, ex.
    assert (inject_Z (mx * 2 ^ (ex - e1)) * 2 ^ e1 == inject_Z mx * 2 ^ ex)%Q as Hv.
    { rewrite inject_Z_mult, pow2_inject, <- Qmult_assoc, <- pow2_plus by lia.
      replace (ex - e1 + e1) with ex by lia. reflexivity. }
    split; [done|]. split; [apply Z.mul_nonneg_nonneg; [done|apply Z.pow_nonneg; lia]|].
    split; [done|]. split; [by rewrite Hv|].
    pose proof (pow2_pos e1). rewrite Hv. split; lra.
Qed.

(** The same of [binary_round], which first aligns the mantissa. *)
Lemma binary_round_rounded (sx : bool) (m : positive) (e : Z) :
  rounded prec emax sx (inject_Z (Zpos m) * 2 ^ e)
          (fexp prec emax (Zpos (digits2_pos m) + e))
          (binary_round prec emax sx m e) /\
  (fexp prec emax (Zpos (digits2_pos m) + e) <= e ->
   exists m3 e3, binary_round prec emax sx m e = finish prec emax sx m3 e3 /\
                 0 <= m3 /\
                 (inject_Z m3 * 2 ^ e3 == inject_Z (Zpos m) * 2 ^ e)%Q).
Proof.
  set (e1 := fexp prec emax (Zpos (digits2_pos m) + e)).
  unfold binary_round, shl_align. fold e1.
  destruct (e1 - e) as [|d|d] eqn:Hd.
  - destruct (binary_round_aux_rounded sx (Zpos m) e ltac:(lia)) as [HA HB].
    simpl Zdigits2 in HA, HB. fold e1 in HA, HB. split; [exact HA|].
    intros _. rewrite HB by lia. eexists _, _. split; [reflexivity|].
    split; [lia|reflexivity].
  - destruct (binary_round_aux_rounded sx (Zpos m) e ltac:(lia)) as [HA HB].
    simpl Zdigits2 in HA, HB. fold e1 in HA, HB. split; [exact HA|]. lia.
  - assert (fexp prec emax (Zdigits2 (Zpos (Pos.iter xO m d)) + e1) = e1) as Hcan.
    { simpl Zdigits2. rewrite digits2_pos_iter_xO.
      replace (Zpos (digits2_pos m) + Zpos d + e1)
        with (Zpos (digits2_pos m) + e) by lia. reflexivity. }
    rewrite binary_round_aux_exact by lia.
    assert (inject_Z (Zpos (Pos.iter xO m d)) * 2 ^ e1
            == inject_Z (Zpos m) * 2 ^ e)%Q as Hv.
    { rewrite Zpos_iter_xO, inject_Z_mult, pow2_inject, <- Qmult_assoc,
        <- pow2_plus by lia.
      replace (Zpos d + e1) with e by lia. reflexivity. }
    split.
    + exists (Zpos (Pos.iter xO m d)), (Zpos (Pos.iter xO m d)), e1.
      split; [done|]. split; [lia|]. split; [lia|]. split; [reflexivity|].
      pose proof (pow2_pos e1). rewrite Hv. split; lra.
    + intros _. eexists _, _. split; [reflexivity|]. split; [lia|exact Hv].
Qed.

(** The exponent at which the digits of a magnitude below [2 ^ k] end. *)
Lemma digits_le (mx ex k : Z) :
  0 < mx -> (inject_Z mx * 2 ^ ex < 2 ^ k)%Q -> Zdigits2 mx + ex <= k.
Proof.
  intros Hmx HV.
  pose proof (Zdigits2_spec mx Hmx) as [Hlo _].
  pose proof (Zdigits2_pos mx Hmx) as Hd.
  rewrite Zle_Qle, pow2_inject in Hlo by lia.
  assert (2 ^ (Zdigits2 mx - 1) * 2 ^ ex <= inject_Z mx * 2 ^ ex)%Q
    by (apply Qmult_le_compat_r; [done|apply Qlt_le_weak, pow2_pos]).
  rewrite <- pow2_plus in *.
  assert (2 ^ (Zdigits2 mx - 1 + ex) < 2 ^ k)%Q as Hlt by lra.
  apply pow2_lt_inv in Hlt. lia.
Qed.

(** The exponent at which the digits of a magnitude from [2 ^ k] on begin. *)
Lemma digits_ge (mx ex k : Z) :
  0 < mx -> (2 ^ k <= inject_Z mx * 2 ^ ex)%Q -> k < Zdigits2 mx + ex.
Proof.
  intros Hmx HV.
  pose proof (Zdigits2_spec mx Hmx) as [_ Hhi].
  pose proof (Zdigits2_pos mx Hmx) as Hd.
  rewrite Zlt_Qlt, pow2_inject in Hhi by lia.
  assert (inject_Z mx * 2 ^ ex < 2 ^ Zdigits2 mx * 2 ^ ex)%Q
    by (apply Qmult_lt_compat_r; [apply pow2_pos|done]).
  rewrite <- pow2_plus in *.
  assert (2 ^ k < 2 ^ (Zdigits2 mx + ex))%Q as Hlt by lra.
  by apply pow2_lt_inv in Hlt.
Qed.

(** The datum a round-off ends in, when it does not overflow. *)
Lemma finish_value (m3 e3 k : Z) :
  0 <= m3 -> (inject_Z m3 * 2 ^ e3 < 2 ^ k)%Q -> k <= emax - prec + 1 ->
  nonneg (finish prec emax false m3 e3) = true /\
  (value (finish prec emax false m3 e3) == inject_Z m3 * 2 ^ e3)%Q.
Proof.
  intros Hm HV Hk. destruct m3 as [|p|p]; [| |lia].
  - simpl. split; [done|]. ring.
  - assert (e3 < k).
    { apply pow2_lt_inv. eapply Qle_lt_trans; [|exact HV].
      assert (1 <= inject_Z (Zpos p))%Q
        by (change 1%Q with (inject_Z 1); rewrite <- Zle_Qle; lia).
      pose proof (pow2_pos e3). nra. }
    unfold finish. destruct (Z.leb_spec e3 (emax - prec)); [|lia].
    simpl. split; [done|reflexivity].
Qed.

(** A round-off of a magnitude below [2 ^ k]: the result is a number, a
    multiple of [2 ^ e1], at most half of [2 ^ e1] away. *)
Lemma rounded_value (V : Q) (e1 k : Z) (x : spec_float) :
  rounded prec emax false V e1 x ->
  (V < 2 ^ k)%Q -> e1 < k -> k <= emax - prec ->
  nonneg x = true /\
  exists m2 : Z,
    0 <= m2 /\
    (value x == inject_Z m2 * 2 ^ e1)%Q /\
    (inject_Z m2 * 2 ^ e1 - V <= 2 ^ e1 * (1 # 2))%Q /\
    (V - inject_Z m2 * 2 ^ e1 <= 2 ^ e1 * (1 # 2))%Q.
Proof.
  intros (m2 & m3 & e3 & -> & H2 & H3 & H4 & H5 & H6) HV He Hk.
  assert (inject_Z m3 * 2 ^ e3 < 2 ^ (k + 1))%Q as Hlt.
  { rewrite H4, pow2_succ.
    assert (2 ^ e1 <= 2 ^ k)%Q by (apply pow2_le; lia).
    pose proof (pow2_pos e1). lra. }
  destruct (finish_value m3 e3 (k + 1) H3 Hlt ltac:(lia)) as [Hn Hv].
  split; [done|]. exists m2. rewrite Hv, H4. done.
Qed.
End RoundSpec.

(** Aligning a mantissa to a lower exponent keeps the magnitude. *)
Lemma shl_align_fst (mx : positive) (ex ez : Z) :
  ez <= ex ->
  (inject_Z (Zpos (fst (shl_align mx ex ez))) * 2 ^ ez == inject_Z (Zpos mx) * 2 ^ ex)%Q.
Proof.
  intros Hle. unfold shl_align.
  destruct (ez - ex) as [|d|d] eqn:Hd; simpl fst.
  - replace ez with ex by lia. reflexivity.
  - lia.
  - rewrite Zpos_iter_xO, inject_Z_mult, pow2_inject, <- Qmult_assoc, <- pow2_plus by lia.
    replace (Zpos d + ez) with ex by lia. reflexivity.
Qed.

(** A datum that is not negative stands for a number that is not negative. *)
Lemma value_nonneg (x : spec_float) : nonneg x = true -> (0 <= value x)%Q.
Proof.
  destruct x as [s|s| |s m e]; simpl; try done; try lra.
  destruct s; [done|]. intros _. simpl.
  pose proof (pow2_pos e).
  assert (0 < inject_Z (Zpos m))%Q by (change 0%Q with (inject_Z 0); rewrite <- Zlt_Qlt; lia).
  nra.
Qed.

Section Ops.
Variables prec emax : Z.
Hypothesis Hprec : 0 < prec.

(** The round-off of a positive magnitude below [2 ^ k], in the normal
    range: at most half a unit in the last place of [2 ^ k] away. *)
Lemma rounded_close (V : Q) (mx ex k : Z) (x : spec_float) :
  0 < mx -> (V == inject_Z mx * 2 ^ ex)%Q ->
  rounded prec emax false V (fexp prec emax (Zdigits2 mx + ex)) x ->
  (V < 2 ^ k)%Q -> k <= emax - prec -> emin prec emax <= k - prec ->
  close V (2 ^ (k - prec) * (1 # 2)) x.
Proof.
  intros Hmx HVeq Hr HV Hk Hemin. rewrite HVeq in HV.
  pose proof (digits_le mx ex k Hmx HV) as Hd.
  set (e1 := fexp prec emax (Zdigits2 mx + ex)) in *.
  assert (e1 <= k - prec) as He1 by (unfold e1, fexp; lia).
  rewrite <- HVeq in HV.
  destruct (rounded_value prec emax V e1 k x Hr HV ltac:(lia) Hk)
    as (Hn & m2 & _ & Hv & Hlo & Hhi).
  assert (2 ^ e1 <= 2 ^ (k - prec))%Q by (by apply pow2_le).
  split; [done|]. rewrite Hv. split; lra.
Qed.

(** The same round-off, relative to the magnitude: at most the fraction
    [2 ^ -prec] of it away, or half the least subnormal step. *)
Lemma rounded_mixed (V : Q) (mx ex hi : Z) (x : spec_float) :
  2 <= emax ->
  0 < mx -> (V == inject_Z mx * 2 ^ ex)%Q ->
  rounded prec emax false V (fexp prec emax (Zdigits2 mx + ex)) x ->
  (V < 2 ^ hi)%Q -> hi <= emax - prec ->
  close V (V * 2 ^ (- prec) + 2 ^ (emin prec emax - 1)) x.
Proof.
  intros Hemax Hmx HVeq Hr HV Hhi.
  pose proof (Zdigits2_spec mx Hmx) as [Hlo Hup].
  pose proof (Zdigits2_pos mx Hmx) as Hd.
  set (k := Zdigits2 mx + ex) in *.
  assert (2 ^ (k - 1) <= V /\ V < 2 ^ k)%Q as [HVlo HVup].
  { rewrite HVeq. rewrite Zle_Qle, pow2_inject in Hlo by lia.
    rewrite Zlt_Qlt, pow2_inject in Hup by lia.
    pose proof (pow2_pos ex) as Hpx.
    replace (k - 1) with (Zdigits2 mx - 1 + ex) by (unfold k; lia).
    unfold k. rewrite !pow2_plus. split.
    - apply Qmult_le_compat_r; [done|lra].
    - apply Qmult_lt_compat_r; done. }
  assert (k <= hi) as Hkhi.
  { assert (2 ^ (k - 1) < 2 ^ hi)%Q as Hlt by lra.
    apply pow2_lt_inv in Hlt. lia. }
  set (e1 := fexp prec emax k) in *.
  set (k' := Z.max k (e1 + 1)).
  assert (V < 2 ^ k')%Q as HVk'.
  { eapply Qlt_le_trans; [exact HVup|]. apply pow2_le. unfold k'. lia. }
  destruct (rounded_value prec emax V e1 k' x Hr HVk')
    as (Hn & m2 & _ & Hv & H1 & H2).
  { unfold k'. lia. }
  { unfold k', e1, fexp, emin. lia. }
  split; [done|]. rewrite Hv.
  pose proof (pow2_pos (k - 1)) as Hpk. pose proof (pow2_pos (- prec)) as Hpp.
  pose proof (pow2_pos (emin prec emax - 1)) as Hpe.
  assert (2 ^ e1 * (1 # 2) <= V * 2 ^ (- prec) + 2 ^ (emin prec emax - 1))%Q as Hb.
  { destruct (Z_le_gt_dec (emin prec emax) (k - prec)) as [Hn'|Hs].
    - assert (e1 = k - 1 + - prec + 1) as -> by (unfold e1, fexp; lia).
      rewrite pow2_succ, pow2_plus.
      assert (2 ^ (k - 1) * 2 ^ (- prec) <= V * 2 ^ (- prec))%Q
        by (apply Qmult_le_compat_r; lra).
      lra.
    - assert (e1 = emin prec emax - 1 + 1) as -> by (unfold e1, fexp; lia).
      rewrite pow2_succ.
      assert (0 <= V * 2 ^ (- prec))%Q by (apply Qmult_le_0_compat; lra).
      lra. }
  split; lra.
Qed.

(** The product of two numbers that are not negative: the exact product,
    up to one round-off. *)
Lemma SFmul_mixed (a c : spec_float) (hi : Z) :
  2 <= emax ->
  nonneg a = true -> nonneg c = true ->
  (value a * value c < 2 ^ hi)%Q -> hi <= emax - prec ->
  close (value a * value c)
        (value a * value c * 2 ^ (- prec) + 2 ^ (emin prec emax - 1))
        (SFmul prec emax a c).
Proof.
  intros Hemax Ha Hc HV Hhi.
  pose proof (pow2_pos (emin prec emax - 1)) as Hp.
  destruct a as [sa|sa| |sa ma ea]; try done;
    destruct c as [sc|sc| |sc mc ec]; try done;
    try (destruct sa; try done); try (destruct sc; try done);
    try (split; [done|]; simpl; split; lra).
  simpl SFmul. simpl xorb.
  apply (rounded_mixed _ (Zpos (ma * mc)) (ea + ec) hi); try done.
  - simpl. rewrite Pos2Z.inj_mul, inject_Z_mult, pow2_plus. ring.
  - eapply rounded_proper; [|apply binary_round_aux_rounded; [done|lia]].
    simpl. rewrite Pos2Z.inj_mul, inject_Z_mult, pow2_plus. ring.
Qed.

(** The sum of two numbers that are not negative: the exact sum, up to
    one round-off. *)
Lemma SFadd_mixed (a c : spec_float) (hi : Z) :
  2 <= emax ->
  nonneg a = true -> nonneg c = true ->
  (value a + value c < 2 ^ hi)%Q -> hi <= emax - prec ->
  close (value a + value c)
        ((value a + value c) * 2 ^ (- prec) + 2 ^ (emin prec emax - 1))
        (SFadd prec emax a c).
Proof.
  intros Hemax Ha Hc HV Hhi.
  pose proof (pow2_pos (emin prec emax - 1)) as Hp.
  pose proof (pow2_pos (- prec)) as Hpp.
  pose proof (value_nonneg a Ha) as Hva. pose proof (value_nonneg c Hc) as Hvc.
  assert (0 <= (value a + value c) * 2 ^ (- prec))%Q as Hnn
    by (apply Qmult_le_0_compat; lra).
  destruct a as [sa|sa| |sa ma ea]; try done;
    destruct c as [sc|sc| |sc mc ec]; try done.
  - split; [by destruct sa, sc|]. destruct sa, sc; simpl; split; lra.
  - destruct sc; [done|]. split; [done|]. simpl SFadd.
    change (value (S754_zero sa)) with 0%Q in *. split; lra.
  - destruct sa; [done|]. split; [done|]. simpl SFadd.
    change (value (S754_zero sc)) with 0%Q in *. split; lra.
  - destruct sa; [done|]. destruct sc; [done|].
    unfold SFadd. set (ez := Z.min ea ec).
    pose proof (shl_align_fst ma ea ez ltac:(lia)) as Hma.
    pose proof (shl_align_fst mc ec ez ltac:(lia)) as Hmc.
    set (ma' := fst (shl_align ma ea ez)) in *.
    set (mc' := fst (shl_align mc ec ez)) in *.
    simpl cond_Zopp. simpl binary_normalize.
    assert (value (S754_finite false ma ea) + value (S754_finite false mc ec)
            == inject_Z (Zpos (ma' + mc')) * 2 ^ ez)%Q as HVeq.
    { simpl. rewrite Pos2Z.inj_add, inject_Z_plus. lra. }
    apply (rounded_mixed _ (Zpos (ma' + mc')) ez hi); try done.
    eapply rounded_proper; [symmetry; exact HVeq|].
    apply binary_round_rounded. done.
Qed.
End Ops.

Import gca samples.

(** ** [type.hpp]: the property byte and the printed record *)

Lemma point_property_of_value_value (p : point_property) :
  point_property_of_value (point_property_value p) = Some p.
Proof. by destruct p. Qed.

(** Appending strings is associative. *)
Lemma string_append_assoc (s1 s2 s3 : string) :
  (s1 +:+ s2) +:+ s3 = s1 +:+ (s2 +:+ s3).
Proof.
  induction s1 as [|a s1 IH]; [reflexivity|].
  change (String a ((s1 +:+ s2) +:+ s3) = String a (s1 +:+ (s2 +:+ s3))).
  by rewrite IH.
Qed.

(** Whatever is not active prints as inactive. *)
Lemma show_property_not_active (p : point_property) :
  p <> active -> show_property p = "Inactive".
Proof. by destruct p. Qed.

(** C10: the enumerators have the bytes 0, 1 and 2, each its own; the record of
    a point whose property is an enumerator holds that byte, one of the
    three, and the byte reads back to the enumerator. Of the bytes a
    record can hold, the three are those that read back to an enumerator;
    a record with any byte but 1 prints as inactive. *)
Theorem property_encoding_of_enumerators :
  (point_property_value invalid = 0 /\ point_property_value active = 1 /\
   point_property_value inactive = 2) /\
  (forall p q : point_property,
      point_property_value p = point_property_value q -> p = q) /\
  (forall p : point_t,
      stored.well_formed (stored.record_of p) /\
      (stored.property (stored.record_of p) = 0 \/
       stored.property (stored.record_of p) = 1 \/
       stored.property (stored.record_of p) = 2) /\
      point_property_of_value (stored.property (stored.record_of p))
      = Some (property p) /\
      stored.show_property (stored.record_of p) = show_property (property p)) /\
  (forall rec : stored.point_record,
      is_Some (point_property_of_value (stored.property rec)) <->
      stored.property rec = 0 \/ stored.property rec = 1 \/ stored.property rec = 2) /\
  (forall rec : stored.point_record,
      stored.property rec <> 1 -> stored.show_property rec = "Inactive").
Proof.
  split; [done|].
  split; [by intros [] []|].
  split.
  { intros p. unfold stored.well_formed, stored.byte, stored.record_of,
      stored.show_property. simpl.
    destruct (property p); simpl; repeat split; auto; lia. }
  split.
  { intros rec. unfold point_property_of_value.
    destruct (Z.eqb_spec (stored.property rec) 0) as [->|H0];
      [split; [auto|by eexists]|].
    destruct (Z.eqb_spec (stored.property rec) 1) as [->|H1];
      [split; [auto|by eexists]|].
    destruct (Z.eqb_spec (stored.property rec) 2) as [->|H2];
      [split; [auto|by eexists]|].
    split; [by intros [? ?]|]. lia. }
  intros rec H. unfold stored.show_property. simpl.
  by destruct (Z.eqb_spec (stored.property rec) 1).
Qed.

(** A record is well-formed with the property byte 3, which is none of
    the three and reads back to no enumerator. *)
Lemma record_with_byte_3 :
  stored.well_formed stored.unnamed /\
  ~ (stored.property stored.unnamed = 0 \/ stored.property stored.unnamed = 1 \/
     stored.property stored.unnamed = 2) /\
  point_property_of_value (stored.property stored.unnamed) = None /\
  stored.show_property stored.unnamed = "Inactive".
Proof.
  split; [by vm_compute|]. split; [|done].
  simpl. lia.
Qed.



(** ** [type.hpp]: the quotient of a colour by a count *)

(** C9: [c / n] multiplies each channel by the single-precision reciprocal
    [1.0f / (float)n]; it is not the channel-wise division, whose rounding
    differs: for (0.625, 0, 0) and [n = 3] the red channels are
    13981014 * 2^-26 (reciprocal, then product) and 13981013 * 2^-26
    (division). *)
Theorem color3_div_is_reciprocal_multiply :
  (forall (c : color3) (n : Z),
      color3_div c n
      = Build_color3 (f32.mul (r c) (f32.div f32.one (f32.of_Z n)))
                     (f32.mul (g c) (f32.div f32.one (f32.of_Z n)))
                     (f32.mul (b c) (f32.div f32.one (f32.of_Z n)))) /\
  r (color3_div five_eighths_red 3) = S754_finite false 13981014 (-26) /\
  r (color3_div_direct five_eighths_red 3) = S754_finite false 13981013 (-26) /\
  color3_div five_eighths_red 3 <> color3_div_direct five_eighths_red 3.
Proof.
  split; [reflexivity|].
  split; [by vm_compute|].
  split; [by vm_compute|].
  intros H. apply (f_equal r) in H. vm_compute in H. discriminate H.
Qed.

Import apps.

Import cloud.

(** ** The spatial index *)




Section Fill.
Variables (o : float3) (h : spec_float).



End Fill.











(** A built index has the cell size it was built with, and the lower
    corner of the bounding box for its origin. *)
Lemma build_cell_size (pts : list point_t) (h : spec_float) (idx : Index) :
  build pts h = Ok idx -> cell_size idx = h /\ origin idx = bbox_min pts.
Proof.
  unfold build. destruct (SFltb f32.zero h); [|done]. by intros [= <-].
Qed.




(** The same query, evaluated: the second point, at the squared distance
    1; the third, at 1/4. *)
Example radius_search_three_points :
  radius_search cloud_samples.three_points_index
    (make_float3 cloud_samples.two f32.zero f32.zero) f32.one
  = Ok [(1%nat, f32.one); (2%nat, S754_finite false 8388608 (-25))] /\
  build cloud_samples.three_points f32.one = Ok cloud_samples.three_points_index.
Proof. split; by vm_compute. Qed.


(** Comparing two [float]s the other way round gives the opposite. *)
Lemma SFcompare_antisym (x y : spec_float) :
  SFcompare x y = CompOpp <$> SFcompare y x.
Proof.
  destruct x as [sx|sx| |sx mx ex], y as [sy|sy| |sy my ey]; simpl;
    try done; try (by destruct sx); try (by destruct sy);
    try (by destruct sx, sy).
  change (Pos.compare_cont Eq mx my) with (Pos.compare mx my).
  change (Pos.compare_cont Eq my mx) with (Pos.compare my mx).
  rewrite (Z.compare_antisym ey ex), (Pos.compare_antisym my mx).
  destruct sx, sy; try done; destruct (ey ?= ex); simpl; try done;
    by rewrite CompOpp_involutive.
Qed.

(** C6: on an index built with cell size [h], a radius query with [r > h]
    fails with [InvalidArgument]; the error carries no entries, partial or
    not. *)
Theorem radius_search_rejects_large_radius (pts : list point_t) (h : spec_float)
    (idx : Index) (q : float3) (r : spec_float) :
  build pts h = Ok idx -> SFltb h r = true ->
  radius_search idx q r = Err InvalidArgument /\
  forall found, radius_search idx q r <> Ok found.
Proof.
  intros Hb Hr. apply build_cell_size in Hb as [Hb _]. unfold radius_search.
  destruct (SFleb f32.zero r); cbn [negb]; [|done].
  destruct (SFleb r (cell_size idx)) eqn:Hle; cbn [negb]; [|done].
  rewrite Hb in Hle. exfalso. revert Hr Hle. unfold SFltb, SFleb.
  rewrite (SFcompare_antisym h r). by destruct (SFcompare r h) as [[]|].
Qed.

Lemma radius_search_rejects_large_radius_witness :
  build cloud_samples.three_points f32.one = Ok cloud_samples.three_points_index /\
  radius_search cloud_samples.three_points_index
    (make_float3 cloud_samples.two f32.zero f32.zero) cloud_samples.two
  = Err InvalidArgument /\
  forall found,
    radius_search cloud_samples.three_points_index
      (make_float3 cloud_samples.two f32.zero f32.zero) cloud_samples.two
    <> Ok found.
Proof.
  split; [by vm_compute|].
  apply (radius_search_rejects_large_radius cloud_samples.three_points f32.one
           cloud_samples.three_points_index).
  - by vm_compute.
  - reflexivity.
Defined.

(** ** Radius outlier removal *)


















(** On [three_points], radius 1 and one neighbor keep the first two
    points; a negative radius is rejected. *)
Example radius_outlier_removal_three_points :
  radius_outlier_removal [cloud_samples.three_points] 0 f32.one 1
  = Some (Ok ([cloud_samples.three_points; take 2 cloud_samples.three_points],
              1%nat)) /\
  inliers cloud_samples.three_points f32.one 1
  = take 2 cloud_samples.three_points /\
  radius_outlier_removal [cloud_samples.three_points] 0 (SFopp f32.one) 1
  = Some (Err InvalidArgument).
Proof. repeat split; by vm_compute. Qed.


(** ** [type.hpp]: the intensity of a colour *)

Lemma bounded_digits (m : positive) (e : Z) :
  bounded f32.prec f32.emax m e = true ->
  Zpos (digits2_pos m) <= 24 /\ -149 <= e <= 104.
Proof.
  unfold bounded, canonical_mantissa, fexp, emin, f32.prec, f32.emax.
  intros [H1 H2]%andb_prop. apply Z.eqb_eq in H1. apply Z.leb_le in H2. lia.
Qed.

(** A finite [float] that stands for a number from 0 on is not negative. *)
Lemma finite_nonneg (x : spec_float) :
  f32.finite x = true -> (0 <= value x)%Q -> nonneg x = true.
Proof.
  destruct x as [s|s| |s m e]; try done.
  destruct s; [|done]. intros _ H. exfalso.
  unfold value, cond_Zopp in H.
  pose proof (pow2_pos e) as Hp.
  assert (inject_Z (- Zpos m) < 0)%Q as Hm
    by (change 0%Q with (inject_Z 0); rewrite <- Zlt_Qlt; lia).
  generalize dependent (inject_Z (- Zpos m)).
  generalize dependent (2 ^ e)%Q. intros. nra.
Qed.

(** [static_cast<double>] of a [float] is exact. *)
Lemma of_f32_exact (x : spec_float) :
  f32.finite x = true -> nonneg x = true ->
  nonneg (f64.of_f32 x) = true /\ (value (f64.of_f32 x) == value x)%Q.
Proof.
  destruct x as [s|s| |s m e]; try done.
  - unfold f32.finite. intros Hb Hn. destruct s; [done|].
    apply bounded_digits in Hb as [Hd He].
    unfold f64.of_f32. simpl cond_Zopp. simpl binary_normalize.
    destruct (binary_round_rounded f64.prec f64.emax ltac:(done) false m e)
      as [_ Hex].
    destruct Hex as (m3 & e3 & -> & H3 & Hv).
    { unfold fexp, emin, f64.prec, f64.emax. lia. }
    assert (inject_Z m3 * 2 ^ e3 < 2 ^ 128)%Q as Hlt.
    { rewrite Hv. pose proof (digits2_pos_spec m) as [_ Hhi].
      rewrite Zlt_Qlt, pow2_inject in Hhi by lia.
      assert (inject_Z (Zpos m) * 2 ^ e < 2 ^ Zpos (digits2_pos m) * 2 ^ e)%Q
        by (apply Qmult_lt_compat_r; [apply pow2_pos|done]).
      rewrite <- pow2_plus in *.
      assert (2 ^ (Zpos (digits2_pos m) + e) <= 2 ^ 128)%Q
        by (apply pow2_le; lia). lra. }
    destruct (finish_value f64.prec f64.emax m3 e3 128 H3 Hlt ltac:(done))
      as [Hn' Hv'].
    split; [done|]. rewrite Hv', Hv. reflexivity.
Qed.

(** The conversion of a [double] below [2 ^ k] to [float]. *)
Lemma to_f32_close (d : spec_float) (k : Z) :
  nonneg d = true -> (value d < 2 ^ k)%Q -> k <= 104 -> -125 <= k ->
  close (value d) (2 ^ (k - 24) * (1 # 2)) (f64.to_f32 d).
Proof.
  intros Hn HV Hk Hk'. pose proof (pow2_pos (k - 24)).
  destruct d as [s|s| |s m e]; try done.
  - split; [done|]. simpl. split; lra.
  - destruct s; [done|]. unfold f64.to_f32. simpl cond_Zopp. simpl binary_normalize.
    apply (rounded_close f32.prec f32.emax ltac:(done) _ (Zpos m) e k).
    + done.
    + reflexivity.
    + apply binary_round_rounded. done.
    + exact HV.
    + unfold f32.prec, f32.emax. lia.
    + unfold emin, f32.prec, f32.emax. lia.
Qed.

(** A [double] at or barely above 1 converts to [1.0f]. *)
Lemma to_f32_one (d : spec_float) :
  nonneg d = true -> (1 <= value d)%Q -> (value d <= 1 + (1 # 67108864))%Q ->
  nonneg (f64.to_f32 d) = true /\ (value (f64.to_f32 d) == 1)%Q.
Proof.
  intros Hn Hlo Hhi. destruct d as [s|s| |s m e]; try done.
  destruct s; [done|]. unfold f64.to_f32. simpl cond_Zopp. simpl binary_normalize.
  unfold value, cond_Zopp in Hlo, Hhi.
  assert (Zdigits2 (Zpos m) + e = 1) as HD.
  { pose proof (digits_le (Zpos m) e 1 ltac:(lia)) as H1.
    pose proof (digits_ge (Zpos m) e 0 ltac:(lia)) as H2.
    change (2 ^ 1)%Q with 2%Q in H1. change (2 ^ 0)%Q with 1%Q in H2.
    assert (Zdigits2 (Zpos m) + e <= 1) by (apply H1; lra).
    assert (0 < Zdigits2 (Zpos m) + e) by (apply H2; lra). lia. }
  destruct (binary_round_rounded f32.prec f32.emax ltac:(done) false m e)
    as [Hr _].
  simpl Zdigits2 in HD. rewrite HD in Hr.
  change (fexp f32.prec f32.emax 1) with (-23) in Hr.
  destruct (rounded_value f32.prec f32.emax _ (-23) 1 _ Hr)
    as (Hn' & m2 & Hm2 & Hv & H1 & H2); [change (2 ^ 1)%Q with 2%Q; lra|done|done|].
  split; [done|]. rewrite Hv.
  assert (2 ^ (-23) == 1 # 8388608)%Q as Hp by reflexivity.
  rewrite Hp in *.
  assert (m2 = 8388608) as ->; [|reflexivity].
  assert (inject_Z 8388607 < inject_Z m2)%Q as A.
  { change (inject_Z 8388607) with (8388607 # 1)%Q. lra. }
  assert (inject_Z m2 < inject_Z 8388609)%Q as B.
  { change (inject_Z 8388609) with (8388609 # 1)%Q. lra. }
  rewrite <- Zlt_Qlt in A, B. lia.
Qed.

(** The values of the three literals. *)
Lemma value_lit_0_2126 :
  (value lit_0_2126 == 7659722246231740 # 36028797018963968)%Q.
Proof. reflexivity. Qed.

Lemma value_lit_0_7152 :
  (value lit_0_7152 == 6441948906990757 # 9007199254740992)%Q.
Proof. reflexivity. Qed.

Lemma value_lit_0_0722 :
  (value lit_0_0722 == 5202558289538397 # 72057594037927936)%Q.
Proof. reflexivity. Qed.

(** The literals are the doubles a compiler reads them as: the correctly
    rounded quotients of their decimal digits. *)
Example literals_nearest :
  lit_0_2126 = f64.div (f64.of_Z 2126) (f64.of_Z 10000) /\
  lit_0_7152 = f64.div (f64.of_Z 7152) (f64.of_Z 10000) /\
  lit_0_0722 = f64.div (f64.of_Z 722) (f64.of_Z 10000) /\
  lit_3_0 = f64.of_Z 3 /\
  f32.one = f32.of_Z 1.
Proof. repeat split; by vm_compute. Qed.

(** The conversion of a [double] to [float], relative to its magnitude. *)
Lemma to_f32_mixed (d : spec_float) :
  nonneg d = true -> (value d < 2 ^ 104)%Q ->
  close (value d) (value d * (1 # 16777216) + (1 # 1427247692705959881058285969449495136382746624)) (f64.to_f32 d).
Proof.
  intros Hn HV.
  destruct d as [s|s| |s m e]; try done.
  - destruct s; [done|]. unfold f64.to_f32. simpl cond_Zopp. simpl binary_normalize.
    pose proof (proj1 (binary_round_rounded f32.prec f32.emax ltac:(done)
                         false m e)) as Hr.
    destruct (rounded_mixed f32.prec f32.emax ltac:(done)
                (value (S754_finite false m e)) (Zpos m) e 104
                (binary_round f32.prec f32.emax false m e)
                ltac:(done) ltac:(done) ltac:(reflexivity) Hr HV ltac:(done))
      as (N & U & L).
    assert (2 ^ (- f32.prec) == 1 # 16777216)%Q as E1 by reflexivity.
    assert (2 ^ (emin f32.prec f32.emax - 1)
            == 1 # 1427247692705959881058285969449495136382746624)%Q as E2
      by reflexivity.
    rewrite E1, E2 in U, L. by split.
Qed.

(** The weighted sum as [to_intensity] evaluates it in [double]: the sum
    with the literals' values, up to three round-offs. *)
Lemma intensity_double (vr vg vb : Q) (R G B : spec_float) :
  nonneg R = true -> nonneg G = true -> nonneg B = true ->
  (value R == vr)%Q -> (value G == vg)%Q -> (value B == vb)%Q ->
  (0 <= vr <= 1)%Q -> (0 <= vg <= 1)%Q -> (0 <= vb <= 1)%Q ->
  let S := (value lit_0_2126 * vr + value lit_0_7152 * vg
            + value lit_0_0722 * vb)%Q in
  close S (S * (4 # 9007199254740992) + (8 # 404804506614621236704990693437834614099113299528284236713802716054860679135990693783920767402874248990374155728633623822779617474771586953734026799881477019843034848553132722728933815484186432682479535356945490137124014966849385397236206711298319112681620113024717539104666829230461005064372655017292012526615415482186989568))
        (f64.add (f64.add (f64.mul lit_0_2126 R) (f64.mul lit_0_7152 G))
                 (f64.mul lit_0_0722 B)).
Proof.
  intros HR HG HB ER EG EB [Hr0 Hr1] [Hg0 Hg1] [Hb0 Hb1] S. unfold S.
  pose proof value_lit_0_2126 as La. pose proof value_lit_0_7152 as Lb.
  pose proof value_lit_0_0722 as Lc.
  assert (2 ^ (- f64.prec) == 1 # 9007199254740992)%Q as Eu by reflexivity.
  assert (2 ^ (emin f64.prec f64.emax - 1) == 1 # 404804506614621236704990693437834614099113299528284236713802716054860679135990693783920767402874248990374155728633623822779617474771586953734026799881477019843034848553132722728933815484186432682479535356945490137124014966849385397236206711298319112681620113024717539104666829230461005064372655017292012526615415482186989568)%Q as Ee
    by reflexivity.
  assert (2 ^ 0 == 1)%Q as P0 by reflexivity.
  assert (2 ^ 1 == 2)%Q as P1 by reflexivity.
  destruct (SFmul_mixed f64.prec f64.emax ltac:(done) lit_0_2126 R 0)
    as (N1 & U1 & L1); [done|done|done|rewrite ER, La, P0; lra|done|].
  destruct (SFmul_mixed f64.prec f64.emax ltac:(done) lit_0_7152 G 0)
    as (N2 & U2 & L2); [done|done|done|rewrite EG, Lb, P0; lra|done|].
  destruct (SFmul_mixed f64.prec f64.emax ltac:(done) lit_0_0722 B 0)
    as (N3 & U3 & L3); [done|done|done|rewrite EB, Lc, P0; lra|done|].
  fold f64.mul in N1, U1, L1, N2, U2, L2, N3, U3, L3.
  rewrite Eu, Ee, ER, La in U1, L1. rewrite Eu, Ee, EG, Lb in U2, L2.
  rewrite Eu, Ee, EB, Lc in U3, L3.
  set (p1 := f64.mul lit_0_2126 R) in *. set (p2 := f64.mul lit_0_7152 G) in *.
  set (p3 := f64.mul lit_0_0722 B) in *.
  destruct (SFadd_mixed f64.prec f64.emax ltac:(done) p1 p2 0)
    as (N4 & U4 & L4); [done|done|done|rewrite P0; lra|done|].
  fold f64.add in N4, U4, L4. rewrite Eu, Ee in U4, L4.
  set (s1 := f64.add p1 p2) in *.
  destruct (SFadd_mixed f64.prec f64.emax ltac:(done) s1 p3 1)
    as (N5 & U5 & L5); [done|done|done|rewrite P1; lra|done|].
  fold f64.add in N5, U5, L5. rewrite Eu, Ee in U5, L5.
  split; [done|]. rewrite La, Lb, Lc. split; lra.
Qed.

(** C1: for a colour with channels in [0, 1], the intensity is a number
    that equals the weighted sum [0.2126 * r + 0.7152 * g + 0.0722 * b] up
    to the round-off of the [float] it is returned as: the sum is
    evaluated in [double] and rounded to [float], which leaves it within
    [2^-24] of the sum, and within the fraction [2^-23] of the sum (plus
    [2^-149], the least positive [float]). *)
Theorem to_intensity_weighted_sum (c : color3) :
  f32.finite (r c) = true -> f32.finite (g c) = true -> f32.finite (b c) = true ->
  (0 <= value (r c) <= 1)%Q -> (0 <= value (g c) <= 1)%Q ->
  (0 <= value (b c) <= 1)%Q ->
  let S := ((2126 # 10000) * value (r c) + (7152 # 10000) * value (g c)
            + (722 # 10000) * value (b c))%Q in
  nonneg (to_intensity c) = true /\
  (Qabs (value (to_intensity c) - S) <= 1 # 16777216)%Q /\
  (Qabs (value (to_intensity c) - S)
   <= S * (1 # 8388608) + (1 # 713623846352979940529142984724747568191373312))%Q.
Proof.
  intros Fr Fg Fb Hr Hg Hb S. unfold S.
  destruct (of_f32_exact (r c) Fr (finite_nonneg _ Fr (proj1 Hr))) as [NR ER].
  destruct (of_f32_exact (g c) Fg (finite_nonneg _ Fg (proj1 Hg))) as [NG EG].
  destruct (of_f32_exact (b c) Fb (finite_nonneg _ Fb (proj1 Hb))) as [NB EB].
  destruct (intensity_double _ _ _ _ _ _ NR NG NB ER EG EB Hr Hg Hb)
    as (ND & UD & LD).
  rewrite value_lit_0_2126, value_lit_0_7152, value_lit_0_0722 in UD, LD.
  unfold to_intensity.
  set (d := f64.add _ _) in *.
  destruct Hr as [Hr0 Hr1], Hg as [Hg0 Hg1], Hb as [Hb0 Hb1].
  rewrite !Qabs_Qle_condition.
  destruct (Qlt_le_dec (value d) 1) as [Hlt|Hge].
  - destruct (to_f32_mixed d ND) as (NI & UI & LI).
    { eapply Qlt_le_trans; [exact Hlt|]. by apply (pow2_le 0 104). }
    destruct (to_f32_close d 0 ND) as (_ & UA & LA); [exact Hlt|done|done|].
    assert (2 ^ (0 - 24) * (1 # 2) == 1 # 33554432)%Q as E25 by reflexivity.
    rewrite E25 in UA, LA.
    split; [done|]. split; split; lra.
  - destruct (to_f32_one d ND Hge) as [NI EI]; [lra|].
    split; [done|]. rewrite EI. split; split; lra.
Qed.

Lemma to_intensity_weighted_sum_witness :
  nonneg (to_intensity red) = true /\
  (Qabs (value (to_intensity red)
         - ((2126 # 10000) * value (r red) + (7152 # 10000) * value (g red)
            + (722 # 10000) * value (b red)))
   <= 1 # 16777216)%Q /\
  (Qabs (value (to_intensity red)
         - ((2126 # 10000) * value (r red) + (7152 # 10000) * value (g red)
            + (722 # 10000) * value (b red)))
   <= ((2126 # 10000) * value (r red) + (7152 # 10000) * value (g red)
       + (722 # 10000) * value (b red)) * (1 # 8388608)
      + (1 # 713623846352979940529142984724747568191373312))%Q.
Proof.
  apply (to_intensity_weighted_sum red); try reflexivity; split; by vm_compute.
Defined.

(** The weighted sum itself need not be a [float]: the intensity of pure
    red is 14267344 * 2^-26, the [float] next to 0.2126. *)
Example to_intensity_red :
  to_intensity red = S754_finite false 14267344 (-26) /\
  ~ (value (to_intensity red) == 2126 # 10000)%Q /\
  (Qabs (value (to_intensity red) - (2126 # 10000)) <= 1 # 100000000)%Q.
Proof.
  split; [by vm_compute|]. split; [by vm_compute|]. by vm_compute.
Qed.

(** Pure red has its channels in [0, 1], and its intensity is not the
    number [0.2126 * 1 + 0.7152 * 0 + 0.0722 * 0]: that number is no
    [float]. *)
Lemma to_intensity_red_is_not_the_sum :
  (f32.finite (r samples.red) = true /\ f32.finite (g samples.red) = true /\
   f32.finite (b samples.red) = true) /\
  ((0 <= value (r samples.red) <= 1) /\ (0 <= value (g samples.red) <= 1) /\
   (0 <= value (b samples.red) <= 1))%Q /\
  ~ (value (to_intensity samples.red)
     == (2126 # 10000) * value (r samples.red)
        + (7152 # 10000) * value (g samples.red)
        + (722 # 10000) * value (b samples.red))%Q.
Proof.
  split; [by repeat split|]. split; [by repeat split|]. by vm_compute.
Qed.

Import exact.

(** ** IEEE-754: results that need no round-off *)

(** A number from [2 ^ k] on has more than [k] digits. *)
Lemma Zdigits2_lower (m k : Z) : 0 <= k -> 2 ^ k <= m -> k < Zdigits2 m.
Proof.
  intros Hk Hm.
  assert (0 < 2 ^ k) by (apply Z.pow_pos_nonneg; lia).
  pose proof (Zdigits2_upper m ltac:(lia)) as Hup.
  pose proof (Zdigits2_nonneg m) as Hd.
  assert (2 ^ k < 2 ^ Zdigits2 m) as Hlt by lia.
  apply Z.pow_lt_mono_r_iff in Hlt; [done|lia|lia].
Qed.

(** Doubling adds a digit. *)
Lemma Zdigits2_double (m : Z) : 0 < m -> Zdigits2 (2 * m) = Zdigits2 m + 1.
Proof.
  destruct m as [|p|p]; try lia. intros _.
  change (2 * Zpos p) with (Zpos p~0). simpl. lia.
Qed.

Section RoundCanonical.
Variables prec emax : Z.
Hypothesis Hprec : 0 < prec.

(** [binary_round_aux], in full: the round-off of the magnitude, at most
    half a unit of the last digit away, as a mantissa and an exponent
    that are the format's own for it. *)
Lemma binary_round_aux_canonical (sx : bool) (mx ex : Z) :
  let e1 := fexp prec emax (Zdigits2 mx + ex) in
  0 <= mx -> ex <= e1 ->
  exists m2 m3 e3,
    binary_round_aux prec emax sx mx ex loc_Exact = finish prec emax sx m3 e3 /\
    0 <= m2 /\ 0 <= m3 /\
    (inject_Z m3 * 2 ^ e3 == inject_Z m2 * 2 ^ e1)%Q /\
    (inject_Z m2 * 2 ^ e1 - inject_Z mx * 2 ^ ex <= 2 ^ e1 * (1 # 2))%Q /\
    (inject_Z mx * 2 ^ ex - inject_Z m2 * 2 ^ e1 <= 2 ^ e1 * (1 # 2))%Q /\
    (0 < m3 -> fexp prec emax (Zdigits2 m3 + e3) = e3).
Proof.
  intros e1 Hmx Hle.
  destruct (Z.eq_dec ex e1) as [Heq|Hne].
  - exists mx, mx, ex.
    split; [apply binary_round_aux_exact; fold e1; lia|].
    split; [done|]. split; [done|]. rewrite <- Heq.
    split; [reflexivity|]. pose proof (pow2_pos ex).
    split; [lra|]. split; [lra|]. intros _. fold e1. lia.
  - assert (ex < e1) as He by lia.
    destruct (shr_fexp_shift prec emax mx ex Hmx He) as (mrs & Heq & H0 & Hrep).
    fold e1 in Heq, Hrep.
    pose proof (round_nearest_even_represents _ _ Hrep) as [Hm2 [Hlo Hhi]].
    simpl in Hm2, Hlo, Hhi.
    set (m2 := round_nearest_even (shr_m mrs) (loc_of_shr_record mrs)) in *.
    set (n := e1 - ex) in *.
    assert (0 < n) as Hn by (unfold n; lia).
    pose proof (half_pow2 n) as Hhalf.
    pose proof (pow2_pos n) as Hpn. pose proof (pow2_pos ex) as Hpx.
    pose proof (pow2_pos e1) as Hp1.
    assert (2 ^ e1 == 2 ^ n * 2 ^ ex)%Q as He1
      by (rewrite <- pow2_plus; unfold n; replace (e1 - ex + ex) with e1 by lia;
          reflexivity).
    assert (0 < 2 ^ n) as Hzn by (apply Z.pow_pos_nonneg; lia).
    assert (shr_m mrs * 2 ^ n <= mx /\ mx < (shr_m mrs + 1) * 2 ^ n) as [Hint Hint'].
    { destruct Hrep as [[R1 R2] _].
      rewrite Zle_Qle, Zlt_Qlt, !inject_Z_mult, inject_Z_plus, pow2_inject by lia.
      change (inject_Z 1) with 1%Q.
      set (a := inject_Z (shr_m mrs)) in *. set (c := inject_Z mx) in *.
      set (hp := ((1 # 2) ^ n)%Q) in *. set (p := (2 ^ n)%Q) in *.
      assert (a * p <= c * hp * p)%Q by (apply Qmult_le_compat_r; lra).
      assert (c * hp * p < (a + 1) * p)%Q by (apply Qmult_lt_compat_r; lra).
      assert (c * hp * p == c)%Q by (rewrite <- Qmult_assoc, Hhalf; ring).
      split; lra. }
    assert (inject_Z m2 * 2 ^ e1 - inject_Z mx * 2 ^ ex <= 2 ^ e1 * (1 # 2) /\
            inject_Z mx * 2 ^ ex - inject_Z m2 * 2 ^ e1 <= 2 ^ e1 * (1 # 2))%Q
      as [Herr1 Herr2].
    { set (a := inject_Z m2) in *. set (c := inject_Z mx) in *.
      set (hp := ((1 # 2) ^ n)%Q) in *. set (p := (2 ^ n)%Q) in *.
      set (px := (2 ^ ex)%Q) in *. rewrite He1.
      assert (c * hp * (p * px) == c * px)%Q as Hc.
      { transitivity (c * (hp * p) * px)%Q; [ring|]. rewrite Hhalf. ring. }
      assert (0 < p * px)%Q as Hppx by (apply Qmult_lt_0_compat; done).
      assert ((a - (1 # 2)) * (p * px) <= c * hp * (p * px))%Q
        by (apply Qmult_le_compat_r; lra).
      assert (c * hp * (p * px) <= (a + (1 # 2)) * (p * px))%Q
        by (apply Qmult_le_compat_r; lra).
      split; lra. }
    assert (0 <= m2) as Hm20 by lia.
    destruct (carry_cases prec emax Hprec mx ex (shr_m mrs) m2 Hmx He H0 Hint Hm2)
      as [HA|[HB Hev]].
    + fold e1 in HA. exists m2, m2, e1.
      split.
      { unfold binary_round_aux. rewrite Heq. fold m2.
        rewrite shr_fexp_noshift by done. reflexivity. }
      split; [done|]. split; [done|]. split; [reflexivity|].
      split; [done|]. split; [done|].
      intros Hpos. apply Z.le_antisymm; [done|].
      unfold fexp. destruct (Z.eq_dec e1 (emin prec emax)) as [->|Hnorm]; [lia|].
      pose proof (Zdigits2_nonneg mx) as HD.
      assert (e1 = Zdigits2 mx + ex - prec) as HeD by (unfold e1, fexp in *; lia).
      assert (0 < mx) as Hmx'.
      { destruct (Z.eq_dec mx 0) as [->|]; [|lia]. simpl in HeD. lia. }
      pose proof (Zdigits2_spec mx Hmx') as [Hlow _].
      assert (n = Zdigits2 mx - prec) as Hn' by (unfold n; lia).
      assert (2 ^ (Zdigits2 mx - 1) = 2 ^ (prec - 1) * 2 ^ n) as Hsplit.
      { rewrite <- Z.pow_add_r by lia. f_equal. lia. }
      assert (2 ^ (prec - 1) <= shr_m mrs) as Hbig.
      { assert (0 < 2 ^ (prec - 1)) by (apply Z.pow_pos_nonneg; lia). nia. }
      assert (2 ^ (prec - 1) <= m2) as Hbig2 by (destruct Hm2 as [-> | ->]; lia).
      pose proof (Zdigits2_lower m2 (prec - 1) ltac:(lia) Hbig2). lia.
    + fold e1 in HB.
      assert (e1 < fexp prec emax (Zdigits2 m2 + e1)) as Hlt2 by (rewrite HB; lia).
      destruct (shr_fexp_shift prec emax m2 e1 Hm20 Hlt2)
        as (mrs3 & Heq3 & H3 & [[R1 R2] _]).
      rewrite HB in *. replace (e1 + 1 - e1) with 1 in * by lia.
      change ((1 # 2) ^ 1)%Q with (1 # 2) in *.
      apply Zeven_bool_iff, Zeven_ex in Hev as [k Hk].
      assert (shr_m mrs3 = k) as Hk3.
      { rewrite Hk, inject_Z_mult in R1, R2. change (inject_Z 2) with 2%Q in *.
        assert (inject_Z (shr_m mrs3) <= inject_Z k)%Q as A by lra.
        assert (inject_Z k < inject_Z (shr_m mrs3 + 1))%Q as B
          by (rewrite inject_Z_plus; change (inject_Z 1) with 1%Q; lra).
        rewrite <- Zle_Qle in A. rewrite <- Zlt_Qlt in B. lia. }
      exists m2, k, (e1 + 1).
      split.
      { unfold binary_round_aux. rewrite Heq. fold m2. rewrite Heq3, Hk3.
        reflexivity. }
      split; [done|]. split; [lia|].
      split; [rewrite Hk, inject_Z_mult, pow2_succ; change (inject_Z 2) with 2%Q; ring|].
      split; [done|]. split; [done|].
      intros Hpos.
      assert (Zdigits2 k + (e1 + 1) = Zdigits2 m2 + e1) as ->
        by (rewrite Hk, Zdigits2_double by lia; lia).
      exact HB.
Qed.

(** The same of [binary_round]. *)
Lemma binary_round_canonical (sx : bool) (m : positive) (e : Z) :
  let e1 := fexp prec emax (Zpos (digits2_pos m) + e) in
  exists m2 m3 e3,
    binary_round prec emax sx m e = finish prec emax sx m3 e3 /\
    0 <= m2 /\ 0 <= m3 /\
    (inject_Z m3 * 2 ^ e3 == inject_Z m2 * 2 ^ e1)%Q /\
    (inject_Z m2 * 2 ^ e1 - inject_Z (Zpos m) * 2 ^ e <= 2 ^ e1 * (1 # 2))%Q /\
    (inject_Z (Zpos m) * 2 ^ e - inject_Z m2 * 2 ^ e1 <= 2 ^ e1 * (1 # 2))%Q /\
    (0 < m3 -> fexp prec emax (Zdigits2 m3 + e3) = e3).
Proof.
  intros e1. unfold binary_round, shl_align. fold e1.
  destruct (e1 - e) as [|d|d] eqn:Hd.
  - apply (binary_round_aux_canonical sx (Zpos m) e); [lia|].
    simpl Zdigits2. fold e1. lia.
  - apply (binary_round_aux_canonical sx (Zpos m) e); [lia|].
    simpl Zdigits2. fold e1. lia.
  - assert (fexp prec emax (Zdigits2 (Zpos (Pos.iter xO m d)) + e1) = e1) as Hcan.
    { simpl Zdigits2. rewrite digits2_pos_iter_xO.
      replace (Zpos (digits2_pos m) + Zpos d + e1)
        with (Zpos (digits2_pos m) + e) by lia. reflexivity. }
    rewrite binary_round_aux_exact by lia.
    assert (inject_Z (Zpos (Pos.iter xO m d)) * 2 ^ e1
            == inject_Z (Zpos m) * 2 ^ e)%Q as Hv.
    { rewrite Zpos_iter_xO, inject_Z_mult, pow2_inject, <- Qmult_assoc,
        <- pow2_plus by lia.
      replace (Zpos d + e1) with e by lia. reflexivity. }
    exists (Zpos (Pos.iter xO m d)), (Zpos (Pos.iter xO m d)), e1.
    split; [done|]. split; [lia|]. split; [lia|]. split; [reflexivity|].
    pose proof (pow2_pos e1). rewrite Hv. split; [lra|]. split; [lra|done].
Qed.

(** One number, written with two mantissas: digits and exponent add up
    to the same. *)
Lemma magnitude_unique (p q e f : Z) :
  0 < p -> 0 < q ->
  (inject_Z p * 2 ^ e == inject_Z q * 2 ^ f)%Q ->
  Zdigits2 p + e = Zdigits2 q + f.
Proof.
  assert (forall p q e f, 0 < p -> 0 < q ->
             (inject_Z p * 2 ^ e == inject_Z q * 2 ^ f)%Q ->
             Zdigits2 p + e <= Zdigits2 q + f) as Hmag.
  { clear. intros p q e f Hp Hq HV.
    pose proof (Zdigits2_spec q Hq) as [_ Hhi].
    pose proof (Zdigits2_pos q Hq) as Hd.
    apply (digits_le p e (Zdigits2 q + f) Hp).
    rewrite HV, pow2_plus.
    apply Qmult_lt_compat_r; [apply pow2_pos|].
    rewrite Zlt_Qlt, pow2_inject in Hhi by lia. done. }
  intros Hp Hq HV.
  apply Z.le_antisymm; [by apply Hmag|apply Hmag; [done|done|by symmetry]].
Qed.

(** Two mantissas and exponents that are the format's own for one number
    are the same. *)
Lemma canonical_unique (p q e f : Z) :
  0 < p -> 0 < q ->
  fexp prec emax (Zdigits2 p + e) = e -> fexp prec emax (Zdigits2 q + f) = f ->
  (inject_Z p * 2 ^ e == inject_Z q * 2 ^ f)%Q ->
  p = q /\ e = f.
Proof.
  intros Hp Hq Cp Cq HV.
  pose proof (magnitude_unique p q e f Hp Hq HV) as Heq.
  assert (e = f) as Hef by (rewrite Heq, Cq in Cp; by symmetry).
  subst f. split; [|done].
  pose proof (pow2_pos e) as Hpe.
  assert (inject_Z p == inject_Z q)%Q as Hpq
    by (apply (Qmult_inj_r _ _ (2 ^ e)%Q); [lra|exact HV]).
  by apply inject_Z_injective.
Qed.

(** A magnitude that the format has a datum for is rounded to that
    datum: [binary_round_aux] on a mantissa not shorter than the datum's. *)
Lemma binary_round_aux_to_canonical (sx : bool) (mx ex : Z) (q : positive) (f : Z) :
  0 < mx ->
  fexp prec emax (Zpos (digits2_pos q) + f) = f -> f <= emax - prec ->
  (inject_Z mx * 2 ^ ex == inject_Z (Zpos q) * 2 ^ f)%Q ->
  ex <= f ->
  binary_round_aux prec emax sx mx ex loc_Exact = S754_finite sx q f.
Proof.
  intros Hmx Hcan Hf HV Hex.
  pose proof (magnitude_unique mx (Zpos q) ex f Hmx ltac:(lia) HV) as Hmag.
  simpl Zdigits2 in Hmag.
  destruct (binary_round_aux_canonical sx mx ex ltac:(lia))
    as (m2 & m3 & e3 & -> & Hm2 & Hm3 & Hv3 & He1 & He2 & Hc3).
  { rewrite Hmag, Hcan. exact Hex. }
  rewrite Hmag, Hcan in Hv3, He1, He2. rewrite HV in He1, He2.
  pose proof (pow2_pos f) as Hpf.
  assert (m2 = Zpos q) as ->.
  { assert (inject_Z m2 - inject_Z (Zpos q) <= 1 # 2)%Q as A.
    { apply Qnot_lt_le. intros Hlt.
      assert ((1 # 2) * 2 ^ f < (inject_Z m2 - inject_Z (Zpos q)) * 2 ^ f)%Q
        by (apply Qmult_lt_compat_r; done). lra. }
    assert (inject_Z (Zpos q) - inject_Z m2 <= 1 # 2)%Q as B.
    { apply Qnot_lt_le. intros Hlt.
      assert ((1 # 2) * 2 ^ f < (inject_Z (Zpos q) - inject_Z m2) * 2 ^ f)%Q
        by (apply Qmult_lt_compat_r; done). lra. }
    assert (inject_Z (m2 - 1) < inject_Z (Zpos q))%Q as A'.
    { rewrite <- (Z.add_opp_r m2 1), inject_Z_plus.
      change (inject_Z (- (1))) with (- (1))%Q. lra. }
    assert (inject_Z (Zpos q) < inject_Z (m2 + 1))%Q as B'.
    { rewrite inject_Z_plus. change (inject_Z 1) with 1%Q. lra. }
    rewrite <- Zlt_Qlt in A', B'. lia. }
  assert (0 < m3) as Hm3'.
  { destruct (Z.eq_dec m3 0) as [->|]; [|lia]. exfalso.
    assert (0 < inject_Z (Zpos q))%Q
      by (change 0%Q with (inject_Z 0); rewrite <- Zlt_Qlt; lia).
    change (inject_Z 0) with 0%Q in Hv3. nra. }
  destruct (canonical_unique m3 (Zpos q) e3 f Hm3' ltac:(lia) (Hc3 Hm3') Hcan Hv3)
    as [-> ->].
  unfold finish. by destruct (Z.leb_spec f (emax - prec)); [|lia].
Qed.

(** The same of [binary_round], whatever the mantissa it is given. *)
Lemma binary_round_to_canonical (sx : bool) (m : positive) (e : Z)
    (q : positive) (f : Z) :
  fexp prec emax (Zpos (digits2_pos q) + f) = f -> f <= emax - prec ->
  (inject_Z (Zpos m) * 2 ^ e == inject_Z (Zpos q) * 2 ^ f)%Q ->
  binary_round prec emax sx m e = S754_finite sx q f.
Proof.
  intros Hcan Hf HV.
  pose proof (magnitude_unique (Zpos m) (Zpos q) e f ltac:(lia) ltac:(lia) HV) as Hmag.
  simpl Zdigits2 in Hmag.
  unfold binary_round, shl_align. rewrite Hmag, Hcan.
  destruct (f - e) as [|d|d] eqn:Hd.
  - apply binary_round_aux_to_canonical; try done; lia.
  - apply binary_round_aux_to_canonical; try done; lia.
  - apply binary_round_aux_to_canonical; try done; try lia.
    rewrite <- HV, Zpos_iter_xO, inject_Z_mult, pow2_inject, <- Qmult_assoc,
      <- pow2_plus by lia.
    replace (Zpos d + f) with e by lia. reflexivity.
Qed.

End RoundCanonical.

(** ** IEEE-754: the round-off of a quotient *)

Lemma shr_m_of_loc (m : Z) (l : location) : shr_m (shr_record_of_loc m l) = m.
Proof. by destruct l as [|[ | | ]]. Qed.

Lemma loc_of_shr_record_of_loc (m : Z) (l : location) :
  loc_of_shr_record (shr_record_of_loc m l) = l.
Proof. by destruct l as [|[ | | ]]. Qed.

Section RoundLocated.
Variables prec emax : Z.
Hypothesis Hprec : 0 < prec.

(** The first shift of [binary_round_aux], of a mantissa that comes with
    a location: down to the exponent [fexp] gives, when that is higher. *)
Lemma shr_fexp_located (m e : Z) (l : location) (W : Q) :
  0 <= m -> represents (shr_record_of_loc m l) W ->
  let e1 := Z.max e (fexp prec emax (Zdigits2 m + e)) in
  exists mrs,
    shr_fexp prec emax m e l = (mrs, e1) /\
    0 <= shr_m mrs /\
    represents mrs (W * (1 # 2) ^ (e1 - e)) /\
    (e1 = e -> shr_m mrs = m).
Proof.
  intros Hm HW e1. unfold shr_fexp, shr.
  destruct (fexp prec emax (Zdigits2 m + e) - e) as [|p|p] eqn:Hn.
  - exists (shr_record_of_loc m l). assert (e1 = e) as -> by (unfold e1; lia).
    split; [done|]. rewrite shr_m_of_loc. split; [done|]. split; [|done].
    eapply represents_proper; [|exact HW]. rewrite Z.sub_diag.
    change ((1 # 2) ^ 0)%Q with 1%Q. ring.
  - destruct (iter_shr_1_represents p (shr_record_of_loc m l) W) as [H1 H2];
      [by rewrite shr_m_of_loc|done|].
    eexists. split; [f_equal; unfold e1; lia|]. split; [done|].
    split; [|unfold e1; lia].
    eapply represents_proper; [|exact H2].
    replace (e1 - e) with (Zpos p) by (unfold e1; lia). reflexivity.
  - exists (shr_record_of_loc m l). assert (e1 = e) as -> by (unfold e1; lia).
    split; [done|]. rewrite shr_m_of_loc. split; [done|]. split; [|done].
    eapply represents_proper; [|exact HW]. rewrite Z.sub_diag.
    change ((1 # 2) ^ 0)%Q with 1%Q. ring.
Qed.

(** A mantissa that fits the format and its successor: the successor
    fits, or it is a power of two, which is even. *)
Lemma carry_noshift (mx ex m2 : Z) :
  0 <= mx -> fexp prec emax (Zdigits2 mx + ex) <= ex ->
  m2 = mx \/ m2 = mx + 1 ->
  fexp prec emax (Zdigits2 m2 + ex) <= ex \/
  (fexp prec emax (Zdigits2 m2 + ex) = ex + 1 /\ Z.even m2 = true).
Proof.
  intros Hmx Hfit [->| ->]; [by left|].
  pose proof (Zdigits2_upper mx Hmx) as Hup.
  pose proof (Zdigits2_nonneg mx) as HD.
  set (D := Zdigits2 mx) in *.
  destruct (Z.eq_dec (mx + 1) (2 ^ D)) as [Heq|Hne].
  - rewrite Heq, Zdigits2_pow2 by lia.
    destruct (Z.eq_dec D 0) as [HD0|HD0].
    + left. rewrite HD0 in *. unfold fexp in *. lia.
    + destruct (Z_le_gt_dec (fexp prec emax (D + 1 + ex)) ex) as [|Hgt];
        [by left|right].
      split; [unfold fexp in *; lia|]. apply even_pow2. lia.
  - left. assert (Zdigits2 (mx + 1) <= D) by (apply Zdigits2_bound; lia).
    etrans; [apply fexp_mono with (c := D + ex); lia|done].
Qed.

(** [binary_round_aux] of a mantissa [mx] that comes with a location, the
    magnitude being [W * 2 ^ ex] with [W] between [mx] and [mx + 1] as the
    location says: rounded to nearest, ties to even, at the exponent
    [fexp] gives or at [ex] when that is higher. *)
Lemma binary_round_aux_located (sx : bool) (mx ex : Z) (l : location) (W : Q) :
  0 <= mx -> represents (shr_record_of_loc mx l) W ->
  rounded prec emax sx (W * 2 ^ ex)
          (Z.max ex (fexp prec emax (Zdigits2 mx + ex)))
          (binary_round_aux prec emax sx mx ex l).
Proof.
  intros Hmx HW.
  destruct (shr_fexp_located mx ex l W Hmx HW) as (mrs & Heq & H0 & Hrep & Hsame).
  set (e1 := Z.max ex (fexp prec emax (Zdigits2 mx + ex))) in *.
  pose proof (round_nearest_even_represents _ _ Hrep) as [Hm2 [Hlo Hhi]].
  simpl in Hm2, Hlo, Hhi.
  set (m2 := round_nearest_even (shr_m mrs) (loc_of_shr_record mrs)) in *.
  set (n := e1 - ex) in *.
  assert (0 <= n) as Hn by (unfold n, e1; lia).
  pose proof (half_pow2 n) as Hhalf.
  pose proof (pow2_pos n) as Hpn. pose proof (pow2_pos ex) as Hpx.
  pose proof (pow2_pos e1) as Hp1.
  assert (2 ^ e1 == 2 ^ n * 2 ^ ex)%Q as He1
    by (rewrite <- pow2_plus; unfold n; replace (e1 - ex + ex) with e1 by lia;
        reflexivity).
  assert (fexp prec emax (Zdigits2 m2 + e1) <= e1 \/
          (fexp prec emax (Zdigits2 m2 + e1) = e1 + 1 /\ Z.even m2 = true))
    as Hcarry.
  { destruct (Z_lt_le_dec ex (fexp prec emax (Zdigits2 mx + ex))) as [Hlt|Hle].
    - assert (e1 = fexp prec emax (Zdigits2 mx + ex)) as E1 by (unfold e1; lia).
      rewrite E1.
      apply (carry_cases prec emax Hprec mx ex (shr_m mrs) m2); try done.
      fold e1. rewrite <- E1. fold n.
      destruct Hrep as [[R1 _] _]. destruct HW as [[_ W2] _].
      rewrite shr_m_of_loc in W2.
      assert (inject_Z (shr_m mrs * 2 ^ n) < inject_Z (mx + 1))%Q as Hq.
      { rewrite inject_Z_mult, inject_Z_plus, pow2_inject by lia.
        change (inject_Z 1) with 1%Q.
        set (a := inject_Z (shr_m mrs)) in *. set (c := inject_Z mx) in *.
        set (hp := ((1 # 2) ^ n)%Q) in *. set (p := (2 ^ n)%Q) in *.
        assert (a * p <= W * hp * p)%Q by (apply Qmult_le_compat_r; lra).
        assert (W * hp * p == W)%Q by (rewrite <- Qmult_assoc, Hhalf; ring).
        lra. }
      rewrite <- Zlt_Qlt in Hq. lia.
    - assert (e1 = ex) as E1 by (unfold e1; lia).
      rewrite E1. apply (carry_noshift mx ex m2); try done.
      rewrite <- (Hsame E1). exact Hm2. }
  destruct (second_shift prec emax m2 e1 ltac:(lia) Hcarry)
    as (mrs3 & e3 & Heq3 & H3 & Hval).
  exists m2, (shr_m mrs3), e3.
  split.
  { unfold binary_round_aux. rewrite Heq. fold m2. rewrite Heq3. reflexivity. }
  split; [lia|]. split; [done|]. split; [done|].
  set (a := inject_Z m2) in *.
  set (hp := ((1 # 2) ^ n)%Q) in *. set (p := (2 ^ n)%Q) in *.
  set (px := (2 ^ ex)%Q) in *. rewrite He1.
  assert (W * hp * (p * px) == W * px)%Q as Hc.
  { transitivity (W * (hp * p) * px)%Q; [ring|]. rewrite Hhalf. ring. }
  assert (0 < p * px)%Q as Hppx by (apply Qmult_lt_0_compat; done).
  assert ((a - (1 # 2)) * (p * px) <= W * hp * (p * px))%Q
    by (apply Qmult_le_compat_r; lra).
  assert (W * hp * (p * px) <= (a + (1 # 2)) * (p * px))%Q
    by (apply Qmult_le_compat_r; lra).
  split; lra.
Qed.

End RoundLocated.

(** Where a remainder puts a quotient between two integers. *)
Lemma fraction_cases (q r m2 : Z) :
  0 < m2 -> 0 <= r < m2 ->
  let W := (inject_Z q + inject_Z r / inject_Z m2)%Q in
  (inject_Z q <= W /\ W < inject_Z q + 1)%Q /\
  (r = 0 -> (W == inject_Z q)%Q) /\
  (0 < r -> 2 * r < m2 -> (inject_Z q < W /\ W < inject_Z q + (1 # 2))%Q) /\
  (2 * r = m2 -> (W == inject_Z q + (1 # 2))%Q) /\
  (m2 < 2 * r -> (inject_Z q + (1 # 2) < W)%Q).
Proof.
  intros Hm Hr W. unfold W.
  assert (0 < inject_Z m2)%Q as HM
    by (change 0%Q with (inject_Z 0); rewrite <- Zlt_Qlt; lia).
  assert (0 <= inject_Z r)%Q as HR0
    by (change 0%Q with (inject_Z 0); rewrite <- Zle_Qle; lia).
  assert (inject_Z r < inject_Z m2)%Q as HR1 by (rewrite <- Zlt_Qlt; lia).
  set (M := inject_Z m2) in *. set (R := inject_Z r) in *.
  set (f := (R / M)%Q).
  assert (f * M == R)%Q as Hf by (unfold f; field; lra).
  assert (0 <= f)%Q as Hf0.
  { apply Qnot_lt_le. intros Hlt.
    assert (f * M < 0 * M)%Q by (apply Qmult_lt_compat_r; done). lra. }
  assert (f < 1)%Q as Hf1.
  { apply Qnot_le_lt. intros Hge.
    assert (1 * M <= f * M)%Q by (apply Qmult_le_compat_r; lra). lra. }
  split; [split; lra|].
  split.
  { intros ->. assert (f == 0)%Q as ->; [|ring].
    unfold f, R. change (inject_Z 0) with 0%Q. field. lra. }
  split.
  { intros Hr0 Hlt.
    assert (0 < R)%Q by (change 0%Q with (inject_Z 0); unfold R; rewrite <- Zlt_Qlt; lia).
    assert (2 * R < M)%Q as H2.
    { unfold R, M. change 2%Q with (inject_Z 2).
      rewrite <- inject_Z_mult, <- Zlt_Qlt. lia. }
    split.
    - enough (0 < f)%Q by lra. apply Qnot_le_lt. intros Hle.
      assert (f * M <= 0 * M)%Q by (apply Qmult_le_compat_r; lra). lra.
    - enough (f < 1 # 2)%Q by lra. apply Qnot_le_lt. intros Hge.
      assert ((1 # 2) * M <= f * M)%Q by (apply Qmult_le_compat_r; lra). lra. }
  split.
  { intros Heq.
    assert (2 * R == M)%Q as H2.
    { unfold R, M. change 2%Q with (inject_Z 2).
      rewrite <- inject_Z_mult, Heq. reflexivity. }
    assert (f == 1 # 2)%Q as ->; [|ring].
    apply (Qmult_inj_r _ _ M); [lra|]. rewrite Hf. lra. }
  intros Hgt.
  assert (M < 2 * R)%Q as H2.
  { unfold R, M. change 2%Q with (inject_Z 2).
    rewrite <- inject_Z_mult, <- Zlt_Qlt. lia. }
  enough ((1 # 2) < f)%Q by lra. apply Qnot_le_lt. intros Hle.
  assert (f * M <= (1 # 2) * M)%Q by (apply Qmult_le_compat_r; lra). lra.
Qed.

(** The location [new_location] gives a quotient for its remainder. *)
Lemma new_location_represents (m2 q r : Z) :
  0 < m2 -> 0 <= r < m2 ->
  represents (shr_record_of_loc q (new_location m2 r))
             (inject_Z q + inject_Z r / inject_Z m2).
Proof.
  intros Hm Hr.
  destruct (fraction_cases q r m2 Hm Hr) as (Hin & H0 & Hlt & Heq & Hgt).
  unfold represents. rewrite shr_m_of_loc, loc_of_shr_record_of_loc.
  split; [exact Hin|].
  unfold new_location. destruct (Z.even m2) eqn:Hev.
  - unfold new_location_even. destruct (Z.eqb_spec r 0) as [Hr0|Hr0]; [by apply H0|].
    destruct (Z.compare_spec (2 * r) m2) as [E|L|G].
    + by apply Heq.
    + apply Hlt; lia.
    + by apply Hgt.
  - unfold new_location_odd. destruct (Z.eqb_spec r 0) as [Hr0|Hr0]; [by apply H0|].
    assert (2 * r <> m2) as Hodd.
    { intros <-. rewrite Z.even_mul in Hev. done. }
    destruct (Z.compare_spec (2 * r + 1) m2) as [E|L|G].
    + apply Hlt; lia.
    + apply Hlt; lia.
    + apply Hgt. lia.
Qed.

Section Quotient.
Variables prec emax : Z.
Hypothesis Hprec : 0 < prec.

(** [SFdiv_core_binary]: a mantissa, an exponent and a location that
    stand for the quotient. *)
Lemma SFdiv_core_binary_located (m1 m2 : positive) (e1 e2 : Z) :
  exists (q e' : Z) (l : location) (W : Q),
    SFdiv_core_binary prec emax (Zpos m1) e1 (Zpos m2) e2 = (q, e', l) /\
    0 <= q /\ represents (shr_record_of_loc q l) W /\
    (W * 2 ^ e' == (inject_Z (Zpos m1) * 2 ^ e1) / (inject_Z (Zpos m2) * 2 ^ e2))%Q /\
    e' <= fexp prec emax (Zdigits2 (Zpos m1) + e1 - (Zdigits2 (Zpos m2) + e2)).
Proof.
  unfold SFdiv_core_binary.
  set (e' := Z.min _ _). set (s := e1 - e2 - e').
  assert (0 <= s) as Hs by (unfold s, e'; lia).
  set (m' := match s with Z0 => _ | Zpos _ => _ | Zneg _ => _ end).
  assert (m' = Zpos m1 * 2 ^ s) as Hm'.
  { unfold m'. destruct s as [|p|p] eqn:Hp; [simpl; lia| |lia].
    by rewrite Z.shiftl_mul_pow2. }
  clearbody m'.
  assert (0 < 2 ^ s) as Hps by (apply Z.pow_pos_nonneg; lia).
  pose proof (Z_div_mod m' (Zpos m2) ltac:(lia)) as Hdm.
  destruct (Z.div_eucl m' (Zpos m2)) as [q r]. destruct Hdm as [Hdm Hr].
  exists q, e', (new_location (Zpos m2) r),
    (inject_Z q + inject_Z r / inject_Z (Zpos m2))%Q.
  split; [done|]. split; [nia|].
  split; [apply new_location_represents; lia|]. split; [|unfold e'; lia].
  assert (inject_Z (Zpos m1) * 2 ^ s
          == inject_Z (Zpos m2) * inject_Z q + inject_Z r)%Q as HQ.
  { rewrite <- pow2_inject, <- !inject_Z_mult, <- inject_Z_plus by lia.
    by rewrite <- Hm', Hdm. }
  assert (2 ^ e1 == 2 ^ s * 2 ^ e' * 2 ^ e2)%Q as HD.
  { rewrite <- !pow2_plus. replace (s + e' + e2) with e1 by (unfold s; lia).
    reflexivity. }
  assert (0 < inject_Z (Zpos m2))%Q as HM
    by (change 0%Q with (inject_Z 0); rewrite <- Zlt_Qlt; lia).
  pose proof (pow2_pos e2) as Hp2.
  rewrite HD.
  set (M := inject_Z (Zpos m2)) in *. set (A := (2 ^ s)%Q) in *.
  set (B := (2 ^ e')%Q) in *. set (C := (2 ^ e2)%Q) in *.
  transitivity ((M * inject_Z q + inject_Z r) * B / M)%Q; [field; lra|].
  rewrite <- HQ. field. split; lra.
Qed.

(** Half a unit at the exponent a round-off ends at, against the
    magnitude. *)
Lemma half_unit_mixed (V : Q) (g k : Z) :
  (0 <= V)%Q ->
  g <= emin prec emax \/ (g <= k - prec /\ (2 ^ (k - 1) <= V)%Q) ->
  (2 ^ g * (1 # 2) <= V * 2 ^ (- prec) + 2 ^ (emin prec emax - 1))%Q.
Proof.
  intros HV H.
  pose proof (pow2_pos (- prec)) as Hpp.
  pose proof (pow2_pos (emin prec emax - 1)) as Hpe.
  assert (0 <= V * 2 ^ (- prec))%Q by (apply Qmult_le_0_compat; lra).
  destruct H as [Hg|[Hg Hk]].
  - assert (2 ^ g <= 2 ^ (emin prec emax - 1 + 1))%Q as Hle
      by (apply pow2_le; lia).
    rewrite pow2_succ in Hle. lra.
  - assert (2 ^ g <= 2 ^ (k - 1 + - prec + 1))%Q as Hle by (apply pow2_le; lia).
    rewrite pow2_succ, pow2_plus in Hle.
    assert (2 ^ (k - 1) * 2 ^ (- prec) <= V * 2 ^ (- prec))%Q
      by (apply Qmult_le_compat_r; lra).
    lra.
Qed.

(** The quotient of a number that is not negative by a positive one: the
    exact quotient, up to one round-off. *)
Lemma SFdiv_mixed (a c : spec_float) (hi : Z) :
  2 <= emax ->
  nonneg a = true -> nonneg c = true -> (0 < value c)%Q ->
  (value a / value c < 2 ^ hi)%Q -> hi <= emax - prec ->
  close (value a / value c)
        (value a / value c * 2 ^ (- prec) + 2 ^ (emin prec emax - 1))
        (SFdiv prec emax a c).
Proof.
  intros Hemax Ha Hc Hc0 HV Hhi.
  pose proof (pow2_pos (emin prec emax - 1)) as Hp.
  pose proof (pow2_pos (- prec)) as Hpp.
  destruct c as [sc|sc| |sc mc ec]; try done.
  destruct sc; [done|].
  destruct a as [sa|sa| |sa ma ea]; try done.
  { split; [by destruct sa|].
    assert (value (S754_zero sa) / value (S754_finite false mc ec) == 0)%Q as ->
      by (unfold Qdiv; simpl; ring).
    simpl. split; lra. }
  destruct sa; [done|].
  destruct (SFdiv_core_binary_located ma mc ea ec)
    as (q & e' & l & W & Hcore & Hq & Hrep & HW & He').
  unfold SFdiv. rewrite Hcore. simpl xorb.
  pose proof (binary_round_aux_located prec emax Hprec false q e' l W Hq Hrep) as Hr.
  set (x := binary_round_aux prec emax false q e' l) in *.
  set (V := (value (S754_finite false ma ea) / value (S754_finite false mc ec))%Q) in *.
  assert (W * 2 ^ e' == V)%Q as HWV by (rewrite HW; reflexivity).
  apply (rounded_proper _ _ _ _ _ _ _ HWV) in Hr.
  set (g := Z.max e' (fexp prec emax (Zdigits2 q + e'))) in *.
  set (d := Zdigits2 (Zpos ma) + ea - (Zdigits2 (Zpos mc) + ec)) in *.
  pose proof (pow2_pos e') as Hpe'.
  (* the quotient is above [2 ^ (d - 1)] *)
  assert (2 ^ (d - 1) < V)%Q as Hlow.
  { pose proof (Zdigits2_spec (Zpos ma) ltac:(lia)) as [Hlo _].
    pose proof (Zdigits2_spec (Zpos mc) ltac:(lia)) as [_ Hup].
    pose proof (Zdigits2_pos (Zpos ma) ltac:(lia)) as Hda.
    pose proof (Zdigits2_pos (Zpos mc) ltac:(lia)) as Hdc.
    rewrite Zle_Qle, pow2_inject in Hlo by lia.
    rewrite Zlt_Qlt, pow2_inject in Hup by lia.
    pose proof (pow2_pos ea) as Hpa. pose proof (pow2_pos ec) as Hpc.
    assert (2 ^ (Zdigits2 (Zpos ma) - 1) * 2 ^ ea <= inject_Z (Zpos ma) * 2 ^ ea)%Q
      as HA by (apply Qmult_le_compat_r; lra).
    assert (inject_Z (Zpos mc) * 2 ^ ec < 2 ^ Zdigits2 (Zpos mc) * 2 ^ ec)%Q
      as HC by (apply Qmult_lt_compat_r; lra).
    rewrite <- pow2_plus in HA, HC.
    assert (2 ^ (Zdigits2 (Zpos ma) - 1 + ea)
            == 2 ^ (d - 1) * 2 ^ (Zdigits2 (Zpos mc) + ec))%Q as HP.
    { rewrite <- pow2_plus. unfold d.
      replace (Zdigits2 (Zpos ma) + ea - (Zdigits2 (Zpos mc) + ec) - 1
               + (Zdigits2 (Zpos mc) + ec))
        with (Zdigits2 (Zpos ma) - 1 + ea) by lia. reflexivity. }
    assert (0 < inject_Z (Zpos mc) * 2 ^ ec)%Q as HC0
      by (unfold value, cond_Zopp in Hc0; exact Hc0).
    assert (V * (inject_Z (Zpos mc) * 2 ^ ec) == inject_Z (Zpos ma) * 2 ^ ea)%Q
      as HVC.
    { assert (0 < inject_Z (Zpos mc))%Q
        by (change 0%Q with (inject_Z 0); rewrite <- Zlt_Qlt; lia).
      unfold V, value, cond_Zopp. field. split; lra. }
    pose proof (pow2_pos (d - 1)) as Hpd.
    pose proof (pow2_pos (Zdigits2 (Zpos mc) + ec)) as Hpdc.
    set (A := (inject_Z (Zpos ma) * 2 ^ ea)%Q) in *.
    set (C := (inject_Z (Zpos mc) * 2 ^ ec)%Q) in *.
    set (P := (2 ^ (d - 1))%Q) in *.
    set (D := (2 ^ (Zdigits2 (Zpos mc) + ec))%Q) in *.
    apply Qnot_le_lt. intros Hle.
    assert (V * C <= P * C)%Q by (apply Qmult_le_compat_r; lra).
    assert (P * C < P * D)%Q by (rewrite !(Qmult_comm P); apply Qmult_lt_compat_r; lra).
    lra. }
  pose proof (pow2_pos (d - 1)) as Hpd.
  assert (d <= hi) as Hdhi.
  { assert (2 ^ (d - 1) < 2 ^ hi)%Q as Hlt by lra.
    apply pow2_lt_inv in Hlt. lia. }
  (* the mantissa [q] is not above the quotient *)
  assert (inject_Z q * 2 ^ e' <= V)%Q as HqV.
  { destruct Hrep as [[R1 _] _]. rewrite shr_m_of_loc in R1.
    rewrite <- HWV. apply Qmult_le_compat_r; lra. }
  assert (0 < q -> Zdigits2 q + e' <= hi) as Hqhi.
  { intros Hq0. apply (digits_le q e' hi Hq0). lra. }
  assert (g <= fexp prec emax hi) as Hg.
  { destruct (Z.eq_dec q 0) as [->|Hne].
    - unfold g. simpl Zdigits2. unfold fexp, emin in *. lia.
    - specialize (Hqhi ltac:(lia)). unfold g.
      pose proof (fexp_mono prec emax (Zdigits2 q + e') hi Hqhi).
      unfold fexp, emin in *. lia. }
  set (k := Z.max hi (fexp prec emax hi + 1)).
  assert (V < 2 ^ k)%Q as HVk.
  { eapply Qlt_le_trans; [exact HV|]. apply pow2_le. unfold k. lia. }
  destruct (rounded_value prec emax V g k x Hr HVk)
    as (Hn & m2 & _ & Hv & H1 & H2).
  { unfold k. lia. }
  { unfold k, fexp, emin. lia. }
  split; [done|]. rewrite Hv.
  assert (2 ^ g * (1 # 2) <= V * 2 ^ (- prec) + 2 ^ (emin prec emax - 1))%Q as Hb.
  { destruct (Z_le_gt_dec g (emin prec emax)) as [Hge|Hge].
    - apply (half_unit_mixed V g 0); [lra|by left].
    - destruct (Z_le_gt_dec (fexp prec emax (Zdigits2 q + e')) e') as [Hfit|Hshift].
      + apply (half_unit_mixed V g d); [lra|right].
        split; [unfold g, fexp in *; lia|lra].
      + destruct (Z.eq_dec q 0) as [->|Hne].
        { exfalso. unfold g, fexp in *. simpl Zdigits2 in *. lia. }
        apply (half_unit_mixed V g (Zdigits2 q + e')); [lra|right].
        split; [unfold g, fexp in *; lia|].
        pose proof (Zdigits2_spec q ltac:(lia)) as [Hlo _].
        pose proof (Zdigits2_pos q ltac:(lia)) as Hdq.
        rewrite Zle_Qle, pow2_inject in Hlo by lia.
        assert (2 ^ (Zdigits2 q - 1) * 2 ^ e' <= inject_Z q * 2 ^ e')%Q
          by (apply Qmult_le_compat_r; lra).
        replace (Zdigits2 q + e' - 1) with (Zdigits2 q - 1 + e') by lia.
        rewrite pow2_plus. lra. }
  split; lra.
Qed.

End Quotient.

(** ** [type.hpp]: operations that round nothing off *)

Lemma bounded_canonical (prec emax : Z) (q : positive) (f : Z) :
  bounded prec emax q f = true <->
  fexp prec emax (Zpos (digits2_pos q) + f) = f /\ f <= emax - prec.
Proof.
  unfold bounded, canonical_mantissa.
  by rewrite andb_true_iff, Z.eqb_eq, Z.leb_le.
Qed.

Lemma datum_proper (prec emax : Z) (s : bool) (V V' : Q) (x : spec_float) :
  (V == V')%Q -> datum prec emax s V x -> datum prec emax s V' x.
Proof.
  intros HV (q & f & -> & Hb & Hv). exists q, f. by rewrite <- HV.
Qed.

(** Aligning a mantissa to a lower exponent adds digits. *)
Lemma digits_shl_align (m : positive) (e ez : Z) :
  ez <= e ->
  Zpos (digits2_pos (fst (shl_align m e ez))) = Zpos (digits2_pos m) + (e - ez).
Proof.
  intros H. unfold shl_align. destruct (ez - e) as [|d|d] eqn:Hd; simpl fst.
  - lia.
  - lia.
  - rewrite digits2_pos_iter_xO. lia.
Qed.

Section Datum.
Variables prec emax : Z.
Hypothesis Hprec : 0 < prec.

(** A number has one datum. *)
Lemma datum_unique (s : bool) (V : Q) (x y : spec_float) :
  datum prec emax s V x -> datum prec emax s V y -> x = y.
Proof.
  intros (q & f & -> & [Cq _]%bounded_canonical & Hq)
         (p & e & -> & [Cp _]%bounded_canonical & Hp).
  destruct (canonical_unique prec emax (Zpos q) (Zpos p) f e) as [Hqp ->];
    [lia|lia|done|done|by rewrite Hq, Hp|].
  by injection Hqp as ->.
Qed.

(** [binary_round] of a magnitude that has a datum is that datum. *)
Lemma binary_round_datum (s : bool) (m : positive) (e : Z) (x : spec_float) :
  datum prec emax s (inject_Z (Zpos m) * 2 ^ e) x ->
  binary_round prec emax s m e = x.
Proof.
  intros (q & f & -> & [Cq Hf]%bounded_canonical & Hq).
  by apply binary_round_to_canonical.
Qed.

(** A magnitude short enough for the format, and not too large, has a
    datum. *)
Lemma datum_exists (s : bool) (m : positive) (e : Z) :
  fexp prec emax (Zpos (digits2_pos m) + e) <= e ->
  fexp prec emax (Zpos (digits2_pos m) + e) <= emax - prec ->
  exists x, datum prec emax s (inject_Z (Zpos m) * 2 ^ e) x.
Proof.
  intros He Hmax. set (ez := fexp prec emax (Zpos (digits2_pos m) + e)) in *.
  exists (S754_finite s (fst (shl_align m e ez)) ez), (fst (shl_align m e ez)), ez.
  split; [done|]. split; [|by apply shl_align_fst].
  apply bounded_canonical. split; [|done].
  rewrite digits_shl_align by done.
  replace (Zpos (digits2_pos m) + (e - ez) + ez) with (Zpos (digits2_pos m) + e) by lia.
  done.
Qed.

(** The sum of two numbers of one sign, when it has a datum, is that
    datum: the addition rounds nothing off. *)
Lemma SFadd_datum (s : bool) (Va Vc : Q) (a c x : spec_float) :
  datum prec emax s Va a -> datum prec emax s Vc c ->
  datum prec emax s (Va + Vc) x ->
  SFadd prec emax a c = x.
Proof.
  intros (qa & fa & -> & _ & Ha) (qc & fc & -> & _ & Hc) Hx.
  unfold SFadd.
  set (ez := Z.min fa fc).
  pose proof (shl_align_fst qa fa ez ltac:(lia)) as Ea.
  pose proof (shl_align_fst qc fc ez ltac:(lia)) as Ec.
  set (ma := fst (shl_align qa fa ez)) in *.
  set (mc := fst (shl_align qc fc ez)) in *.
  assert (binary_normalize prec emax (cond_Zopp s (Zpos ma) + cond_Zopp s (Zpos mc))
            ez false
          = binary_round prec emax s (ma + mc) ez) as -> by (by destruct s).
  apply binary_round_datum.
  apply (datum_proper _ _ _ (Va + Vc)); [|done].
  rewrite <- Ha, <- Hc, <- Ea, <- Ec, Pos2Z.inj_add, inject_Z_plus. ring.
Qed.

End Datum.

(** [static_cast<double>] of a [float] is the [double] of the same
    number. *)
Lemma of_f32_datum (s : bool) (m : positive) (e : Z) :
  bounded f32.prec f32.emax m e = true ->
  datum f64.prec f64.emax s (inject_Z (Zpos m) * 2 ^ e)
        (f64.of_f32 (S754_finite s m e)).
Proof.
  intros [Hd He]%bounded_digits.
  destruct (datum_exists f64.prec f64.emax s m e) as [x Hx].
  { unfold fexp, emin, f64.prec, f64.emax. lia. }
  { unfold fexp, emin, f64.prec, f64.emax. lia. }
  assert (f64.of_f32 (S754_finite s m e) = binary_round f64.prec f64.emax s m e)
    as -> by (by destruct s).
  by rewrite (binary_round_datum f64.prec f64.emax ltac:(done) s m e x Hx).
Qed.

(** The conversion of a [double] to [float], when the number has a
    [float]: that [float]. *)
Lemma to_f32_datum (s : bool) (V : Q) (d x : spec_float) :
  datum f64.prec f64.emax s V d -> datum f32.prec f32.emax s V x ->
  f64.to_f32 d = x.
Proof.
  intros (q & f & -> & _ & Hq) Hx.
  assert (f64.to_f32 (S754_finite s q f) = binary_round f32.prec f32.emax s q f)
    as -> by (by destruct s).
  apply binary_round_datum; [done|].
  by apply (datum_proper _ _ _ V).
Qed.

(** A [float] times [1.0f] is the same [float], bit for bit; so are an
    infinity and NaN. *)
Lemma mul_one (x : spec_float) :
  valid_binary f32.prec f32.emax x = true -> f32.mul x f32.one = x.
Proof.
  destruct x as [s|s| |s m e]; simpl; intros Hb.
  - by destruct s.
  - by destruct s.
  - done.
  - unfold f32.mul, f32.one, SFmul. rewrite xorb_false_r.
    apply bounded_canonical in Hb as [Hc Hf].
    apply binary_round_aux_to_canonical; try done; try lia.
    rewrite Pos2Z.inj_mul, inject_Z_mult, pow2_plus.
    assert (inject_Z 8388608 * 2 ^ (-23) == 1)%Q as H1 by reflexivity.
    rewrite <- Qmult_assoc, (Qmult_assoc (inject_Z 8388608)),
      (Qmult_comm (inject_Z 8388608)), <- !Qmult_assoc, H1. ring.
Qed.

(** The quotient by [3.0] of the [double] of [3 * V] is the [double] of
    [V]:[SFdiv] finds no remainder. *)
Lemma div_3_datum (s : bool) (V : Q) (a x : spec_float) :
  datum f64.prec f64.emax s (3 * V) a -> datum f64.prec f64.emax s V x ->
  (2 ^ (-1000) <= V)%Q ->
  f64.div a lit_3_0 = x.
Proof.
  intros (qa & fa & -> & [Ca Hfa]%bounded_canonical & Ha)
         (qx & fx & -> & [Cx Hfx]%bounded_canonical & Hx) HV.
  pose proof (pow2_pos (-1000)) as Hp.
  pose proof (digits_ge (Zpos qx) fx (-1000) ltac:(lia)) as Dx.
  rewrite Hx in Dx. specialize (Dx HV).
  pose proof (digits_ge (Zpos qa) fa (-1000) ltac:(lia)) as Da.
  rewrite Ha in Da. specialize (Da ltac:(lra)).
  simpl Zdigits2 in Dx, Da.
  unfold fexp, emin, f64.prec, f64.emax in Ca, Cx.
  assert (Zpos (digits2_pos qa) = 53) as Ha53 by lia.
  assert (Zpos (digits2_pos qx) = 53) as Hx53 by lia.
  assert (fa - 2 <= fx) as Hle.
  { pose proof (digits2_pos_spec qx) as [_ Hhi]. rewrite Hx53 in Hhi.
    rewrite Zlt_Qlt, pow2_inject in Hhi by lia.
    pose proof (pow2_pos fx) as Hpf.
    assert (inject_Z (Zpos qx) * 2 ^ fx < 2 ^ 53 * 2 ^ fx)%Q as Hlt
      by (apply Qmult_lt_compat_r; done).
    pose proof (digits_le (Zpos qa) fa (55 + fx) ltac:(lia)) as Dle.
    simpl Zdigits2 in Dle. rewrite Ha53 in Dle.
    enough (53 + fa <= 55 + fx) by lia. apply Dle.
    rewrite Ha, pow2_plus, <- Hx.
    assert (2 ^ 55 == 4 * 2 ^ 53)%Q as -> by reflexivity. lra. }
  set (t := fx - (fa - 2)).
  assert (Zpos qa * 4 = Zpos qx * 2 ^ t * 3) as Hint.
  { apply inject_Z_injective.
    rewrite !inject_Z_mult, pow2_inject by lia.
    change (inject_Z 4) with 4%Q. change (inject_Z 3) with 3%Q.
    pose proof (pow2_pos fa) as Hpa.
    apply (Qmult_inj_r _ _ (2 ^ fa)%Q); [lra|].
    assert (2 ^ t * 2 ^ fa == 4 * 2 ^ fx)%Q as Hpow.
    { rewrite <- pow2_plus. replace (t + fa) with (2 + fx) by lia.
      rewrite pow2_plus. reflexivity. }
    rewrite <- Hx in Ha.
    transitivity (4 * (inject_Z (Zpos qa) * 2 ^ fa))%Q; [ring|].
    rewrite Ha.
    transitivity (3 * inject_Z (Zpos qx) * (2 ^ t * 2 ^ fa))%Q; [|ring].
    rewrite Hpow. ring. }
  assert (SFdiv_core_binary f64.prec f64.emax (Zpos qa) fa 6755399441055744 (-51)
          = (Zpos qx * 2 ^ t, fa - 2, loc_Exact)) as Hcore.
  { unfold SFdiv_core_binary.
    change (Zdigits2 6755399441055744) with 53. simpl Zdigits2. rewrite Ha53.
    assert (Z.min (fexp f64.prec f64.emax (53 + fa - (53 + -51))) (fa - -51) = fa - 2)
      as -> by (unfold fexp, emin, f64.prec, f64.emax; lia).
    assert (fa - -51 - (fa - 2) = 53) as -> by lia.
    cbv zeta. cbv iota. rewrite Z.shiftl_mul_pow2 by lia.
    assert (Zpos qa * 2 ^ 53 = Zpos qx * 2 ^ t * 6755399441055744) as ->.
    { change (2 ^ 53) with (4 * 2251799813685248).
      change 6755399441055744 with (3 * 2251799813685248). lia. }
    pose proof (Z.div_mul (Zpos qx * 2 ^ t) 6755399441055744 ltac:(lia)) as Hq.
    pose proof (Z.mod_mul (Zpos qx * 2 ^ t) 6755399441055744 ltac:(lia)) as Hr.
    unfold Z.div, Z.modulo in Hq, Hr.
    destruct (Z.div_eucl _ _) as [q r]. simpl in Hq, Hr. subst q r.
    reflexivity. }
  unfold f64.div, lit_3_0, SFdiv. rewrite Hcore, xorb_false_r.
  apply binary_round_aux_to_canonical; try done.
  - assert (0 < 2 ^ t) by (apply Z.pow_pos_nonneg; lia). lia.
  - rewrite inject_Z_mult, pow2_inject, <- Qmult_assoc, <- pow2_plus by lia.
    replace (t + (fa - 2)) with fx by lia. reflexivity.
Qed.

(** X4: the average of a grey, a colour of three equal channels, is the grey
    level itself, bit for bit: the two sums, the division by [3.0] and the
    conversion back to [float] round nothing off. *)
Theorem get_average_grey (v : spec_float) :
  f32.finite v = true -> get_average (Build_color3 v v v) = v.
Proof.
  destruct v as [s|s| |s m e]; try done.
  - intros _. by destruct s.
  - simpl f32.finite. intros Hb. unfold get_average. cbn [r g b].
    pose proof (of_f32_datum s m e Hb) as H1.
    pose proof (bounded_digits m e Hb) as [Hd He].
    set (V := (inject_Z (Zpos m) * 2 ^ e)%Q) in *.
    set (X1 := f64.of_f32 _) in *.
    pose proof (digits2_pos_spec m) as [_ Hm].
    assert (2 ^ (Zpos (digits2_pos m) + 2) = 4 * 2 ^ Zpos (digits2_pos m)) as Hp4
      by (rewrite Z.pow_add_r by lia; lia).
    assert (Zpos (digits2_pos (3 * m)) <= Zpos (digits2_pos m) + 2) as Hd3.
    { apply (Zdigits2_bound (Zpos (3 * m))); lia. }
    destruct (datum_exists f64.prec f64.emax s (m~0) e) as [X2 H2].
    { simpl digits2_pos. unfold fexp, emin, f64.prec, f64.emax. lia. }
    { simpl digits2_pos. unfold fexp, emin, f64.prec, f64.emax. lia. }
    destruct (datum_exists f64.prec f64.emax s (3 * m) e) as [X3 H3].
    { unfold fexp, emin, f64.prec, f64.emax. lia. }
    { unfold fexp, emin, f64.prec, f64.emax. lia. }
    assert (datum f64.prec f64.emax s (V + V) X2) as H2'.
    { eapply datum_proper; [|exact H2]. rewrite inject_Z_xO. unfold V. ring. }
    assert (datum f64.prec f64.emax s (V + V + V) X3) as H3'.
    { eapply datum_proper; [|exact H3]. rewrite Pos2Z.inj_mul, inject_Z_mult.
      change (inject_Z 3) with 3%Q. unfold V. ring. }
    assert (datum f64.prec f64.emax s (3 * V) X3) as H3''.
    { eapply datum_proper; [|exact H3']. ring. }
    assert (datum f32.prec f32.emax s V (S754_finite s m e)) as Hv
      by (by exists m, e).
    assert (2 ^ (-1000) <= V)%Q as Hlow.
    { unfold V. pose proof (pow2_pos e) as Hpe.
      assert (2 ^ (-1000) <= 2 ^ e)%Q by (apply pow2_le; lia).
      assert (1 <= inject_Z (Zpos m))%Q
        by (change 1%Q with (inject_Z 1); rewrite <- Zle_Qle; lia).
      nra. }
    unfold f64.add.
    rewrite (SFadd_datum f64.prec f64.emax ltac:(done) s V V X1 X1 X2 H1 H1 H2').
    rewrite (SFadd_datum f64.prec f64.emax ltac:(done) s (V + V) V X2 X1 X3 H2' H1 H3').
    rewrite (div_3_datum s V X3 X1 H3'' H1 Hlow).
    exact (to_f32_datum s V X1 _ H1 Hv).
Qed.

Lemma get_average_grey_witness :
  get_average colour_samples.specks = colour_samples.speck.
Proof. exact (get_average_grey colour_samples.speck eq_refl). Defined.

(** X5: a colour divided by the count 1 is the same colour, bit for bit
    (infinities and NaN included): the reciprocal is [1.0f], and a product
    by it rounds nothing off. *)
Theorem color3_div_by_one (c : color3) :
  valid_binary f32.prec f32.emax (r c) = true ->
  valid_binary f32.prec f32.emax (g c) = true ->
  valid_binary f32.prec f32.emax (b c) = true ->
  color3_div c 1 = c.
Proof.
  intros Hr Hg Hb. unfold color3_div.
  change (f32.div f32.one (f32.of_Z 1)) with f32.one. cbv zeta.
  rewrite !mul_one by done. by destruct c.
Qed.

Lemma color3_div_by_one_witness :
  color3_div colour_samples.white 1 = colour_samples.white.
Proof.
  exact (color3_div_by_one colour_samples.white eq_refl eq_refl eq_refl).
Defined.

(** ** [type.hpp]: the sum of two colours *)

(** IEEE addition does not mind the order of its operands. *)
Lemma SFadd_comm (prec emax : Z) (x y : spec_float) :
  SFadd prec emax x y = SFadd prec emax y x.
Proof.
  destruct x as [sx|sx| |sx mx ex], y as [sy|sy| |sy my ey]; try reflexivity.
  - by destruct sx, sy.
  - by destruct sx, sy.
  - unfold SFadd. by rewrite (Z.min_comm ex ey), Z.add_comm.
Qed.

(** X1: the sum of two colours does not depend on their order, whatever the
    channels hold (infinities and NaN included), and [+=] leaves in its
    left operand what [+] returns; but the sum does depend on how three
    colours are grouped: 1 plus two specks of [2^-24] is 1 when the specks
    are added one by one, and the next [float] when they are added
    together. *)
Theorem color3_add_commutes_not_associates :
  (forall c other : color3, color3_add c other = color3_add other c) /\
  (forall c other : color3, color3_add_assign c other = color3_add c other) /\
  color3_add (color3_add colour_samples.white colour_samples.specks)
             colour_samples.specks
  = colour_samples.white /\
  color3_add colour_samples.white
             (color3_add colour_samples.specks colour_samples.specks)
  <> colour_samples.white.
Proof.
  split.
  { intros c other. unfold color3_add, f32.add.
    by rewrite (SFadd_comm _ _ (r c)), (SFadd_comm _ _ (g c)), (SFadd_comm _ _ (b c)). }
  split; [reflexivity|].
  split; [by vm_compute|].
  intros H. apply (f_equal r) in H. vm_compute in H. discriminate H.
Qed.

(** ** [type.hpp]: a colour divided by no count *)

(** A product by [+infinity]: an infinity of the sign of the other
    factor, or NaN when that is a zero or NaN. *)
Lemma mul_infinity (x : spec_float) :
  f32.finite (f32.mul x (S754_infinity false)) = false /\
  (forall (s : bool) (m : positive) (e : Z),
      x = S754_finite s m e -> f32.mul x (S754_infinity false) = S754_infinity s) /\
  (forall s : bool,
      x = S754_infinity s -> f32.mul x (S754_infinity false) = S754_infinity s) /\
  (forall s : bool, x = S754_zero s -> f32.mul x (S754_infinity false) = S754_nan) /\
  (x = S754_nan -> f32.mul x (S754_infinity false) = S754_nan).
Proof.
  split; [by destruct x as [s|s| |s m e]|].
  split; [intros s m e ->; simpl; by destruct s|].
  split; [intros s ->; simpl; by destruct s|].
  split; [by intros s ->|by intros ->].
Qed.

(** X6: a colour divided by the count 0: nothing is thrown and nothing traps;
    the reciprocal is [+infinity], and no channel of the quotient is a
    number: a channel that was 0 or NaN is NaN, any other an infinity of
    its sign. *)
Theorem color3_div_by_zero (c : color3) :
  f32.div f32.one (f32.of_Z 0) = S754_infinity false /\
  forall ch : color3 -> spec_float,
    ch = r \/ ch = g \/ ch = b ->
    f32.finite (ch (color3_div c 0)) = false /\
    (forall (s : bool) (m : positive) (e : Z),
        ch c = S754_finite s m e -> ch (color3_div c 0) = S754_infinity s) /\
    (forall s : bool,
        ch c = S754_infinity s -> ch (color3_div c 0) = S754_infinity s) /\
    (forall s : bool, ch c = S754_zero s -> ch (color3_div c 0) = S754_nan) /\
    (ch c = S754_nan -> ch (color3_div c 0) = S754_nan).
Proof.
  split; [reflexivity|].
  unfold color3_div. change (f32.div f32.one (f32.of_Z 0)) with (S754_infinity false).
  intros ch [->|[->| ->]]; cbn [r g b]; apply mul_infinity.
Qed.

(** ** [type.hpp]: what the printed record tells *)

Lemma length_append (s t : string) :
  String.length (s +:+ t) = (String.length s + String.length t)%nat.
Proof. induction s as [|c s IH]; simpl; [done|by rewrite IH]. Qed.

(** A record that ends in "Active" is not one that ends in "Inactive",
    whatever comes before: the capital tells. *)
Lemma active_ending (f1 f2 : string) :
  f1 +:+ "Active" +:+ newline <> f2 +:+ "Inactive" +:+ newline.
Proof.
  intros H.
  pose proof (f_equal String.length H) as Hlen.
  rewrite !length_append in Hlen. simpl in Hlen.
  pose proof (String.append_correct2 f1 ("Active" +:+ newline) 0) as H1.
  pose proof (String.append_correct2 f2 ("Inactive" +:+ newline) 2) as H2.
  change (String.get 0 ("Active" +:+ newline)) with (Some (Ascii.ascii_of_nat 65)) in H1.
  change (String.get 2 ("Inactive" +:+ newline)) with (Some (Ascii.ascii_of_nat 97)) in H2.
  change (0 + String.length f1)%nat with (String.length f1) in H1.
  replace (2 + String.length f2)%nat with (String.length f1) in H2 by lia.
  rewrite H in H1. rewrite <- H1 in H2. discriminate H2.
Qed.

(** The printed record, as what comes before the property and the
    property. *)
Lemma print_point_ending (show_float : spec_float -> string) (p : point_t) :
  exists fields : string,
    print_point show_float p
    = fields +:+ show_property (property p) +:+ newline.
Proof.
  unfold print_point.
  rewrite <- !string_append_assoc.
  rewrite (string_append_assoc _ _ newline).
  eexists. reflexivity.
Qed.

(** X7: the printed record tells an active point from any other, however a
    [float] is printed: the records of an active point and of one that is
    not active differ. *)
Theorem print_point_tells_active (show_float : spec_float -> string)
    (p q : point_t) :
  property p = active -> property q <> active ->
  print_point show_float p <> print_point show_float q.
Proof.
  intros Hp Hq H.
  destruct (print_point_ending show_float p) as [f1 H1].
  destruct (print_point_ending show_float q) as [f2 H2].
  rewrite H1, H2, Hp, (show_property_not_active _ Hq) in H.
  by apply (active_ending f1 f2).
Qed.

Lemma print_point_tells_active_witness :
  property colour_samples.active_point = active /\
  print_point (fun _ => "0") colour_samples.active_point
  <> print_point (fun _ => "0") colour_samples.invalid_point.
Proof.
  split; [reflexivity|].
  apply (print_point_tells_active (fun _ => "0") colour_samples.active_point
           colour_samples.invalid_point); [reflexivity|discriminate].
Defined.

(** ** [type.hpp]: the range of the intensity *)

(** A [double] below 1 converts to a [float] that is at most 1. *)
Lemma to_f32_below_one (d : spec_float) :
  nonneg d = true -> (value d < 1)%Q ->
  nonneg (f64.to_f32 d) = true /\ (value (f64.to_f32 d) <= 1)%Q.
Proof.
  intros Hn Hlt. destruct d as [s|s| |s m e]; try done.
  destruct s; [done|]. unfold f64.to_f32. simpl cond_Zopp. simpl binary_normalize.
  unfold value, cond_Zopp in Hlt.
    pose proof (digits_le (Zpos m) e 0 ltac:(lia)) as Hd.
    change (2 ^ 0)%Q with 1%Q in Hd. specialize (Hd Hlt).
    destruct (binary_round_rounded f32.prec f32.emax ltac:(done) false m e)
      as [Hr _].
    simpl Zdigits2 in Hd.
    set (e1 := fexp f32.prec f32.emax (Zpos (digits2_pos m) + e)) in *.
    assert (e1 <= -24) as He1 by (unfold e1, fexp, emin, f32.prec, f32.emax; lia).
    destruct (rounded_value f32.prec f32.emax _ e1 0 _ Hr)
      as (Hn' & m2 & Hm2 & Hv & H1 & _);
      [by change (2 ^ 0)%Q with 1%Q|lia|done|].
    split; [done|]. rewrite Hv.
    pose proof (pow2_pos e1) as Hp1. pose proof (pow2_pos (- e1)) as Hpn.
    assert (2 ^ (- e1) * 2 ^ e1 == 1)%Q as Hone.
    { rewrite <- pow2_plus. replace (- e1 + e1) with 0 by lia. reflexivity. }
    assert (m2 <= 2 ^ (- e1)) as Hm.
    { assert (inject_Z m2 < inject_Z (2 ^ (- e1) + 1))%Q as Hq.
      { rewrite inject_Z_plus, pow2_inject by lia. change (inject_Z 1) with 1%Q.
        set (a := inject_Z m2) in *. set (P := (2 ^ (- e1))%Q) in *.
        set (E := (2 ^ e1)%Q) in *.
        set (V := (inject_Z (Zpos m) * 2 ^ e)%Q) in *.
        assert (a * E < (P + 1) * E)%Q as Hc by nra.
        apply Qnot_le_lt. intros Hge.
        assert ((P + 1) * E <= a * E)%Q by (apply Qmult_le_compat_r; lra). lra. }
      rewrite <- Zlt_Qlt in Hq. lia. }
    rewrite Zle_Qle, pow2_inject in Hm by lia.
    set (a := inject_Z m2) in *. set (P := (2 ^ (- e1))%Q) in *.
    set (E := (2 ^ e1)%Q) in *.
    assert (a * E <= P * E)%Q by (apply Qmult_le_compat_r; lra). lra.
Qed.

(** X2: for a colour with channels in [0, 1] the intensity is a number in
    [0, 1] again: the round-offs never carry it past 1, although the three
    weights as [double]s do not add up to 1 exactly. Black has intensity
    0 and white intensity 1. *)
Theorem to_intensity_in_unit_interval (c : color3) :
  f32.finite (r c) = true -> f32.finite (g c) = true -> f32.finite (b c) = true ->
  (0 <= value (r c) <= 1)%Q -> (0 <= value (g c) <= 1)%Q ->
  (0 <= value (b c) <= 1)%Q ->
  nonneg (to_intensity c) = true /\
  (0 <= value (to_intensity c) <= 1)%Q /\
  to_intensity colour_samples.nothing = f32.zero /\
  to_intensity colour_samples.white = f32.one.
Proof.
  intros Fr Fg Fb Hr Hg Hb.
  destruct (of_f32_exact (r c) Fr (finite_nonneg _ Fr (proj1 Hr))) as [NR ER].
  destruct (of_f32_exact (g c) Fg (finite_nonneg _ Fg (proj1 Hg))) as [NG EG].
  destruct (of_f32_exact (b c) Fb (finite_nonneg _ Fb (proj1 Hb))) as [NB EB].
  destruct (intensity_double _ _ _ _ _ _ NR NG NB ER EG EB Hr Hg Hb)
    as (ND & UD & LD).
  rewrite value_lit_0_2126, value_lit_0_7152, value_lit_0_0722 in UD, LD.
  unfold to_intensity at 1 2 3. set (d := f64.add _ _) in *.
  destruct Hr as [Hr0 Hr1], Hg as [Hg0 Hg1], Hb as [Hb0 Hb1].
  assert (nonneg (f64.to_f32 d) = true /\ (value (f64.to_f32 d) <= 1)%Q)
    as [NI UI].
  { destruct (Qlt_le_dec (value d) 1) as [Hlt|Hge].
    - by apply to_f32_below_one.
    - destruct (to_f32_one d ND Hge) as [NI EI]; [lra|].
      split; [done|]. rewrite EI. lra. }
  split; [done|]. split; [split; [by apply value_nonneg|done]|].
  split; by vm_compute.
Qed.

Lemma to_intensity_in_unit_interval_witness :
  nonneg (to_intensity samples.red) = true /\
  (0 <= value (to_intensity samples.red) <= 1)%Q.
Proof.
  destruct (to_intensity_in_unit_interval samples.red) as (H1 & H2 & _);
    [reflexivity|reflexivity|reflexivity
    |split; by vm_compute|split; by vm_compute|split; by vm_compute|].
  exact (conj H1 H2).
Defined.

(** ** [type.hpp]: a channel that is NaN *)

Lemma SFadd_nan_r (prec emax : Z) (x : spec_float) :
  SFadd prec emax x S754_nan = S754_nan.
Proof. by destruct x. Qed.

Lemma SFmul_nan_r (prec emax : Z) (x : spec_float) :
  SFmul prec emax x S754_nan = S754_nan.
Proof. by destruct x. Qed.

(** X24: a colour with a channel that is NaN has no intensity and no average:
    both are NaN, whatever the other channels hold; no comparison or
    clamp on the way hides the NaN. *)
Theorem nan_channel_propagates (c : color3) :
  r c = S754_nan \/ g c = S754_nan \/ b c = S754_nan ->
  to_intensity c = S754_nan /\ get_average c = S754_nan.
Proof.
  unfold to_intensity, get_average, f64.add, f64.mul, f64.div.
  intros [H|[H|H]]; rewrite H; cbn [f64.of_f32];
    rewrite ?SFmul_nan_r, ?SFadd_nan_r; cbn [SFadd SFdiv];
    rewrite ?SFadd_nan_r; by split.
Qed.

Lemma nan_channel_propagates_witness :
  to_intensity colour_samples.nan_red = S754_nan /\
  get_average colour_samples.nan_red = S754_nan.
Proof.
  apply (nan_channel_propagates colour_samples.nan_red). left. reflexivity.
Defined.

(** ** [type.hpp]: the average of the channels *)

Lemma value_lit_3_0 : (value lit_3_0 == 3)%Q.
Proof. reflexivity. Qed.

(** The mean as [get_average] evaluates it in [double]: the mean of the
    three numbers, up to three round-offs. *)
Lemma average_double (vr vg vb : Q) (R G B : spec_float) :
  nonneg R = true -> nonneg G = true -> nonneg B = true ->
  (value R == vr)%Q -> (value G == vg)%Q -> (value B == vb)%Q ->
  (0 <= vr <= 1)%Q -> (0 <= vg <= 1)%Q -> (0 <= vb <= 1)%Q ->
  let A := ((vr + vg + vb) * (1 # 3))%Q in
  close A (A * (4 # 9007199254740992) + (8 # 404804506614621236704990693437834614099113299528284236713802716054860679135990693783920767402874248990374155728633623822779617474771586953734026799881477019843034848553132722728933815484186432682479535356945490137124014966849385397236206711298319112681620113024717539104666829230461005064372655017292012526615415482186989568))
        (f64.div (f64.add (f64.add R G) B) lit_3_0).
Proof.
  intros HR HG HB ER EG EB [Hr0 Hr1] [Hg0 Hg1] [Hb0 Hb1] A. unfold A.
  assert (2 ^ (- f64.prec) == 1 # 9007199254740992)%Q as Eu by reflexivity.
  assert (2 ^ (emin f64.prec f64.emax - 1) == 1 # 404804506614621236704990693437834614099113299528284236713802716054860679135990693783920767402874248990374155728633623822779617474771586953734026799881477019843034848553132722728933815484186432682479535356945490137124014966849385397236206711298319112681620113024717539104666829230461005064372655017292012526615415482186989568)%Q as Ee
    by reflexivity.
  assert (2 ^ 1 == 2)%Q as P1 by reflexivity.
  assert (2 ^ 2 == 4)%Q as P2 by reflexivity.
  destruct (SFadd_mixed f64.prec f64.emax ltac:(done) R G 2)
    as (N1 & U1 & L1); [done|done|done|rewrite ER, EG, P2; lra|done|].
  fold f64.add in N1, U1, L1. rewrite Eu, Ee, ER, EG in U1, L1.
  set (s1 := f64.add R G) in *.
  destruct (SFadd_mixed f64.prec f64.emax ltac:(done) s1 B 2)
    as (N2 & U2 & L2); [done|done|done|rewrite EB, P2; lra|done|].
  fold f64.add in N2, U2, L2. rewrite Eu, Ee, EB in U2, L2.
  set (s2 := f64.add s1 B) in *.
  assert (value s2 / value lit_3_0 == value s2 * (1 # 3))%Q as Ediv
    by (rewrite value_lit_3_0; field).
  destruct (SFdiv_mixed f64.prec f64.emax ltac:(done) s2 lit_3_0 1)
    as (N3 & U3 & L3); [done|done|done|by rewrite value_lit_3_0
                       |rewrite Ediv, P1; lra|done|].
  fold f64.div in N3, U3, L3. rewrite Eu, Ee, Ediv in U3, L3.
  split; [done|]. split; lra.
Qed.

(** X3: for a colour with channels in [0, 1] the average is a number in
    [0, 1] that equals the mean [(r + g + b) / 3] up to the round-off of
    the [float] it is returned as: within [2^-24] of the mean, and within
    the fraction [2^-23] of the mean (plus [2^-149], the least positive
    [float]). *)
Theorem get_average_mean (c : color3) :
  f32.finite (r c) = true -> f32.finite (g c) = true -> f32.finite (b c) = true ->
  (0 <= value (r c) <= 1)%Q -> (0 <= value (g c) <= 1)%Q ->
  (0 <= value (b c) <= 1)%Q ->
  let A := ((value (r c) + value (g c) + value (b c)) * (1 # 3))%Q in
  nonneg (get_average c) = true /\
  (0 <= value (get_average c) <= 1)%Q /\
  (Qabs (value (get_average c) - A) <= 1 # 16777216)%Q /\
  (Qabs (value (get_average c) - A)
   <= A * (1 # 8388608) + (1 # 713623846352979940529142984724747568191373312))%Q.
Proof.
  intros Fr Fg Fb Hr Hg Hb A. unfold A.
  destruct (of_f32_exact (r c) Fr (finite_nonneg _ Fr (proj1 Hr))) as [NR ER].
  destruct (of_f32_exact (g c) Fg (finite_nonneg _ Fg (proj1 Hg))) as [NG EG].
  destruct (of_f32_exact (b c) Fb (finite_nonneg _ Fb (proj1 Hb))) as [NB EB].
  destruct (average_double _ _ _ _ _ _ NR NG NB ER EG EB Hr Hg Hb)
    as (ND & UD & LD).
  unfold get_average.
  set (d := f64.div _ _) in *.
  destruct Hr as [Hr0 Hr1], Hg as [Hg0 Hg1], Hb as [Hb0 Hb1].
  rewrite !Qabs_Qle_condition.
  destruct (Qlt_le_dec (value d) 1) as [Hlt|Hge].
  - destruct (to_f32_mixed d ND) as (NI & UI & LI).
    { eapply Qlt_le_trans; [exact Hlt|]. by apply (pow2_le 0 104). }
    destruct (to_f32_close d 0 ND) as (_ & UA & LA); [exact Hlt|done|done|].
    destruct (to_f32_below_one d ND Hlt) as [_ H1].
    assert (2 ^ (0 - 24) * (1 # 2) == 1 # 33554432)%Q as E25 by reflexivity.
    rewrite E25 in UA, LA.
    split; [done|]. split; [split; [by apply value_nonneg|done]|].
    split; split; lra.
  - destruct (to_f32_one d ND Hge) as [NI EI]; [lra|].
    split; [done|]. rewrite EI. split; [lra|]. split; split; lra.
Qed.

Lemma get_average_mean_witness :
  nonneg (get_average samples.red) = true /\
  (0 <= value (get_average samples.red) <= 1)%Q.
Proof.
  destruct (get_average_mean samples.red) as (H1 & H2 & _);
    [reflexivity|reflexivity|reflexivity
    |split; by vm_compute|split; by vm_compute|split; by vm_compute|].
  exact (conj H1 H2).
Defined.

(** ** [test_color_icp.cpp]: the point filters *)

Section FilterLemmas.
Context {Header PointT : Type}.
Variable point0 : PointT.
Variable skip : PointT -> bool.

(** The positions of a list and of what is appended to it. *)
Lemma kept_from_app (i : nat) (l1 l2 : list PointT) :
  pcl.kept_from skip i (l1 ++ l2)
  = pcl.kept_from skip i l1 ++ pcl.kept_from skip (i + length l1) l2.
Proof.
  revert i. induction l1 as [|p l1 IH]; intros i; simpl.
  - by rewrite Nat.add_0_r.
  - rewrite IH. replace (S i + length l1)%nat with (i + S (length l1))%nat by lia.
    by destruct (skip p).
Qed.

(** As many positions as elements let through. *)
Lemma length_kept_from (i : nat) (l : list PointT) :
  length (pcl.kept_from skip i l) = length (filter (fun p => skip p = false) l).
Proof.
  revert i. induction l as [|p l IH]; intros i; [done|].
  simpl. rewrite filter_cons. destruct (skip p) eqn:Hs.
  - rewrite decide_False by done. apply IH.
  - rewrite decide_True by done. simpl. by rewrite IH.
Qed.

(** One more element: what is let through. *)
Lemma filter_snoc (l : list PointT) (p : PointT) :
  filter (fun p => skip p = false) (l ++ [p])
  = if skip p then filter (fun p => skip p = false) l
    else filter (fun p => skip p = false) l ++ [p].
Proof.
  rewrite filter_app, filter_cons, filter_nil. destruct (skip p) eqn:Hs.
  - rewrite decide_False by done. by rewrite app_nil_r.
  - by rewrite decide_True by done.
Qed.

(** One more element: the positions. *)
Lemma kept_from_snoc (l : list PointT) (p : PointT) :
  pcl.kept_from skip 0 (l ++ [p])
  = if skip p then pcl.kept_from skip 0 l
    else pcl.kept_from skip 0 l ++ [length l].
Proof.
  rewrite kept_from_app. simpl. destruct (skip p); [by rewrite app_nil_r|done].
Qed.

(** The copying loop, from any position on: what was let through so far
    is at the front of the output, what is still to read is untouched,
    also when input and output are one cloud. *)
Lemma copy_unless_spec (cloud_in cloud_out : nat) (orig : list PointT) (k : nat) :
  forall (i j : nat) (m : list (pcl.PointCloud Header PointT)) (index : list Z)
         (cin cout : pcl.PointCloud Header PointT),
    (i + k = length orig)%nat ->
    m !! cloud_in = Some cin -> length (pcl.points cin) = length orig ->
    drop i (pcl.points cin) = drop i orig ->
    m !! cloud_out = Some cout -> length (pcl.points cout) = length orig ->
    take j (pcl.points cout) = filter (fun p => skip p = false) (take i orig) ->
    length index = length orig ->
    take j index
    = (fun i : nat => pcl.to_int (Z.of_nat i)) <$> pcl.kept_from skip 0 (take i orig) ->
    j = length (filter (fun p => skip p = false) (take i orig)) ->
    exists m' index' cin' cout',
      pcl.copy_unless skip cloud_in cloud_out (seq i k) m index j
      = Some (m', index', length (filter (fun p => skip p = false) orig)) /\
      m' !! cloud_in = Some cin' /\ length (pcl.points cin') = length orig /\
      m' !! cloud_out = Some cout' /\ length (pcl.points cout') = length orig /\
      take (length (filter (fun p => skip p = false) orig)) (pcl.points cout')
      = filter (fun p => skip p = false) orig /\
      pcl.set_points [] cout' = pcl.set_points [] cout /\
      length index' = length orig /\
      take (length (filter (fun p => skip p = false) orig)) index'
      = (fun i : nat => pcl.to_int (Z.of_nat i)) <$> pcl.kept_from skip 0 orig /\
      length m' = length m /\
      forall c, c <> cloud_out -> m' !! c = m !! c.
Proof.
  induction k as [|k IH];
    intros i j m index cin cout Hik Hcin Hlin Hdrop Hcout Hlout Htake Hlidx Hidx Hj.
  - assert (take i orig = orig) as Hall by (apply take_ge; lia).
    rewrite Hall in *. subst j. simpl.
    exists m, index, cin, cout. done.
  - assert (i < length orig)%nat as Hi by lia.
    destruct (lookup_lt_is_Some_2 orig i Hi) as [p Hp].
    assert (pcl.points cin !! i = Some p) as Hpin.
    { rewrite <- (Nat.add_0_r i), <- lookup_drop, Hdrop, lookup_drop, Nat.add_0_r.
      done. }
    assert (drop (S i) (pcl.points cin) = drop (S i) orig) as Hdrop'.
    { rewrite (drop_S _ _ _ Hpin), (drop_S _ _ _ Hp) in Hdrop. congruence. }
    assert (length (take i orig) = i) as Hlt by (rewrite length_take; lia).
    assert (j <= i)%nat as Hji.
    { subst j. etrans; [apply length_filter|]. lia. }
    simpl. unfold pcl.load. rewrite Hcin. simpl. rewrite Hpin. simpl.
    pose proof (take_S_r _ _ _ Hp) as HS.
    pose proof (filter_snoc (take i orig) p) as Hf.
    pose proof (kept_from_snoc (take i orig) p) as Hk. rewrite Hlt in Hk.
    rewrite <- HS in Hf, Hk.
    destruct (skip p) eqn:Hs.
    + apply (IH (S i) j m index cin cout); try done; try lia.
      * by rewrite Hf.
      * by rewrite Hk.
      * by rewrite Hf.
    + assert (j < length (pcl.points cout))%nat as Hjout by lia.
      assert (j < length index)%nat as Hjidx by lia.
      pose proof (lookup_lt_Some _ _ _ Hcout) as Hco.
      unfold pcl.store. rewrite Hcout. simpl.
      rewrite option_guard_True by done. simpl.
      unfold pcl.store_index. rewrite option_guard_True by done. simpl.
      set (cout1 := pcl.set_points (<[j:=p]> (pcl.points cout)) cout).
      set (m1 := <[cloud_out:=cout1]> m).
      set (index1 := <[j:=pcl.to_int (Z.of_nat i)]> index).
      assert (m1 !! cloud_out = Some cout1) as Hcout1
        by (by apply list_lookup_insert_eq).
      assert (take (S j) (pcl.points cout1)
              = filter (fun p => skip p = false) (take (S i) orig)) as Htake1.
      { rewrite Hf. simpl.
        rewrite (take_S_r _ _ p) by (by apply list_lookup_insert_eq).
        rewrite take_insert_ge by lia. by rewrite Htake. }
      assert (take (S j) index1
              = (fun i : nat => pcl.to_int (Z.of_nat i))
                  <$> pcl.kept_from skip 0 (take (S i) orig)) as Hidx1.
      { rewrite Hk, fmap_app. simpl. unfold index1.
        rewrite (take_S_r _ _ (pcl.to_int (Z.of_nat i)))
          by (by apply list_lookup_insert_eq).
        rewrite take_insert_ge by lia. by rewrite Hidx. }
      assert (S j = length (filter (fun p => skip p = false) (take (S i) orig)))
        as Hj1 by (rewrite Hf, length_app; simpl; lia).
      assert (exists cin1, m1 !! cloud_in = Some cin1 /\
                length (pcl.points cin1) = length orig /\
                drop (S i) (pcl.points cin1) = drop (S i) orig)
        as (cin1 & Hcin1 & Hlin1 & Hdrop1).
      { destruct (decide (cloud_in = cloud_out)) as [->|Hne].
        - exists cout1. split; [done|]. assert (cin = cout) as -> by congruence.
          simpl. rewrite length_insert. split; [done|].
          rewrite drop_insert_lt by lia. done.
        - exists cin. split; [|done]. unfold m1.
          rewrite list_lookup_insert_ne by congruence. done. }
      destruct (IH (S i) (S j) m1 index1 cin1 cout1)
        as (m' & index' & cin' & cout' & Hrun & H1 & H2 & H3 & H4 & H5 & H6 & H7
            & H8 & H9 & H10); try done; try lia.
      { simpl. by rewrite length_insert. }
      { unfold index1. by rewrite length_insert. }
      exists m', index', cin', cout'. split; [exact Hrun|].
      split; [done|]. split; [done|]. split; [done|]. split; [done|].
      split; [done|]. split; [by rewrite H6|]. split; [done|].
      split; [done|]. split; [by rewrite H9; unfold m1; rewrite length_insert|].
      intros c Hc. rewrite H10 by done. unfold m1.
      by rewrite list_lookup_insert_ne by congruence.
Qed.

(** The first lines of a filter leave the input as it is and give the
    output the input's size and header. *)
Lemma prepare_output_spec (m : list (pcl.PointCloud Header PointT))
    (cloud_in cloud_out : nat) (cin cout : pcl.PointCloud Header PointT) :
  m !! cloud_in = Some cin -> m !! cloud_out = Some cout ->
  exists m1 cout1,
    pcl.prepare_output point0 m cloud_in cloud_out = Some m1 /\
    m1 !! cloud_in = Some cin /\ m1 !! cloud_out = Some cout1 /\
    length (pcl.points cout1) = length (pcl.points cin) /\
    pcl.header cout1 = pcl.header cin /\
    pcl.sensor_origin_ cout1 = pcl.sensor_origin_ cout /\
    pcl.sensor_orientation_ cout1 = pcl.sensor_orientation_ cout /\
    length m1 = length m /\
    forall c, c <> cloud_out -> m1 !! c = m !! c.
Proof.
  intros Hcin Hcout. unfold pcl.prepare_output.
  pose proof (lookup_lt_Some _ _ _ Hcout) as Hco.
  destruct (decide (cloud_in <> cloud_out)) as [Hne|Heq].
  - rewrite Hcin, Hcout. simpl. unfold pcl.resize_points.
    rewrite list_lookup_insert_eq by done. simpl.
    rewrite list_insert_insert_eq.
    eexists _, _. split; [reflexivity|].
    split; [by rewrite list_lookup_insert_ne by congruence|].
    split; [by apply list_lookup_insert_eq|].
    simpl. rewrite length_resize, length_insert.
    repeat (split; [done|]).
    intros c Hc. by rewrite list_lookup_insert_ne by congruence.
  - assert (cloud_in = cloud_out) as -> by (destruct (decide (cloud_in = cloud_out)); [done|by destruct Heq]).
    assert (cin = cout) as -> by congruence.
    exists m, cout. done.
Qed.

(** The last lines of a filter cut the output and the index down to the
    [j] elements the loop wrote. *)
Lemma shrink_output_spec (m : list (pcl.PointCloud Header PointT))
    (cloud_in cloud_out : nat) (index : list Z) (j : nat)
    (cin cout : pcl.PointCloud Header PointT) :
  m !! cloud_in = Some cin -> m !! cloud_out = Some cout ->
  length (pcl.points cout) = length (pcl.points cin) ->
  length index = length (pcl.points cin) ->
  (j <= length (pcl.points cin))%nat ->
  exists m',
    pcl.shrink_output point0 m cloud_in cloud_out index j = Some (m', take j index) /\
    m' !! cloud_out
    = Some (pcl.Build_PointCloud (pcl.header cout) (take j (pcl.points cout))
              (pcl.to_uint32 (Z.of_nat j)) 1 true
              (pcl.sensor_origin_ cout) (pcl.sensor_orientation_ cout)) /\
    length m' = length m /\
    forall c, c <> cloud_out -> m' !! c = m !! c.
Proof.
  intros Hcin Hcout Hlout Hlidx Hj. unfold pcl.shrink_output, pcl.size.
  pose proof (lookup_lt_Some _ _ _ Hcout) as Hco.
  rewrite Hcin. simpl.
  destruct (decide (j <> length (pcl.points cin))) as [Hne|Heq].
  - unfold pcl.resize_points. rewrite Hcout. simpl.
    rewrite list_lookup_insert_eq by done. simpl.
    rewrite list_insert_insert_eq, !resize_le by lia.
    eexists. split; [reflexivity|].
    split; [by apply list_lookup_insert_eq|].
    split; [by rewrite length_insert|].
    intros c Hc. by rewrite list_lookup_insert_ne by congruence.
  - assert (j = length (pcl.points cin)) as ->
      by (destruct (decide (j = length (pcl.points cin))); [done|by destruct Heq]).
    simpl. rewrite Hcout. simpl.
    rewrite !take_ge by lia.
    eexists. split; [reflexivity|].
    split; [by apply list_lookup_insert_eq|].
    split; [by rewrite length_insert|].
    intros c Hc. by rewrite list_lookup_insert_ne by congruence.
Qed.

(** A filter that tests every point: the output holds the points let
    through, in their order, the index their positions in the input;
    whether or not the output is the input itself. *)
Lemma remove_unless_spec (m : list (pcl.PointCloud Header PointT))
    (cloud_in cloud_out : nat) (index : list Z)
    (cin cout : pcl.PointCloud Header PointT) :
  m !! cloud_in = Some cin -> m !! cloud_out = Some cout ->
  exists m' index' cout',
    pcl.remove_unless point0 skip m cloud_in cloud_out index = Some (m', index') /\
    m' !! cloud_out = Some cout' /\
    pcl.points cout' = filter (fun p => skip p = false) (pcl.points cin) /\
    index' = (fun i : nat => pcl.to_int (Z.of_nat i))
               <$> pcl.kept_from skip 0 (pcl.points cin) /\
    pcl.header cout' = pcl.header cin /\
    pcl.width cout' = pcl.to_uint32 (Z.of_nat (length (pcl.points cout'))) /\
    pcl.height cout' = 1 /\ pcl.is_dense cout' = true /\
    pcl.sensor_origin_ cout' = pcl.sensor_origin_ cout /\
    pcl.sensor_orientation_ cout' = pcl.sensor_orientation_ cout /\
    length m' = length m /\
    forall c, c <> cloud_out -> m' !! c = m !! c.
Proof.
  intros Hcin Hcout. unfold pcl.remove_unless.
  destruct (prepare_output_spec m cloud_in cloud_out cin cout Hcin Hcout)
    as (m1 & cout1 & -> & Hcin1 & Hcout1 & Hl1 & Hh1 & Ho1 & Hq1 & Hlen1 & Hfr1).
  simpl. unfold pcl.size at 1. rewrite Hcin1. simpl.
  set (orig := pcl.points cin) in *.
  destruct (copy_unless_spec cloud_in cloud_out orig (length orig) 0 0 m1
              (resize (length orig) 0 index) cin cout1)
    as (m2 & index2 & cin2 & cout2 & -> & Hcin2 & Hlin2 & Hcout2 & Hlout2 & Htake2
        & Hsame2 & Hlidx2 & Hidx2 & Hlen2 & Hfr2); try done.
  { by rewrite length_resize. }
  simpl.
  set (j := length (filter (fun p => skip p = false) orig)) in *.
  assert (j <= length orig)%nat as Hj by apply length_filter.
  destruct (shrink_output_spec m2 cloud_in cloud_out index2 j cin2 cout2)
    as (m3 & -> & Hcout3 & Hlen3 & Hfr3); try done; try lia.
  eexists _, _, _. split; [reflexivity|]. split; [exact Hcout3|].
  simpl. rewrite Htake2, Hidx2.
  assert (pcl.header cout2 = pcl.header cout1 /\
          pcl.sensor_origin_ cout2 = pcl.sensor_origin_ cout1 /\
          pcl.sensor_orientation_ cout2 = pcl.sensor_orientation_ cout1)
    as (-> & -> & ->).
  { destruct cout2, cout1. simpl in *. by inversion Hsame2. }
  repeat (split; [done|]). split; [lia|].
  intros c Hc. by rewrite Hfr3, Hfr2, Hfr1.
Qed.

(** A position the index holds: in range, of a point that was let
    through, which is the point at the same place of the output. *)
Lemma kept_from_lookup (l : list PointT) :
  forall (i k a : nat),
    pcl.kept_from skip i l !! k = Some a ->
    (i <= a)%nat /\
    exists p, l !! (a - i)%nat = Some p /\ skip p = false /\
              filter (fun p => skip p = false) l !! k = Some p.
Proof.
  induction l as [|p l IH]; intros i k a Hk; [done|].
  simpl in Hk. rewrite filter_cons. destruct (skip p) eqn:Hs.
  - rewrite decide_False by done.
    destruct (IH _ _ _ Hk) as (Hle & q & Hq & Hsq & Hf).
    split; [lia|]. exists q. split; [|done].
    replace (a - i)%nat with (S (a - S i)) by lia. done.
  - rewrite decide_True by done. destruct k as [|k].
    + simpl in Hk. injection Hk as <-. split; [lia|]. exists p.
      rewrite Nat.sub_diag. done.
    + simpl in Hk. destruct (IH _ _ _ Hk) as (Hle & q & Hq & Hsq & Hf).
      split; [lia|]. exists q. split; [|done].
      replace (a - i)%nat with (S (a - S i)) by lia. done.
Qed.

(** The positions come in increasing order. *)
Lemma kept_from_increasing (l : list PointT) :
  forall (i k1 k2 a1 a2 : nat),
    (k1 < k2)%nat ->
    pcl.kept_from skip i l !! k1 = Some a1 ->
    pcl.kept_from skip i l !! k2 = Some a2 ->
    (a1 < a2)%nat.
Proof.
  induction l as [|p l IH]; intros i k1 k2 a1 a2 Hlt H1 H2; [done|].
  simpl in H1, H2. destruct (skip p).
  - by apply (IH (S i) k1 k2).
  - destruct k2 as [|k2]; [lia|]. simpl in H2. destruct k1 as [|k1].
    + simpl in H1. injection H1 as <-.
      apply kept_from_lookup in H2 as [Hle _]. lia.
    + simpl in H1. apply (IH (S i) k1 k2); [lia|done|done].
Qed.

(** Nothing is skipped: every position is kept. *)
Lemma kept_from_all (l : list PointT) (i : nat) :
  Forall (fun p => skip p = false) l -> pcl.kept_from skip i l = seq i (length l).
Proof.
  revert i. induction l as [|p l IH]; intros i Hall; [done|].
  apply Forall_cons in Hall as [Hp Hall]. simpl. by rewrite Hp, IH.
Qed.

(** Numbering the index from any position on. *)
Lemma number_index_spec (k : nat) :
  forall (i : nat) (index : list Z),
    (i + k = length index)%nat ->
    take i index = (fun j : nat => pcl.to_int (Z.of_nat j)) <$> seq 0 i ->
    pcl.number_index (seq i k) index
    = Some ((fun j : nat => pcl.to_int (Z.of_nat j)) <$> seq 0 (length index)).
Proof.
  induction k as [|k IH]; intros i index Hik Htake.
  - simpl. assert (length index = i) as Hl by lia.
    rewrite Hl, <- Htake, take_ge by lia. done.
  - simpl. unfold pcl.store_index. rewrite option_guard_True by lia. simpl.
    rewrite IH; rewrite ?length_insert; [done|lia|].
    rewrite (take_S_r _ _ (pcl.to_int (Z.of_nat i)))
      by (apply list_lookup_insert_eq; lia).
    rewrite take_insert_ge, Htake, seq_S, fmap_app by lia. done.
Qed.

(** A descriptor filter on a cloud that is not marked dense is the filter
    that tests every point. *)
Lemma remove_unless_dense_sparse (m : list (pcl.PointCloud Header PointT))
    (cloud_in cloud_out : nat) (index : list Z)
    (cin cout : pcl.PointCloud Header PointT) :
  m !! cloud_in = Some cin -> m !! cloud_out = Some cout ->
  pcl.is_dense cin = false ->
  pcl.remove_unless_dense point0 skip m cloud_in cloud_out index
  = pcl.remove_unless point0 skip m cloud_in cloud_out index.
Proof.
  intros Hcin Hcout Hd. unfold pcl.remove_unless_dense, pcl.remove_unless.
  destruct (prepare_output_spec m cloud_in cloud_out cin cout Hcin Hcout)
    as (m1 & cout1 & -> & Hcin1 & _).
  simpl. unfold pcl.size. rewrite !Hcin1. simpl. by rewrite Hd.
Qed.

(** A descriptor filter on a cloud marked dense copies the whole cloud
    and numbers the index. *)
Lemma remove_unless_dense_copy (m : list (pcl.PointCloud Header PointT))
    (cloud_in cloud_out : nat) (index : list Z)
    (cin cout : pcl.PointCloud Header PointT) :
  m !! cloud_in = Some cin -> m !! cloud_out = Some cout ->
  pcl.is_dense cin = true ->
  exists m',
    pcl.remove_unless_dense point0 skip m cloud_in cloud_out index
    = Some (m', (fun j : nat => pcl.to_int (Z.of_nat j))
                  <$> seq 0 (length (pcl.points cin))) /\
    m' !! cloud_out = Some cin /\
    forall c, c <> cloud_out -> m' !! c = m !! c.
Proof.
  intros Hcin Hcout Hd. unfold pcl.remove_unless_dense.
  destruct (prepare_output_spec m cloud_in cloud_out cin cout Hcin Hcout)
    as (m1 & cout1 & -> & Hcin1 & Hcout1 & _ & _ & _ & _ & Hlen1 & Hfr1).
  pose proof (lookup_lt_Some _ _ _ Hcout1) as Hco.
  simpl. unfold pcl.size. rewrite !Hcin1. simpl. rewrite Hd, Hcout1. simpl.
  rewrite list_lookup_insert_eq by done. simpl.
  rewrite (number_index_spec _ 0); rewrite ?length_resize; [|done|done].
  simpl. eexists. split; [reflexivity|].
  split; [by apply list_lookup_insert_eq|].
  intros c Hc. rewrite list_lookup_insert_ne by congruence. by apply Hfr1.
Qed.

End FilterLemmas.

Section SelectLemmas.
Context {Header PointT : Type}.
Variable point0 : PointT.

(** An index entry that is a position of the input is read as it is. *)
Lemma to_size_t_small (i n : Z) : 0 <= i < n -> n <= 2 ^ 64 -> pcl.to_size_t i = i.
Proof. intros Hi Hn. unfold pcl.to_size_t. apply Z.mod_small. lia. Qed.

(** The loop of [removePointsFromPointCloud], output and input two clouds:
    the points the index names are written from [j] on, the rest of the
    output stays. *)
Lemma copy_indexed_spec (cloud_in cloud_out : nat)
    (cin : pcl.PointCloud Header PointT) (index : list Z) :
  forall (j : nat) (m : list (pcl.PointCloud Header PointT))
         (cout : pcl.PointCloud Header PointT),
    cloud_in <> cloud_out ->
    m !! cloud_in = Some cin -> m !! cloud_out = Some cout ->
    Forall (fun i => 0 <= i < Z.of_nat (length (pcl.points cin))) index ->
    Z.of_nat (length (pcl.points cin)) <= 2 ^ 64 ->
    (j + length index <= length (pcl.points cout))%nat ->
    exists m' cout',
      pcl.copy_indexed cloud_in cloud_out index m j = Some (m', (j + length index)%nat) /\
      m' !! cloud_in = Some cin /\ m' !! cloud_out = Some cout' /\
      pcl.set_points [] cout' = pcl.set_points [] cout /\
      length (pcl.points cout') = length (pcl.points cout) /\
      (forall k : nat, (k < j \/ j + length index <= k)%nat ->
                       pcl.points cout' !! k = pcl.points cout !! k) /\
      (forall (k : nat) (i : Z),
          index !! k = Some i ->
          pcl.points cout' !! (j + k)%nat = pcl.points cin !! Z.to_nat i) /\
      length m' = length m /\
      forall c, c <> cloud_out -> m' !! c = m !! c.
Proof.
  induction index as [|i index IH]; intros j m cout Hne Hcin Hcout Hall Hsize Hj.
  - simpl. exists m, cout. rewrite Nat.add_0_r. done.
  - apply Forall_cons in Hall as [Hi Hall]. simpl in Hj. simpl.
    rewrite (to_size_t_small i _ Hi Hsize).
    destruct (lookup_lt_is_Some_2 (pcl.points cin) (Z.to_nat i)) as [p Hp]; [lia|].
    pose proof (lookup_lt_Some _ _ _ Hcout) as Hco.
    unfold pcl.load, pcl.store. rewrite Hcin. simpl. rewrite Hp. simpl.
    rewrite Hcout. simpl. rewrite option_guard_True by lia. simpl.
    set (cout1 := pcl.set_points (<[j:=p]> (pcl.points cout)) cout).
    destruct (IH (S j) (<[cloud_out:=cout1]> m) cout1)
      as (m' & cout' & Hrun & H1 & H2 & H3 & H4 & H5 & H6 & H7 & H8); try done.
    { by rewrite list_lookup_insert_ne by congruence. }
    { by apply list_lookup_insert_eq. }
    { simpl. rewrite length_insert. lia. }
    exists m', cout'. rewrite Hrun.
    split; [do 2 f_equal; lia|]. split; [done|]. split; [done|].
    split; [by rewrite H3|].
    split; [by rewrite H4; simpl; rewrite length_insert|].
    split.
    { intros k Hk. rewrite H5 by lia. simpl.
      apply list_lookup_insert_ne. lia. }
    split.
    { intros [|k] i' Hk; simpl in Hk.
      - injection Hk as <-. rewrite Nat.add_0_r, H5 by lia. simpl.
        rewrite Hp. apply list_lookup_insert_eq. lia.
      - replace (j + S k)%nat with (S j + k)%nat by lia. by apply H6. }
    split; [by rewrite H7, length_insert|].
    intros c Hc. rewrite H8 by done. by rewrite list_lookup_insert_ne by congruence.
Qed.

(** The loop of [removePointsFromPointCloud] writes past the end of an
    output that has fewer points than it is asked to write. *)
Lemma copy_indexed_overflow (cloud_in cloud_out : nat) (index : list Z) :
  forall (j : nat) (m : list (pcl.PointCloud Header PointT))
         (cout : pcl.PointCloud Header PointT),
    m !! cloud_out = Some cout ->
    (j <= length (pcl.points cout))%nat ->
    (length (pcl.points cout) < j + length index)%nat ->
    pcl.copy_indexed cloud_in cloud_out index m j = None.
Proof.
  induction index as [|i index IH]; intros j m cout Hcout Hle Hj; simpl in *; [lia|].
  destruct (pcl.load m cloud_in _) as [p|]; [|done]. simpl.
  unfold pcl.store. rewrite Hcout. simpl.
  destruct (decide (j < length (pcl.points cout))%nat) as [Hlt|Hge].
  - rewrite option_guard_True by done. simpl.
    pose proof (lookup_lt_Some _ _ _ Hcout) as Hco.
    apply (IH (S j) _ (pcl.set_points (<[j:=p]> (pcl.points cout)) cout)).
    + by apply list_lookup_insert_eq.
    + simpl. rewrite length_insert. lia.
    + simpl. rewrite length_insert. lia.
  - by rewrite option_guard_False by done.
Qed.

End SelectLemmas.

(** What the test of [removeNaNFromPointCloudBruteForce] lets through. *)
Lemma brute_force_test {PointT : Type} (x y z : PointT -> spec_float) (p : PointT) :
  negb (pcl.isfinite (x p)) || negb (pcl.isfinite (y p)) || negb (pcl.isfinite (z p))
  = false
  <-> pcl.isfinite (x p) /\ pcl.isfinite (y p) /\ pcl.isfinite (z p).
Proof.
  destruct (pcl.isfinite (x p)), (pcl.isfinite (y p)), (pcl.isfinite (z p));
    simpl; intuition discriminate.
Qed.

(** A position below [2 ^ 31] is stored as it is. *)
Lemma to_int_small (i : nat) : Z.of_nat i < 2 ^ 31 -> pcl.to_int (Z.of_nat i) = Z.of_nat i.
Proof. intros Hi. unfold pcl.to_int. rewrite Z.mod_small; lia. Qed.

(** X8: removeNaNFromPointCloudBruteForce, whether the output is another cloud
    or the input itself: the output holds exactly the points whose three
    coordinates are finite, in their input order, with as many index
    entries; it takes the input's header, its width is the number of
    points, its height 1, it is dense; no other cloud changes, and no
    element is accessed out of bounds. *)
Theorem removeNaNFromPointCloudBruteForce_filters {Header PointT : Type}
    (point0 : PointT) (x y z : PointT -> spec_float)
    (m : list (pcl.PointCloud Header PointT)) (cloud_in cloud_out : nat)
    (index : list Z) (cin cout : pcl.PointCloud Header PointT) :
  m !! cloud_in = Some cin -> m !! cloud_out = Some cout ->
  exists m' index' cout',
    pcl.removeNaNFromPointCloudBruteForce point0 x y z m cloud_in cloud_out index
    = Some (m', index') /\
    m' !! cloud_out = Some cout' /\
    pcl.points cout'
    = filter (fun p => pcl.isfinite (x p) /\ pcl.isfinite (y p) /\ pcl.isfinite (z p))
             (pcl.points cin) /\
    length index' = length (pcl.points cout') /\
    pcl.header cout' = pcl.header cin /\
    pcl.width cout' = pcl.to_uint32 (Z.of_nat (length (pcl.points cout'))) /\
    pcl.height cout' = 1 /\ pcl.is_dense cout' = true /\
    forall c, c <> cloud_out -> m' !! c = m !! c.
Proof.
  intros Hcin Hcout. unfold pcl.removeNaNFromPointCloudBruteForce.
  set (skip := fun p => negb (pcl.isfinite (x p)) || negb (pcl.isfinite (y p))
                       || negb (pcl.isfinite (z p))).
  destruct (remove_unless_spec point0 skip m cloud_in cloud_out index cin cout Hcin Hcout)
    as (m' & index' & cout' & -> & H1 & H2 & H3 & H4 & H5 & H6 & H7 & _ & _ & _ & H8).
  exists m', index', cout'. split; [done|]. split; [done|].
  split; [rewrite H2; apply list_filter_iff; intros p; apply brute_force_test|].
  split; [by rewrite H3, H2, length_fmap, length_kept_from|].
  done.
Qed.

Lemma removeNaNFromPointCloudBruteForce_filters_witness :
  exists m' index' cout',
    pcl.removeNaNFromPointCloudBruteForce pcl_samples.origin pcl.x pcl.y pcl.z
      pcl_samples.two_clouds 0 0 [] = Some (m', index') /\
    m' !! 0%nat = Some cout' /\
    pcl.points cout' = [pcl_samples.white; pcl_samples.colourless; pcl_samples.white].
Proof.
  destruct (removeNaNFromPointCloudBruteForce_filters pcl_samples.origin
              pcl.x pcl.y pcl.z pcl_samples.two_clouds 0 0 []
              pcl_samples.scan pcl_samples.scan)
    as (m' & index' & cout' & H1 & H2 & H3 & _); [reflexivity|reflexivity|].
  exists m', index', cout'. split; [exact H1|]. split; [exact H2|]. exact H3.
Defined.

(** X23: removeNaNRGBFromPointCloud, whether the output is another cloud or
    the input itself: the output holds exactly the points whose colour
    word is not 0, in their input order, with as many index entries;
    coordinates are not looked at, so that a point with a NaN coordinate
    stays. The output takes the input's header, its width is the number
    of points, its height 1, it is dense; no other cloud changes, and no
    element is accessed out of bounds. *)
Theorem removeNaNRGBFromPointCloud_filters {Header PointT : Type}
    (point0 : PointT) (rgba : PointT -> Z)
    (m : list (pcl.PointCloud Header PointT)) (cloud_in cloud_out : nat)
    (index : list Z) (cin cout : pcl.PointCloud Header PointT) :
  m !! cloud_in = Some cin -> m !! cloud_out = Some cout ->
  exists m' index' cout',
    pcl.removeNaNRGBFromPointCloud point0 rgba m cloud_in cloud_out index
    = Some (m', index') /\
    m' !! cloud_out = Some cout' /\
    pcl.points cout' = filter (fun p => rgba p <> 0) (pcl.points cin) /\
    length index' = length (pcl.points cout') /\
    pcl.header cout' = pcl.header cin /\
    pcl.width cout' = pcl.to_uint32 (Z.of_nat (length (pcl.points cout'))) /\
    pcl.height cout' = 1 /\ pcl.is_dense cout' = true /\
    forall c, c <> cloud_out -> m' !! c = m !! c.
Proof.
  intros Hcin Hcout. unfold pcl.removeNaNRGBFromPointCloud.
  set (skip := fun p => rgba p =? 0).
  destruct (remove_unless_spec point0 skip m cloud_in cloud_out index cin cout Hcin Hcout)
    as (m' & index' & cout' & -> & H1 & H2 & H3 & H4 & H5 & H6 & H7 & _ & _ & _ & H8).
  exists m', index', cout'. split; [done|]. split; [done|].
  split; [rewrite H2; apply list_filter_iff; intros p; unfold skip; apply Z.eqb_neq|].
  split; [by rewrite H3, H2, length_fmap, length_kept_from|].
  done.
Qed.

Lemma removeNaNRGBFromPointCloud_filters_witness :
  exists m' index' cout',
    pcl.removeNaNRGBFromPointCloud pcl_samples.origin pcl.rgba
      pcl_samples.two_clouds 0 1 [] = Some (m', index') /\
    m' !! 1%nat = Some cout' /\
    pcl.points cout' = [pcl_samples.broken; pcl_samples.white; pcl_samples.white].
Proof.
  destruct (removeNaNRGBFromPointCloud_filters pcl_samples.origin
              pcl.rgba pcl_samples.two_clouds 0 1 []
              pcl_samples.scan pcl_samples.blank)
    as (m' & index' & cout' & H1 & H2 & H3 & _); [reflexivity|reflexivity|].
  exists m', index', cout'. split; [exact H1|]. split; [exact H2|]. exact H3.
Defined.

(** X9: the index removeNaNFromPointCloudBruteForce leaves, for an input of at
    most [2 ^ 31] points: entry [k] is the position in the input of the
    point that is now at [k] in the output, and the entries increase. *)
Theorem removeNaNFromPointCloudBruteForce_index {Header PointT : Type}
    (point0 : PointT) (x y z : PointT -> spec_float)
    (m : list (pcl.PointCloud Header PointT)) (cloud_in cloud_out : nat)
    (index : list Z) (cin cout : pcl.PointCloud Header PointT) :
  m !! cloud_in = Some cin -> m !! cloud_out = Some cout ->
  Z.of_nat (length (pcl.points cin)) <= 2 ^ 31 ->
  exists m' index' cout',
    pcl.removeNaNFromPointCloudBruteForce point0 x y z m cloud_in cloud_out index
    = Some (m', index') /\
    m' !! cloud_out = Some cout' /\
    (forall (k : nat) (v : Z),
        index' !! k = Some v ->
        0 <= v < Z.of_nat (length (pcl.points cin)) /\
        is_Some (pcl.points cout' !! k) /\
        pcl.points cout' !! k = pcl.points cin !! Z.to_nat v) /\
    (forall (k1 k2 : nat) (v1 v2 : Z),
        (k1 < k2)%nat -> index' !! k1 = Some v1 -> index' !! k2 = Some v2 ->
        v1 < v2).
Proof.
  intros Hcin Hcout Hsize. unfold pcl.removeNaNFromPointCloudBruteForce.
  set (skip := fun p => negb (pcl.isfinite (x p)) || negb (pcl.isfinite (y p))
                       || negb (pcl.isfinite (z p))).
  destruct (remove_unless_spec point0 skip m cloud_in cloud_out index cin cout Hcin Hcout)
    as (m' & index' & cout' & -> & H1 & H2 & H3 & _).
  exists m', index', cout'. split; [done|]. split; [done|].
  assert (forall (k : nat) (v : Z),
             index' !! k = Some v ->
             exists a : nat,
               v = Z.of_nat a /\ (a < length (pcl.points cin))%nat /\
               pcl.kept_from skip 0 (pcl.points cin) !! k = Some a) as Hpos.
  { intros k v Hk. rewrite H3, list_lookup_fmap in Hk.
    destruct (pcl.kept_from skip 0 (pcl.points cin) !! k) as [a|] eqn:Ha; [|done].
    simpl in Hk. injection Hk as <-.
    destruct (kept_from_lookup _ _ _ _ _ Ha) as (_ & p & Hp & _).
    apply lookup_lt_Some in Hp. exists a.
    split; [apply to_int_small; lia|]. split; [lia|done]. }
  split.
  - intros k v Hk. destruct (Hpos k v Hk) as (a & -> & Hlt & Ha).
    destruct (kept_from_lookup _ _ _ _ _ Ha) as (_ & p & Hp & _ & Hf).
    rewrite Nat.sub_0_r in Hp. rewrite Nat2Z.id, H2, Hf, Hp.
    split; [lia|]. split; [by eexists|done].
  - intros k1 k2 v1 v2 Hlt Hk1 Hk2.
    destruct (Hpos k1 v1 Hk1) as (a1 & -> & _ & Ha1).
    destruct (Hpos k2 v2 Hk2) as (a2 & -> & _ & Ha2).
    pose proof (kept_from_increasing _ _ _ _ _ _ _ Hlt Ha1 Ha2). lia.
Qed.

Lemma removeNaNFromPointCloudBruteForce_index_witness :
  exists m' cout',
    pcl.removeNaNFromPointCloudBruteForce pcl_samples.origin pcl.x pcl.y pcl.z
      pcl_samples.two_clouds 0 1 [7; 7] = Some (m', [1; 2; 3]) /\
    m' !! 1%nat = Some cout' /\
    pcl.points cout' !! 0%nat = pcl.points pcl_samples.scan !! 1%nat.
Proof.
  destruct (removeNaNFromPointCloudBruteForce_index pcl_samples.origin
              pcl.x pcl.y pcl.z pcl_samples.two_clouds 0 1 [7; 7]
              pcl_samples.scan pcl_samples.blank)
    as (m' & index' & cout' & H1 & H2 & H3 & _);
    [reflexivity|reflexivity|vm_compute; discriminate|].
  assert (index' = [1; 2; 3]) as ->.
  { vm_compute in H1. by injection H1 as _ <-. }
  exists m', cout'. split; [exact H1|]. split; [exact H2|].
  exact (proj2 (proj2 (H3 0%nat 1 eq_refl))).
Defined.

(** The size of a cloud that is there. *)
Lemma size_Some {Header PointT : Type} (m : list (pcl.PointCloud Header PointT))
    (cloud : nat) (c : pcl.PointCloud Header PointT) :
  m !! cloud = Some c -> pcl.size m cloud = Some (length (pcl.points c)).
Proof. intros Hc. unfold pcl.size. by rewrite Hc. Qed.

(** [removeNaNPoints], in full: what the one cloud holds afterwards. *)
Lemma removeNaNPoints_spec {Header : Type} (point0 : pcl.PointXYZRGB)
    (m : list (pcl.PointCloud Header pcl.PointXYZRGB)) (cloud : nat)
    (c : pcl.PointCloud Header pcl.PointXYZRGB) :
  m !! cloud = Some c ->
  exists m' c',
    pcl.removeNaNPoints point0 m cloud
    = Some (m', [length (filter (fun p => pcl.isfinite (pcl.x p) /\ pcl.isfinite (pcl.y p)
                                          /\ pcl.isfinite (pcl.z p)) (pcl.points c));
                 length (pcl.points c')]) /\
    m' !! cloud = Some c' /\
    pcl.points c'
    = filter (fun p => (pcl.isfinite (pcl.x p) /\ pcl.isfinite (pcl.y p)
                        /\ pcl.isfinite (pcl.z p)) /\ pcl.rgba p <> 0)
             (pcl.points c) /\
    pcl.header c' = pcl.header c /\
    pcl.width c' = pcl.to_uint32 (Z.of_nat (length (pcl.points c'))) /\
    pcl.height c' = 1 /\ pcl.is_dense c' = true /\
    pcl.sensor_origin_ c' = pcl.sensor_origin_ c /\
    pcl.sensor_orientation_ c' = pcl.sensor_orientation_ c /\
    length m' = length m /\
    forall other, other <> cloud -> m' !! other = m !! other.
Proof.
  intros Hc. unfold pcl.removeNaNPoints, pcl.removeNaNFromPointCloudBruteForce,
    pcl.removeNaNRGBFromPointCloud.
  set (skip1 := fun p => negb (pcl.isfinite (pcl.x p)) || negb (pcl.isfinite (pcl.y p))
                        || negb (pcl.isfinite (pcl.z p))).
  set (skip2 := fun p => pcl.rgba p =? 0).
  destruct (remove_unless_spec point0 skip1 m cloud cloud [] c c Hc Hc)
    as (m1 & index1 & c1 & -> & Hc1 & Hp1 & _ & Hh1 & _ & _ & _ & Ho1 & Hq1 & Hl1 & Hf1).
  simpl. rewrite (size_Some _ _ _ Hc1). simpl.
  destruct (remove_unless_spec point0 skip2 m1 cloud cloud index1 c1 c1 Hc1 Hc1)
    as (m2 & index2 & c2 & -> & Hc2 & Hp2 & _ & Hh2 & Hw2 & Hg2 & Hd2 & Ho2 & Hq2 & Hl2 & Hf2).
  simpl. rewrite (size_Some _ _ _ Hc2). simpl.
  assert (filter (fun p => skip1 p = false) (pcl.points c)
          = filter (fun p => pcl.isfinite (pcl.x p) /\ pcl.isfinite (pcl.y p)
                             /\ pcl.isfinite (pcl.z p)) (pcl.points c)) as Hfin
    by (apply list_filter_iff; intros p; apply brute_force_test).
  exists m2, c2. rewrite Hp1, Hfin. split; [done|]. split; [done|].
  split.
  { rewrite Hp2, Hp1, Hfin, list_filter_filter. apply list_filter_iff.
    intros p. unfold skip2. rewrite Z.eqb_neq. tauto. }
  split; [congruence|]. split; [done|]. split; [done|]. split; [done|].
  split; [congruence|]. split; [congruence|]. split; [congruence|].
  intros other Ho. by rewrite Hf2, Hf1.
Qed.

(** X10: removeNaNPoints leaves in the cloud exactly the points with three
    finite coordinates and a colour word that is not 0, in their order; it
    prints the size after the first filter and the final size; the header
    stays, the cloud is marked dense with height 1 and the width the final
    size; no other cloud changes. *)
Theorem removeNaNPoints_filters {Header : Type} (point0 : pcl.PointXYZRGB)
    (m : list (pcl.PointCloud Header pcl.PointXYZRGB)) (cloud : nat)
    (c : pcl.PointCloud Header pcl.PointXYZRGB) :
  m !! cloud = Some c ->
  exists m' c' n1,
    pcl.removeNaNPoints point0 m cloud = Some (m', [n1; length (pcl.points c')]) /\
    m' !! cloud = Some c' /\
    pcl.points c'
    = filter (fun p => (pcl.isfinite (pcl.x p) /\ pcl.isfinite (pcl.y p)
                        /\ pcl.isfinite (pcl.z p)) /\ pcl.rgba p <> 0)
             (pcl.points c) /\
    (length (pcl.points c') <= n1 <= length (pcl.points c))%nat /\
    pcl.header c' = pcl.header c /\
    pcl.width c' = pcl.to_uint32 (Z.of_nat (length (pcl.points c'))) /\
    pcl.height c' = 1 /\ pcl.is_dense c' = true /\
    forall other, other <> cloud -> m' !! other = m !! other.
Proof.
  intros Hc.
  destruct (removeNaNPoints_spec point0 m cloud c Hc)
    as (m' & c' & Hrun & Hc' & Hp & Hh & Hw & Hg & Hd & _ & _ & _ & Hf).
  eexists m', c', _. split; [exact Hrun|]. split; [done|]. split; [done|].
  split; [|done].
  split; [|apply length_filter].
  assert (pcl.points c'
          = filter (fun p => pcl.rgba p <> 0)
              (filter (fun p => pcl.isfinite (pcl.x p) /\ pcl.isfinite (pcl.y p)
                                /\ pcl.isfinite (pcl.z p)) (pcl.points c))) as ->.
  { rewrite Hp, list_filter_filter. apply list_filter_iff. tauto. }
  apply length_filter.
Qed.

Lemma removeNaNPoints_filters_witness :
  exists m' c',
    pcl.removeNaNPoints pcl_samples.origin pcl_samples.two_clouds 0
    = Some (m', [3; 2]%nat) /\
    m' !! 0%nat = Some c' /\
    pcl.points c' = [pcl_samples.white; pcl_samples.white].
Proof.
  destruct (removeNaNPoints_filters pcl_samples.origin pcl_samples.two_clouds 0
              pcl_samples.scan)
    as (m' & c' & n1 & H1 & H2 & H3 & _); [reflexivity|].
  exists m', c'. split; [|split; [exact H2|exact H3]].
  pose proof H1 as H1'. rewrite H3 in H1'. vm_compute in H1'.
  injection H1' as _ Hn. rewrite H1, H3, <- Hn. reflexivity.
Defined.

(** X11: removeNaNPoints a second time changes nothing: the memory it returns
    is the memory it was given, and both sizes it prints are the size of
    the cloud. *)
Theorem removeNaNPoints_idempotent {Header : Type} (point0 : pcl.PointXYZRGB)
    (m m' : list (pcl.PointCloud Header pcl.PointXYZRGB)) (cloud : nat)
    (sizes : list nat) :
  pcl.removeNaNPoints point0 m cloud = Some (m', sizes) ->
  exists n, pcl.removeNaNPoints point0 m' cloud = Some (m', [n; n]) /\
            last sizes = Some n.
Proof.
  intros Hrun.
  destruct (m !! cloud) as [c|] eqn:Hc.
  2:{ unfold pcl.removeNaNPoints, pcl.removeNaNFromPointCloudBruteForce,
        pcl.remove_unless, pcl.prepare_output in Hrun.
      rewrite decide_False in Hrun by (intros H; by apply H).
      simpl in Hrun. unfold pcl.size in Hrun. by rewrite Hc in Hrun. }
  destruct (removeNaNPoints_spec point0 m cloud c Hc)
    as (m1 & c1 & Hrun1 & Hc1 & Hp1 & Hh1 & Hw1 & Hg1 & Hd1 & Ho1 & Hq1 & Hl1 & Hf1).
  rewrite Hrun in Hrun1. injection Hrun1 as -> ->.
  destruct (removeNaNPoints_spec point0 m1 cloud c1 Hc1)
    as (m2 & c2 & Hrun2 & Hc2 & Hp2 & Hh2 & Hw2 & Hg2 & Hd2 & Ho2 & Hq2 & Hl2 & Hf2).
  assert (pcl.points c2 = pcl.points c1) as Hsame.
  { rewrite Hp2, Hp1. by apply list_filter_filter_r. }
  assert (filter (fun p => pcl.isfinite (pcl.x p) /\ pcl.isfinite (pcl.y p)
                           /\ pcl.isfinite (pcl.z p)) (pcl.points c1)
          = pcl.points c1) as Hfin.
  { rewrite Hp1. apply list_filter_filter_r. tauto. }
  assert (c2 = c1) as ->.
  { destruct c2, c1. simpl in *. congruence. }
  assert (m2 = m1) as ->.
  { apply list_eq. intros i. destruct (decide (i = cloud)) as [->|Hi].
    - by rewrite Hc2, Hc1.
    - by apply Hf2. }
  exists (length (pcl.points c1)). split; [|done].
  rewrite Hrun2, Hfin. done.
Qed.

Lemma removeNaNPoints_idempotent_witness :
  exists m' n,
    pcl.removeNaNPoints pcl_samples.origin pcl_samples.two_clouds 0
    = Some (m', [3; 2]%nat) /\
    pcl.removeNaNPoints pcl_samples.origin m' 0 = Some (m', [n; n]) /\
    n = 2%nat.
Proof.
  eexists _, _. split; [vm_compute; reflexivity|].
  destruct (removeNaNPoints_idempotent pcl_samples.origin pcl_samples.two_clouds
              _ 0 [3; 2]%nat ltac:(vm_compute; reflexivity)) as (n & H1 & H2).
  injection H2 as <-. split; [exact H1|reflexivity].
Defined.

(** X12: removeNaNFPFHFromPointCloud trusts the flag: a cloud marked dense is
    copied to the output as it is, points with a NaN histogram included,
    and the index numbers all its points; a cloud not marked dense loses
    exactly the points whose first histogram bin is not finite. *)
Theorem removeNaNFPFHFromPointCloud_trusts_is_dense {Header : Type}
    (point0 : pcl.FPFHSignature33)
    (m : list (pcl.PointCloud Header pcl.FPFHSignature33))
    (cloud_in cloud_out : nat) (index : list Z)
    (cin cout : pcl.PointCloud Header pcl.FPFHSignature33) :
  m !! cloud_in = Some cin -> m !! cloud_out = Some cout ->
  exists m' index' cout',
    pcl.removeNaNFPFHFromPointCloud point0 m cloud_in cloud_out index
    = Some (m', index') /\
    m' !! cloud_out = Some cout' /\
    (if pcl.is_dense cin
     then cout' = cin /\
          index' = (fun j : nat => pcl.to_int (Z.of_nat j))
                     <$> seq 0 (length (pcl.points cin))
     else pcl.points cout'
          = filter (fun p => pcl.isfinite (pcl.histogram p 0%nat)) (pcl.points cin) /\
          length index' = length (pcl.points cout') /\
          pcl.is_dense cout' = true) /\
    forall c, c <> cloud_out -> m' !! c = m !! c.
Proof.
  intros Hcin Hcout. unfold pcl.removeNaNFPFHFromPointCloud.
  set (skip := fun p => negb (pcl.isfinite (pcl.histogram p 0%nat))).
  destruct (pcl.is_dense cin) eqn:Hd.
  - destruct (remove_unless_dense_copy point0 skip m cloud_in cloud_out index
                cin cout Hcin Hcout Hd) as (m' & -> & H1 & H2).
    by eexists m', _, cin.
  - rewrite (remove_unless_dense_sparse point0 skip m cloud_in cloud_out index
               cin cout Hcin Hcout Hd).
    destruct (remove_unless_spec point0 skip m cloud_in cloud_out index cin cout
                Hcin Hcout)
      as (m' & index' & cout' & -> & H1 & H2 & H3 & _ & _ & _ & H4 & _ & _ & _ & H5).
    exists m', index', cout'. split; [done|]. split; [done|]. split; [|done].
    split; [|split; [by rewrite H3, H2, length_fmap, length_kept_from|done]].
    rewrite H2. apply list_filter_iff. intros p. unfold skip.
    destruct (pcl.isfinite (pcl.histogram p 0%nat)); simpl; intuition discriminate.
Qed.

Lemma removeNaNFPFHFromPointCloud_trusts_is_dense_witness :
  exists m',
    pcl.removeNaNFPFHFromPointCloud pcl_samples.flat_histogram
      [pcl_samples.dense_features] 0 0 [] = Some (m', [0; 1]) /\
    m' !! 0%nat = Some pcl_samples.dense_features.
Proof.
  destruct (removeNaNFPFHFromPointCloud_trusts_is_dense pcl_samples.flat_histogram
              [pcl_samples.dense_features] 0 0 []
              pcl_samples.dense_features pcl_samples.dense_features)
    as (m' & index' & cout' & H1 & H2 & [-> ->] & _); [reflexivity|reflexivity|].
  exists m'. split; [exact H1|exact H2].
Defined.

(** X13: both SHOT filters, on clouds not marked dense: the output holds
    exactly the points whose descriptor and reference frame are finite at
    position 0; no other position is looked at. *)
Theorem removeNaNSHOT_tests_first_entries {Header : Type}
    (point0 : pcl.SHOT 352) (point0' : pcl.SHOT 1344)
    (m : list (pcl.PointCloud Header (pcl.SHOT 352)))
    (m' : list (pcl.PointCloud Header (pcl.SHOT 1344)))
    (cloud_in cloud_out : nat) (index : list Z)
    (cin cout : pcl.PointCloud Header (pcl.SHOT 352))
    (cin' cout' : pcl.PointCloud Header (pcl.SHOT 1344)) :
  m !! cloud_in = Some cin -> m !! cloud_out = Some cout ->
  m' !! cloud_in = Some cin' -> m' !! cloud_out = Some cout' ->
  pcl.is_dense cin = false -> pcl.is_dense cin' = false ->
  (exists m1 index1 c1,
      pcl.removeNaNSHOTFromPointCloud point0 m cloud_in cloud_out index
      = Some (m1, index1) /\
      m1 !! cloud_out = Some c1 /\
      pcl.points c1
      = filter (fun p => pcl.isfinite (pcl.descriptor p 0%nat)
                         /\ pcl.isfinite (pcl.rf p 0%nat)) (pcl.points cin)) /\
  (exists m1 index1 c1,
      pcl.removeNaNSHOTColorFromPointCloud point0' m' cloud_in cloud_out index
      = Some (m1, index1) /\
      m1 !! cloud_out = Some c1 /\
      pcl.points c1
      = filter (fun p => pcl.isfinite (pcl.descriptor p 0%nat)
                         /\ pcl.isfinite (pcl.rf p 0%nat)) (pcl.points cin')).
Proof.
  intros Hcin Hcout Hcin' Hcout' Hd Hd'.
  unfold pcl.removeNaNSHOTFromPointCloud, pcl.removeNaNSHOTColorFromPointCloud.
  split.
  - set (skip := fun p : pcl.SHOT 352 =>
                   negb (pcl.isfinite (pcl.descriptor p 0%nat))
                   || negb (pcl.isfinite (pcl.rf p 0%nat))).
    rewrite (remove_unless_dense_sparse point0 skip m cloud_in cloud_out index
               cin cout Hcin Hcout Hd).
    destruct (remove_unless_spec point0 skip m cloud_in cloud_out index cin cout
                Hcin Hcout) as (m1 & index1 & c1 & -> & H1 & H2 & _).
    exists m1, index1, c1. split; [done|]. split; [done|].
    rewrite H2. apply list_filter_iff. intros p. unfold skip.
    destruct (pcl.isfinite (pcl.descriptor p 0%nat)), (pcl.isfinite (pcl.rf p 0%nat));
      simpl; intuition discriminate.
  - set (skip := fun p : pcl.SHOT 1344 =>
                   negb (pcl.isfinite (pcl.descriptor p 0%nat))
                   || negb (pcl.isfinite (pcl.rf p 0%nat))).
    rewrite (remove_unless_dense_sparse point0' skip m' cloud_in cloud_out index
               cin' cout' Hcin' Hcout' Hd').
    destruct (remove_unless_spec point0' skip m' cloud_in cloud_out index cin' cout'
                Hcin' Hcout') as (m1 & index1 & c1 & -> & H1 & H2 & _).
    exists m1, index1, c1. split; [done|]. split; [done|].
    rewrite H2. apply list_filter_iff. intros p. unfold skip.
    destruct (pcl.isfinite (pcl.descriptor p 0%nat)), (pcl.isfinite (pcl.rf p 0%nat));
      simpl; intuition discriminate.
Qed.

Lemma removeNaNSHOT_tests_first_entries_witness :
  (exists m1 index1 c1,
      pcl.removeNaNSHOTFromPointCloud pcl_samples.early_nan [pcl_samples.shots] 0 0 []
      = Some (m1, index1) /\
      m1 !! 0%nat = Some c1 /\ pcl.points c1 = [pcl_samples.late_nan]) /\
  (exists m1 index1 c1,
      pcl.removeNaNSHOTColorFromPointCloud pcl_samples.early_nan [pcl_samples.shots] 0 0 []
      = Some (m1, index1) /\
      m1 !! 0%nat = Some c1 /\ pcl.points c1 = [pcl_samples.late_nan]).
Proof.
  apply (removeNaNSHOT_tests_first_entries pcl_samples.early_nan pcl_samples.early_nan
           [pcl_samples.shots] [pcl_samples.shots] 0 0 []
           pcl_samples.shots pcl_samples.shots pcl_samples.shots pcl_samples.shots);
    reflexivity.
Defined.

(** X14: removePointsFromPointCloud into another cloud that is large enough,
    with an index of positions of the input: output point [k] is the input
    point at [index[k]], width is the number of index entries, the header
    of the output stays its own and the input is unchanged. The output is
    cut to the number of entries unless that is the input's size: then it
    keeps its length, and what it held past the entries. *)
Theorem removePointsFromPointCloud_selects {Header PointT : Type} (point0 : PointT)
    (m : list (pcl.PointCloud Header PointT)) (cloud_in cloud_out : nat)
    (index : list Z) (cin cout : pcl.PointCloud Header PointT) :
  cloud_in <> cloud_out ->
  m !! cloud_in = Some cin -> m !! cloud_out = Some cout ->
  Forall (fun i => 0 <= i < Z.of_nat (length (pcl.points cin))) index ->
  Z.of_nat (length (pcl.points cin)) <= 2 ^ 64 ->
  (length index <= length (pcl.points cout))%nat ->
  exists m' cout',
    pcl.removePointsFromPointCloud point0 m cloud_in cloud_out index = Some m' /\
    m' !! cloud_out = Some cout' /\ m' !! cloud_in = Some cin /\
    (forall (k : nat) (i : Z),
        index !! k = Some i ->
        pcl.points cout' !! k = pcl.points cin !! Z.to_nat i) /\
    (if decide (length index = length (pcl.points cin))
     then length (pcl.points cout') = length (pcl.points cout) /\
          forall k : nat, (length index <= k)%nat ->
                          pcl.points cout' !! k = pcl.points cout !! k
     else length (pcl.points cout') = length index) /\
    pcl.width cout' = pcl.to_uint32 (Z.of_nat (length index)) /\
    pcl.height cout' = 1 /\ pcl.is_dense cout' = true /\
    pcl.header cout' = pcl.header cout.
Proof.
  intros Hne Hcin Hcout Hall Hsize Hlen. unfold pcl.removePointsFromPointCloud.
  destruct (copy_indexed_spec cloud_in cloud_out cin index 0 m cout
              Hne Hcin Hcout Hall Hsize Hlen)
    as (m1 & cout1 & -> & H1 & H2 & H3 & H4 & H5 & H6 & H7 & H8).
  simpl. rewrite (size_Some _ _ _ H1). simpl.
  pose proof (lookup_lt_Some _ _ _ H2) as Hco.
  assert (pcl.header cout1 = pcl.header cout) as Hh
    by (destruct cout1, cout; simpl in *; by inversion H3).
  destruct (decide (length index <> length (pcl.points cin))) as [Hd|Hd].
  - unfold pcl.resize_points. rewrite H2. simpl.
    rewrite list_lookup_insert_eq by done. simpl.
    rewrite list_insert_insert_eq, resize_le by lia.
    eexists _, _. split; [reflexivity|].
    split; [by apply list_lookup_insert_eq|].
    split; [by rewrite list_lookup_insert_ne by congruence|].
    simpl. split.
    { intros k i Hk. rewrite lookup_take_lt by (by eapply lookup_lt_Some).
      by apply (H6 k i). }
    rewrite decide_False by done.
    split; [rewrite length_take; lia|done].
  - assert (length index = length (pcl.points cin)) as Heq
      by (destruct (decide (length index = length (pcl.points cin))); [done|by destruct Hd]).
    simpl. rewrite H2. simpl.
    eexists _, _. split; [reflexivity|].
    split; [by apply list_lookup_insert_eq|].
    split; [by rewrite list_lookup_insert_ne by congruence|].
    simpl. split; [intros k i Hk; by apply (H6 k i)|].
    rewrite decide_True by done.
    split; [|done]. split; [done|].
    intros k Hk. apply H5. lia.
Qed.

Lemma removePointsFromPointCloud_selects_witness :
  exists m' cout',
    pcl.removePointsFromPointCloud pcl_samples.origin pcl_samples.scan_and_canvas
      0 1 [3; 1] = Some m' /\
    m' !! 1%nat = Some cout' /\
    pcl.points cout' = [pcl_samples.white; pcl_samples.white] /\
    pcl.width cout' = 2.
Proof.
  destruct (removePointsFromPointCloud_selects pcl_samples.origin
              pcl_samples.scan_and_canvas 0 1 [3; 1]
              pcl_samples.scan pcl_samples.canvas)
    as (m' & cout' & H1 & H2 & _ & _ & _ & H3 & _);
    [discriminate|reflexivity|reflexivity
    |repeat constructor; vm_compute; discriminate
    |vm_compute; discriminate|simpl; lia|].
  exists m', cout'. split; [exact H1|]. split; [exact H2|]. split; [|exact H3].
  vm_compute in H1. injection H1 as <-. vm_compute in H2. by injection H2 as <-.
Defined.

(** X15: removePointsFromPointCloud does not size its output: asked to select
    more points than the output has, it accesses a vector past its end
    (the output's points, if not the input's before), which is undefined
    behaviour. *)
Theorem removePointsFromPointCloud_overflows {Header PointT : Type} (point0 : PointT)
    (m : list (pcl.PointCloud Header PointT)) (cloud_in cloud_out : nat)
    (index : list Z) (cout : pcl.PointCloud Header PointT) :
  m !! cloud_out = Some cout ->
  (length (pcl.points cout) < length index)%nat ->
  pcl.removePointsFromPointCloud point0 m cloud_in cloud_out index = None.
Proof.
  intros Hcout Hlen. unfold pcl.removePointsFromPointCloud.
  rewrite (copy_indexed_overflow cloud_in cloud_out index 0 m cout); [done|done|lia|lia].
Qed.

Lemma removePointsFromPointCloud_overflows_witness :
  pcl.removePointsFromPointCloud pcl_samples.origin pcl_samples.two_clouds 0 1 [1]
  = None.
Proof.
  apply (removePointsFromPointCloud_overflows pcl_samples.origin
           pcl_samples.two_clouds 0 1 [1] pcl_samples.blank);
    [reflexivity|simpl; lia].
Defined.

(** X16: selecting, with removePointsFromPointCloud, by the index that
    removeNaNFromPointCloudBruteForce made (from an input of at most 2^31
    points into another cloud) writes the filter's output once more: the
    memory after the filter is left as it is. *)
Theorem removePoints_by_filter_index {Header PointT : Type} (point0 : PointT)
    (x y z : PointT -> spec_float)
    (m : list (pcl.PointCloud Header PointT)) (cloud_in cloud_out : nat)
    (index : list Z) (cin cout : pcl.PointCloud Header PointT) :
  cloud_in <> cloud_out ->
  m !! cloud_in = Some cin -> m !! cloud_out = Some cout ->
  Z.of_nat (length (pcl.points cin)) <= 2 ^ 31 ->
  exists m' index',
    pcl.removeNaNFromPointCloudBruteForce point0 x y z m cloud_in cloud_out index
    = Some (m', index') /\
    pcl.removePointsFromPointCloud point0 m' cloud_in cloud_out index' = Some m'.
Proof.
  intros Hne Hcin Hcout Hsize. unfold pcl.removeNaNFromPointCloudBruteForce.
  set (skip := fun p => negb (pcl.isfinite (x p)) || negb (pcl.isfinite (y p))
                       || negb (pcl.isfinite (z p))).
  destruct (remove_unless_spec point0 skip m cloud_in cloud_out index cin cout Hcin Hcout)
    as (m' & index' & cout' & -> & Hc' & Hp & Hi & Hh & Hw & Hg & Hd & Ho & Hq & Hl & Hf).
  exists m', index'. split; [done|].
  assert (m' !! cloud_in = Some cin) as Hcin' by (by rewrite Hf).
  assert (length index' = length (pcl.points cout')) as Hlen
    by (by rewrite Hi, Hp, length_fmap, length_kept_from).
  assert (forall (k : nat) (i : Z),
             index' !! k = Some i ->
             0 <= i < Z.of_nat (length (pcl.points cin)) /\
             pcl.points cout' !! k = pcl.points cin !! Z.to_nat i) as Hpos.
  { intros k i Hk. rewrite Hi, list_lookup_fmap in Hk.
    destruct (pcl.kept_from skip 0 (pcl.points cin) !! k) as [a|] eqn:Ha; [|done].
    simpl in Hk. injection Hk as <-.
    destruct (kept_from_lookup _ _ _ _ _ Ha) as (_ & p & Hpa & _ & Hfa).
    rewrite Nat.sub_0_r in Hpa. pose proof (lookup_lt_Some _ _ _ Hpa).
    rewrite to_int_small, Nat2Z.id, Hp, Hfa, Hpa by lia. split; [lia|done]. }
  unfold pcl.removePointsFromPointCloud.
  destruct (copy_indexed_spec cloud_in cloud_out cin index' 0 m' cout')
    as (m1 & cout1 & -> & H1 & H2 & H3 & H4 & H5 & H6 & H7 & H8); try done; try lia.
  { apply Forall_forall. intros i Hin.
    apply list_elem_of_lookup in Hin as [k Hk]. by apply (Hpos k i). }
  simpl. rewrite (size_Some _ _ _ H1). simpl.
  pose proof (lookup_lt_Some _ _ _ H2) as Hco.
  assert (pcl.points cout1 = pcl.points cout') as Hsame.
  { apply list_eq. intros k. destruct (index' !! k) as [i|] eqn:Hk.
    - pose proof (H6 k i Hk) as Hk1. simpl in Hk1. rewrite Hk1.
      symmetry. by apply (Hpos k i).
    - apply lookup_ge_None in Hk.
      rewrite (proj2 (lookup_ge_None _ _)) by lia.
      symmetry. apply lookup_ge_None. lia. }
  assert (pcl.Build_PointCloud (pcl.header cout1) (pcl.points cout1)
            (pcl.to_uint32 (Z.of_nat (length index'))) 1 true
            (pcl.sensor_origin_ cout1) (pcl.sensor_orientation_ cout1) = cout') as Hrec.
  { destruct cout1, cout'. simpl in *. inversion H3. subst. by rewrite Hlen. }
  assert (<[cloud_out:=cout']> m1 = m') as Hmem.
  { apply list_eq. intros c. destruct (decide (c = cloud_out)) as [->|Hc].
    - by rewrite list_lookup_insert_eq, Hc'.
    - rewrite list_lookup_insert_ne by congruence. by apply H8. }
  destruct (decide (length index' <> length (pcl.points cin))) as [Hdec|Hdec].
  - unfold pcl.resize_points. rewrite H2. simpl.
    rewrite list_lookup_insert_eq by done. simpl.
    rewrite list_insert_insert_eq, resize_le, take_ge by lia.
    by rewrite Hrec, Hmem.
  - simpl. rewrite H2. simpl. by rewrite Hrec, Hmem.
Qed.

Lemma removePoints_by_filter_index_witness :
  exists m' index',
    pcl.removeNaNFromPointCloudBruteForce pcl_samples.origin pcl.x pcl.y pcl.z
      pcl_samples.scan_and_canvas 0 1 [] = Some (m', index') /\
    pcl.removePointsFromPointCloud pcl_samples.origin m' 0 1 index' = Some m'.
Proof.
  apply (removePoints_by_filter_index pcl_samples.origin pcl.x pcl.y pcl.z
           pcl_samples.scan_and_canvas 0 1 [] pcl_samples.scan pcl_samples.canvas);
    [discriminate|reflexivity|reflexivity|vm_compute; discriminate].
Defined.

(** ** [test_color_icp.cpp]: loading a cloud *)

(** The last characters of a string: what [substring] reads from the
    length of the front on. *)
Lemma substring_app (stem ext : string) :
  String.substring (String.length stem) (String.length ext) (stem +:+ ext) = ext.
Proof.
  induction stem as [|c stem IH]; simpl; [|exact IH].
  induction ext as [|c ext IH]; simpl; [done|].
  destruct ext; simpl in *; by rewrite ?IH.
Qed.

(** X17: loadPointCloud chooses the reader by the last four characters of the
    file name, as they are written: [.pcd] and [.ply] give 1 unless the
    reader returned -1; any other ending gives 0, whatever the readers
    would say; nothing is thrown. *)
Theorem loadPointCloud_by_extension (env : icp_env) (stem ext : string) :
  String.length ext = 4%nat ->
  Z.of_nat (String.length (stem +:+ ext)) < 2 ^ 64 ->
  loadPointCloud env (stem +:+ ext)
  = Some (if String.eqb ext ".pcd"
          then if loadPCDFile env (stem +:+ ext) =? -1 then 0 else 1
          else if String.eqb ext ".ply"
               then if loadPLYFile env (stem +:+ ext) =? -1 then 0 else 1
               else 0).
Proof.
  intros Hext Hlen. unfold loadPointCloud, substr.
  rewrite length_append, Hext in *.
  rewrite Z.mod_small by lia.
  destruct (Z.leb_spec (Z.of_nat (String.length stem + 4) - 4)
                       (Z.of_nat (String.length stem + 4))) as [_|]; [|lia].
  replace (Z.to_nat (Z.of_nat (String.length stem + 4) - 4))
    with (String.length stem) by lia.
  assert (String.substring (String.length stem) 4 (stem +:+ ext) = ext) as ->
    by (rewrite <- Hext; apply substring_app).
  destruct (String.eqb ext ".pcd"); [by destruct (_ =? _)|].
  destruct (String.eqb ext ".ply"); [by destruct (_ =? _)|done].
Qed.

Lemma loadPointCloud_by_extension_witness :
  loadPointCloud load_samples.every_file "scan.PCD" = Some 0.
Proof.
  exact (loadPointCloud_by_extension load_samples.every_file "scan" ".PCD" eq_refl eq_refl).
Defined.

(** X18: a file name of fewer than four characters: [filename.size() - 4]
    wraps around in [size_t], [substr] throws [std::out_of_range], and
    loadPointCloud returns nothing, not the 0 of a failed load. *)
Theorem loadPointCloud_short_name_throws (env : icp_env) (filename : string) :
  (String.length filename < 4)%nat -> loadPointCloud env filename = None.
Proof.
  intros Hlen. unfold loadPointCloud, substr.
  replace ((Z.of_nat (String.length filename) - 4) mod 2 ^ 64)
    with (Z.of_nat (String.length filename) - 4 + 2 ^ 64).
  - destruct (Z.leb_spec (Z.of_nat (String.length filename) - 4 + 2 ^ 64)
                         (Z.of_nat (String.length filename))); [lia|done].
  - symmetry. rewrite <- (Z.mod_add _ 1) by lia. rewrite Z.mod_small; lia.
Qed.

Lemma loadPointCloud_short_name_throws_witness :
  loadPointCloud load_samples.every_file "a.b" = None.
Proof.
  apply (loadPointCloud_short_name_throws load_samples.every_file "a.b"). simpl. lia.
Defined.

(** ** The points on display *)

(** The integer part of a positive [float] and the number it stands for. *)
Lemma truncate_bounds (m : positive) (e : Z) :
  (inject_Z (Z.shiftl (Zpos m) e) <= inject_Z (Zpos m) * 2 ^ e /\
   inject_Z (Zpos m) * 2 ^ e < inject_Z (Z.shiftl (Zpos m) e) + 1)%Q.
Proof.
  destruct (Z_le_gt_dec 0 e) as [He|He].
  - rewrite Z.shiftl_mul_pow2 by done.
    rewrite inject_Z_mult, pow2_inject by done. split; lra.
  - rewrite Z.shiftl_div_pow2 by lia.
    assert (0 < 2 ^ (- e)) as Hp by (apply Z.pow_pos_nonneg; lia).
    pose proof (Z.mul_div_le (Zpos m) (2 ^ (- e)) Hp) as Hlo.
    pose proof (Z.mul_succ_div_gt (Zpos m) (2 ^ (- e)) Hp) as Hhi.
    set (t := Zpos m / 2 ^ (- e)) in *.
    rewrite Zle_Qle, inject_Z_mult, pow2_inject in Hlo by lia.
    rewrite Zlt_Qlt, inject_Z_mult, pow2_inject in Hhi by lia.
    replace (Z.succ t) with (t + 1) in Hhi by lia.
    rewrite inject_Z_plus in Hhi. change (inject_Z 1) with 1%Q in Hhi.
    assert (2 ^ (- e) * 2 ^ e == 1)%Q as Hone.
    { rewrite <- pow2_plus. replace (- e + e) with 0 by lia. reflexivity. }
    pose proof (pow2_pos e) as Hpe. pose proof (pow2_pos (- e)) as Hpn.
    set (q := inject_Z (Zpos m)) in *. set (u := inject_Z t) in *.
    set (P := (2 ^ (- e))%Q) in *. set (E := (2 ^ e)%Q) in *.
    assert (P * u * E <= q * E)%Q by (apply Qmult_le_compat_r; lra).
    assert (q * E < P * (u + 1) * E)%Q by (apply Qmult_lt_compat_r; lra).
    assert (P * u * E == u)%Q as Hl
      by (transitivity (u * (P * E))%Q; [ring|rewrite Hone; ring]).
    assert (P * (u + 1) * E == u + 1)%Q as Hr
      by (transitivity ((u + 1) * (P * E))%Q; [ring|rewrite Hone; ring]).
    split; lra.
Qed.

(** A [float] whose integer part is a byte converts to it. *)
Lemma to_uint8_Some (v : spec_float) (t : Z) :
  display.truncate v = Some t -> 0 <= t <= 255 -> display.to_uint8 v = Some t.
Proof.
  intros Ht Hb. unfold display.to_uint8. rewrite Ht. simpl.
  by rewrite option_guard_True.
Qed.

(** The byte of a channel in [0, 1]: the integer part of the rounded
    product, which is within [2^-16] of [255 c]. *)
Lemma times_255_byte (c : spec_float) :
  f32.finite c = true -> (0 <= value c <= 1)%Q ->
  exists k : Z,
    display.to_uint8 (display.times_255 c) = Some k /\
    0 <= k <= 255 /\
    (inject_Z k <= 255 * value c + (1 # 65536))%Q /\
    (255 * value c - (1 # 65536) - 1 < inject_Z k)%Q.
Proof.
  intros Hf [H0 H1].
  pose proof (finite_nonneg c Hf H0) as Hn.
  assert (value (f32.of_Z 255) == 255)%Q as H255 by reflexivity.
  destruct (SFmul_mixed f32.prec f32.emax ltac:(done) c (f32.of_Z 255) 8)
    as (Nx & Ux & Lx); [done|done|done| |done|].
  { rewrite H255. change (2 ^ 8)%Q with 256%Q. lra. }
  fold f32.mul in Nx, Ux, Lx. fold (display.times_255 c) in Nx, Ux, Lx.
  rewrite H255 in Ux, Lx.
  assert (2 ^ (- f32.prec) == 1 # 16777216)%Q as E1 by reflexivity.
  assert (2 ^ (emin f32.prec f32.emax - 1)
          == 1 # 1427247692705959881058285969449495136382746624)%Q as E2
    by reflexivity.
  rewrite E1, E2 in Ux, Lx.
  destruct (display.times_255 c) as [s|s| |s m e]; try done.
  - exists 0. split; [by apply to_uint8_Some|]. split; [lia|].
    simpl in Ux, Lx. change (inject_Z 0) with 0%Q. split; lra.
  - destruct s; [done|].
    pose proof (truncate_bounds m e) as [Tlo Thi].
    change (inject_Z (Zpos m) * 2 ^ e)%Q
      with (value (S754_finite false m e)) in Tlo, Thi.
    set (t := Z.shiftl (Zpos m) e) in *.
    set (V := value (S754_finite false m e)) in *.
    assert (0 <= t) as Ht0 by (apply Z.shiftl_nonneg; lia).
    assert (t < 256) as Ht1.
    { rewrite Zlt_Qlt. change (inject_Z 256) with 256%Q. lra. }
    exists t. split; [apply to_uint8_Some; [done|lia]|]. split; [lia|]. split; lra.
Qed.

(** X20: a colour channel in [0, 1] becomes a byte: [c * 255] truncates to
    one of 0 .. 255, so that the conversion to [uint8_t] is defined; the
    byte is the integer part of a number within [2^-16] of [255 c], never
    the nearest integer above it. *)
Theorem channel_byte_in_range (c : spec_float) :
  display.unit_channel c ->
  exists k : Z,
    display.to_uint8 (display.times_255 c) = Some k /\
    0 <= k <= 255 /\
    (inject_Z k <= 255 * value c + (1 # 65536))%Q /\
    (255 * value c - (1 # 65536) - 1 < inject_Z k)%Q.
Proof. intros [Hf Hc]. by apply times_255_byte. Qed.

Lemma channel_byte_in_range_witness :
  exists k : Z,
    display.to_uint8 (display.times_255 display_samples.half) = Some k /\
    k = 127.
Proof.
  destruct (channel_byte_in_range display_samples.half) as (k & Hk & _);
    [split; [reflexivity|split; by vm_compute]|].
  exists k. split; [exact Hk|]. vm_compute in Hk. by injection Hk as <-.
Defined.

Section Turns.
Variable point0 : display.PointXYZRGBA.
Variable convert : gca.point_t -> option display.PointXYZRGBA.

(** Turns taken in any order and any number: the points of the turns
    taken are the converted host points, every other point is as before. *)
Lemma put_all_spec (host : list gca.point_t) (turns : list nat) :
  forall pts : list display.PointXYZRGBA,
    length pts = length host ->
    Forall (fun h => is_Some (convert h)) host ->
    Forall (fun i => (i < length host)%nat) turns ->
    exists pts',
      display.put_all convert host turns pts = Some pts' /\
      length pts' = length host /\
      forall k : nat,
        pts' !! k = if decide (k ∈ turns) then host !! k ≫= convert else pts !! k.
Proof.
  induction turns as [|i turns IH]; intros pts Hlen Hdef Hin.
  - exists pts. split; [done|]. split; [done|]. intros k.
    rewrite decide_False; [done|]. by apply not_elem_of_nil.
  - apply Forall_cons in Hin as [Hi Hin]. simpl. unfold display.put.
    destruct (lookup_lt_is_Some_2 host i Hi) as [h Hh]. rewrite Hh. simpl.
    destruct (proj1 (Forall_forall _ _) Hdef h) as [p Hp];
      [by eapply list_elem_of_lookup_2|].
    rewrite Hp. simpl. rewrite option_guard_True by lia. simpl.
    destruct (IH (<[i:=p]> pts)) as (pts' & -> & Hlen' & Hpts');
      [by rewrite length_insert|done|done|].
    exists pts'. split; [done|]. split; [done|]. intros k. rewrite Hpts'.
    destruct (decide (k ∈ turns)) as [Hk|Hk].
    + rewrite decide_True; [done|]. by apply list_elem_of_further.
    + destruct (decide (k = i)) as [->|Hne].
      * rewrite decide_True by apply list_elem_of_here.
        rewrite list_lookup_insert_eq by lia. by rewrite Hh.
      * rewrite decide_False by (intros [->|?]%elem_of_cons; done).
        by rewrite list_lookup_insert_ne.
Qed.

(** Turns that cover every position leave the converted host points. *)
Lemma put_all_covering (host : list gca.point_t) (turns : list nat)
    (pts : list display.PointXYZRGBA) :
  length pts = length host ->
  Forall (fun h => is_Some (convert h)) host ->
  (forall i : nat, i ∈ turns <-> (i < length host)%nat) ->
  exists pts',
    display.put_all convert host turns pts = Some pts' /\
    Forall2 (fun h p => convert h = Some p) host pts'.
Proof.
  intros Hlen Hdef Hcover.
  destruct (put_all_spec host turns pts Hlen Hdef) as (pts' & Hrun & Hlen' & Hpts').
  { apply Forall_forall. intros i. apply Hcover. }
  exists pts'. split; [done|].
  apply Forall2_same_length_lookup. split; [done|].
  intros k h p Hh Hp. rewrite Hpts', decide_True, Hh in Hp; [done|].
  apply Hcover. by eapply lookup_lt_Some.
Qed.

End Turns.

(** A host point in gamut converts, mirrored or not. *)
Lemma to_pcl_defined (point0 : display.PointXYZRGBA) (h : gca.point_t) :
  display.in_gamut h -> is_Some (display.to_pcl point0 h).
Proof.
  intros ([Fr Hr] & [Fg Hg] & [Fb Hb]). unfold display.to_pcl.
  destruct (times_255_byte _ Fr Hr) as (kr & -> & _).
  destruct (times_255_byte _ Fg Hg) as (kg & -> & _).
  destruct (times_255_byte _ Fb Hb) as (kb & -> & _).
  by eexists.
Qed.

Lemma to_pcl_mirrored_defined (point0 : display.PointXYZRGBA) (h : gca.point_t) :
  display.in_gamut h -> is_Some (display.to_pcl_mirrored point0 h).
Proof.
  intros ([Fr Hr] & [Fg Hg] & [Fb Hb]). unfold display.to_pcl_mirrored.
  destruct (times_255_byte _ Fr Hr) as (kr & -> & _).
  destruct (times_255_byte _ Fg Hg) as (kg & -> & _).
  destruct (times_255_byte _ Fb Hb) as (kb & -> & _).
  by eexists.
Qed.

(** What two threads take between them is what either takes. *)
Lemma elem_of_interleaving {A : Type} (l1 l2 l : list A) (t : A) :
  display.interleaving l1 l2 l -> t ∈ l <-> t ∈ l1 \/ t ∈ l2.
Proof.
  induction 1 as [|t' l1 l2 l _ IH|t' l1 l2 l _ IH].
  - rewrite !elem_of_nil. tauto.
  - rewrite !elem_of_cons, IH. tauto.
  - rewrite !elem_of_cons, IH. tauto.
Qed.

(** The two halves [test_color_icp] splits the positions into. *)
Lemma elem_of_turns (n i : nat) :
  i ∈ display.async_turns n \/ i ∈ display.main_turns n <-> (i < n)%nat.
Proof.
  unfold display.async_turns, display.main_turns. rewrite !elem_of_seq.
  pose proof (Nat.Div0.div_le_upper_bound n 2 n ltac:(lia)). lia.
Qed.

(** X19: test_color_icp, the conversion it splits between the task of
    [std::async] and [main]: in whatever order the turns of the two
    threads are taken, once both are through every point of the result is
    the conversion of the host point at its position; no point is left
    out, none is written by both. *)
Theorem result_points_any_schedule (point0 : display.PointXYZRGBA)
    (pc_host : list gca.point_t) (schedule : list nat) :
  display.interleaving (display.async_turns (length pc_host))
                       (display.main_turns (length pc_host)) schedule ->
  Forall display.in_gamut pc_host ->
  exists pts,
    display.result_points point0 pc_host schedule = Some pts /\
    Forall2 (fun h p => display.to_pcl point0 h = Some p) pc_host pts /\
    length schedule = length pc_host.
Proof.
  intros Hs Hdef. unfold display.result_points.
  destruct (put_all_covering (display.to_pcl point0) pc_host schedule
              (resize (length pc_host) point0 []))
    as (pts & Hrun & Hpts);
    [by rewrite length_resize
    |by eapply Forall_impl; [exact Hdef|apply to_pcl_defined]| |].
  { intros i. rewrite (elem_of_interleaving _ _ _ _ Hs). apply elem_of_turns. }
  exists pts. split; [done|]. split; [done|].
  clear -Hs. unfold display.async_turns, display.main_turns in Hs.
  assert (forall (A : Type) (l1 l2 l : list A),
             display.interleaving l1 l2 l -> length l = (length l1 + length l2)%nat)
    as Hlen.
  { intros A l1 l2 l. induction 1; simpl; lia. }
  rewrite (Hlen _ _ _ _ Hs), !length_seq.
  pose proof (Nat.Div0.div_le_upper_bound (length pc_host) 2 (length pc_host)
                ltac:(lia)). lia.
Qed.

Lemma result_points_any_schedule_witness :
  exists pts,
    display.result_points display_samples.black display_samples.four_grey
      [2; 0; 3; 1]%nat = Some pts /\
    Forall2 (fun h p => display.to_pcl display_samples.black h = Some p)
            display_samples.four_grey pts /\
    length [2; 0; 3; 1]%nat = length display_samples.four_grey.
Proof.
  apply (result_points_any_schedule display_samples.black display_samples.four_grey
           [2; 0; 3; 1]%nat).
  - apply display.interleaving_right, display.interleaving_left,
      display.interleaving_right, display.interleaving_left,
      display.interleaving_nil.
  - repeat constructor; by vm_compute.
Defined.

(** Negating a [float] twice gives it back. *)
Lemma neg_neg (v : spec_float) : display.neg (display.neg v) = v.
Proof. destruct v as [[]|[]| |[] m e]; reflexivity. Qed.

(** X21: app, the last loop of a frame: [cloud_0] is kept from frame to frame,
    yet for host points in gamut every point of it is written anew, and
    its size is the frame's: what the frame shows does not depend on the
    frame before. Each point is the host point mirrored in [y] and [z]:
    its [x] is the host's, and negating its [y] and [z] gives the host's
    back, bit for bit. *)
Theorem frame_points_forget_last_frame (point0 : display.PointXYZRGBA)
    (points_1 : list gca.point_t) :
  Forall display.in_gamut points_1 ->
  exists pts,
    (forall cloud_0, display.frame_points point0 points_1 cloud_0 = Some pts) /\
    Forall2 (fun h p =>
               display.to_pcl_mirrored point0 h = Some p /\
               display.x p = gca.x (gca.coordinates h) /\
               display.neg (display.y p) = gca.y (gca.coordinates h) /\
               display.neg (display.z p) = gca.z (gca.coordinates h))
            points_1 pts.
Proof.
  intros Hdef.
  assert (Forall (fun h => is_Some (display.to_pcl_mirrored point0 h)) points_1)
    as Hsome by (eapply Forall_impl; [exact Hdef|apply to_pcl_mirrored_defined]).
  assert (forall cloud_0, exists pts,
             display.frame_points point0 points_1 cloud_0 = Some pts /\
             Forall2 (fun h p => display.to_pcl_mirrored point0 h = Some p)
                     points_1 pts) as Hrun.
  { intros cloud_0. unfold display.frame_points.
    apply put_all_covering; [by rewrite length_resize|done|].
    intros i. rewrite elem_of_seq. lia. }
  destruct (Hrun []) as (pts & Hpts & Hall).
  exists pts. split.
  - intros cloud_0. destruct (Hrun cloud_0) as (pts' & -> & Hall'). f_equal.
    apply Forall2_same_length_lookup in Hall as [Hl Hk].
    apply Forall2_same_length_lookup in Hall' as [Hl' Hk'].
    apply list_eq_same_length with (length points_1); [lia|lia|].
    intros i p' p Hi Hp' Hp.
    destruct (lookup_lt_is_Some_2 points_1 i Hi) as [h Hh].
    pose proof (Hk _ _ _ Hh Hp) as E1. pose proof (Hk' _ _ _ Hh Hp') as E2.
    rewrite E1 in E2. by injection E2 as ->.
  - eapply Forall2_impl; [exact Hall|]. intros h p Hp. split; [done|].
    unfold display.to_pcl_mirrored in Hp.
    destruct (display.to_uint8 (display.times_255 (gca.r (gca.color h))));
      simpl in Hp; [|done].
    destruct (display.to_uint8 (display.times_255 (gca.g (gca.color h))));
      simpl in Hp; [|done].
    destruct (display.to_uint8 (display.times_255 (gca.b (gca.color h))));
      simpl in Hp; [|done].
    injection Hp as <-. simpl. by rewrite !neg_neg.
Qed.

Lemma frame_points_forget_last_frame_witness :
  exists pts,
    (forall cloud_0,
        display.frame_points display_samples.black display_samples.four_grey cloud_0
        = Some pts) /\
    length pts = 4%nat.
Proof.
  destruct (frame_points_forget_last_frame display_samples.black
              display_samples.four_grey) as (pts & H1 & H2);
    [repeat constructor; by vm_compute|].
  exists pts. split; [exact H1|].
  apply Forall2_length in H2. by rewrite <- H2.
Defined.

Section Paint.
Variable point0 : display.PointXYZRGBA.
Variable rand : nat -> Z.

(** One object painted: its members are, every other point is as before. *)
Lemma paint_object_spec (points_0 : list gca.point_t) (c : Z * Z * Z)
    (obj : list nat) :
  forall pts : list display.PointXYZRGBA,
    length pts = length points_0 ->
    Forall (fun i => (i < length points_0)%nat) obj ->
    exists pts',
      display.paint_object point0 points_0 c obj pts = Some pts' /\
      length pts' = length points_0 /\
      forall k : nat,
        pts' !! k = if decide (k ∈ obj)
                    then display.painted point0 c <$> points_0 !! k
                    else pts !! k.
Proof.
  induction obj as [|i obj IH]; intros pts Hlen Hin.
  - exists pts. split; [done|]. split; [done|]. intros k.
    rewrite decide_False; [done|]. by apply not_elem_of_nil.
  - apply Forall_cons in Hin as [Hi Hin]. simpl.
    destruct (lookup_lt_is_Some_2 points_0 i Hi) as [h Hh]. rewrite Hh. simpl.
    rewrite option_guard_True by lia. simpl.
    destruct (IH (<[i:=display.painted point0 c h]> pts))
      as (pts' & -> & Hlen' & Hpts'); [by rewrite length_insert|done|].
    exists pts'. split; [done|]. split; [done|]. intros k. rewrite Hpts'.
    destruct (decide (k ∈ obj)) as [Hk|Hk].
    + rewrite decide_True; [done|]. by apply list_elem_of_further.
    + destruct (decide (k = i)) as [->|Hne].
      * rewrite decide_True by apply list_elem_of_here.
        rewrite list_lookup_insert_eq by lia. by rewrite Hh.
      * rewrite decide_False by (intros [->|?]%elem_of_cons; done).
        by rewrite list_lookup_insert_ne.
Qed.

(** The objects painted one after the other: a point of no object is as
    before, a point of several has the colour of the last of them. *)
Lemma paint_objects_spec (points_0 : list gca.point_t) (objs : list (list nat)) :
  forall (calls : nat) (pts : list display.PointXYZRGBA),
    length pts = length points_0 ->
    Forall (Forall (fun i => (i < length points_0)%nat)) objs ->
    exists pts',
      display.paint_objects point0 rand points_0 objs calls pts
      = Some (pts', (calls + 3 * length objs)%nat) /\
      length pts' = length points_0 /\
      (forall k : nat,
          (forall obj, obj ∈ objs -> k ∉ obj) -> pts' !! k = pts !! k) /\
      (forall (j : nat) (obj : list nat) (k : nat),
          objs !! j = Some obj -> k ∈ obj ->
          (forall (j' : nat) (obj' : list nat),
              (j < j')%nat -> objs !! j' = Some obj' -> k ∉ obj') ->
          pts' !! k
          = display.painted point0
              (display.generateRandomColor rand (calls + 3 * j)).1
            <$> points_0 !! k).
Proof.
  induction objs as [|obj objs IH]; intros calls pts Hlen Hin.
  - exists pts. simpl. rewrite Nat.add_0_r. done.
  - apply Forall_cons in Hin as [Hobj Hin]. simpl.
    set (c := (Z.rem (rand calls) 256, Z.rem (rand (S calls)) 256,
               Z.rem (rand (S (S calls))) 256)).
    destruct (paint_object_spec points_0 c obj pts Hlen Hobj)
      as (pts1 & -> & Hlen1 & Hpts1).
    simpl.
    destruct (IH (S (S (S calls))) pts1 Hlen1 Hin)
      as (pts' & -> & Hlen' & Hout & Hlast).
    exists pts'. split; [do 2 f_equal; lia|]. split; [done|]. split.
    + intros k Hk. rewrite Hout, Hpts1.
      * rewrite decide_False; [done|]. apply Hk, list_elem_of_here.
      * intros obj' Ho. by apply Hk, list_elem_of_further.
    + intros [|j] obj' k Hj Hk Hlater; simpl in Hj.
      * injection Hj as <-. rewrite Hout, Hpts1.
        -- rewrite decide_True by done. by rewrite Nat.add_0_r.
        -- intros obj' [j' Hj']%list_elem_of_lookup.
           apply (Hlater (S j') obj'); [lia|done].
      * rewrite (Hlast j obj' k Hj Hk).
        -- assert ((calls + (S j + (S j + (S j + 0))))%nat
                   = (S (S (S calls)) + 3 * j)%nat) as -> by lia.
           done.
        -- intros j' obj'' Hlt Hj'. apply (Hlater (S j') obj''); [lia|done].
Qed.

End Paint.

(** X22: app, the objects of a frame painted into [cloud_1]: with every member
    of every object a position of the cloud, the cloud has the size of the
    download; a point of no object is a default point; a point of an
    object is the host point mirrored in [y] and [z], in the colour drawn
    for the last object it belongs to, whose three bytes are the three
    numbers [rand()] gave, modulo 256; three numbers are drawn per object. *)
Theorem shown_points_painted (point0 : display.PointXYZRGBA) (rand : nat -> Z)
    (points_0 : list gca.point_t) (objs : list (list nat)) (calls : nat) :
  Forall (Forall (fun i => (i < length points_0)%nat)) objs ->
  (forall n, 0 <= rand n) ->
  exists pts,
    display.shown_points point0 rand points_0 objs calls
    = Some (pts, (calls + 3 * length objs)%nat) /\
    length pts = length points_0 /\
    (forall k : nat,
        (k < length points_0)%nat -> (forall obj, obj ∈ objs -> k ∉ obj) ->
        pts !! k = Some point0) /\
    (forall (j : nat) (obj : list nat) (k : nat) (h : gca.point_t),
        objs !! j = Some obj -> k ∈ obj ->
        (forall (j' : nat) (obj' : list nat),
            (j < j')%nat -> objs !! j' = Some obj' -> k ∉ obj') ->
        points_0 !! k = Some h ->
        pts !! k
        = Some (display.Build_PointXYZRGBA
                  (gca.x (gca.coordinates h))
                  (display.neg (gca.y (gca.coordinates h)))
                  (display.neg (gca.z (gca.coordinates h)))
                  (rand (calls + 3 * j)%nat mod 256)
                  (rand (calls + 3 * j + 1)%nat mod 256)
                  (rand (calls + 3 * j + 2)%nat mod 256)
                  (display.a point0))).
Proof.
  intros Hin Hrand. unfold display.shown_points.
  destruct (paint_objects_spec point0 rand points_0 objs calls
              (resize (length points_0) point0 []))
    as (pts & Hrun & Hlen & Hout & Hlast); [by rewrite length_resize|done|].
  exists pts. split; [done|]. split; [done|]. split.
  - intros k Hk Hno. rewrite Hout by done. by apply lookup_resize_new; simpl; lia.
  - intros j obj k h Hj Hk Hlater Hh. rewrite (Hlast j obj k Hj Hk Hlater), Hh.
    simpl. unfold display.painted, display.int_to_uint8. simpl.
    assert (forall n, Z.rem (rand n) 256 mod 256 = rand n mod 256) as Hrem.
    { intros n. rewrite Z.rem_mod_nonneg by (pose proof (Hrand n); lia).
      apply Z.mod_mod. lia. }
    rewrite !Hrem. do 3 f_equal; f_equal; f_equal; lia.
Qed.

Lemma shown_points_painted_witness :
  exists pts,
    display.shown_points display_samples.black display_samples.counter
      display_samples.four_grey [[0; 1]; [1; 3]]%nat 0
    = Some (pts, 6%nat) /\
    pts !! 2%nat = Some display_samples.black /\
    display.r <$> pts !! 1%nat = Some (1003 mod 256).
Proof.
  destruct (shown_points_painted display_samples.black display_samples.counter
              display_samples.four_grey [[0; 1]; [1; 3]]%nat 0)
    as (pts & H1 & _ & H2 & H3).
  { repeat constructor; simpl; lia. }
  { intros n. unfold display_samples.counter. lia. }
  exists pts. split; [exact H1|]. split.
  - apply H2; [simpl; lia|]. intros obj Hobj.
    apply elem_of_cons in Hobj as [->|Hobj]; [|apply list_elem_of_singleton in Hobj as ->];
      rewrite !not_elem_of_cons; repeat split; try lia; apply not_elem_of_nil.
  - rewrite (H3 1%nat [1; 3]%nat 1%nat (display_samples.grey_point 1) eq_refl);
      [reflexivity| | |reflexivity].
    + apply list_elem_of_here.
    + intros [|[|j']] obj' Hlt Hj'; try lia; done.
Defined.

(** ** The exit codes *)

Import apps mains.
















Import roundoff.

(** ** IEEE-754: the round-off of numbers of either sign *)

Lemma value_opp (x : spec_float) : (value (SFopp x) == - value x)%Q.
Proof.
  destruct x as [s|s| |s m e]; simpl; try reflexivity.
  destruct s; simpl; change (Z.neg m) with (- Z.pos m);
    rewrite inject_Z_opp; ring.
Qed.

Lemma number_opp (x : spec_float) : number (SFopp x) = number x.
Proof. by destruct x. Qed.

(** A number that is not negative and close to [V] is near [V]. *)
Lemma close_near (V err : Q) (x : spec_float) : close V err x -> near V err x.
Proof.
  intros (Hn & H1 & H2). split; [by destruct x as [|[]| |[] ? ?]|].
  apply Qabs_Qle_condition. split; lra.
Qed.

(** The opposite of a number near [V] is near [-V]. *)
Lemma near_flip (s : bool) (V err : Q) (x : spec_float) :
  near V err x -> near (if s then - V else V) err (flip s x).
Proof.
  intros [Hn Hv]. destruct s; [|done]. unfold flip. split; [by rewrite number_opp|].
  rewrite value_opp.
  assert (- value x - - V == - (value x - V))%Q as -> by ring.
  by rewrite Qabs_opp.
Qed.

Lemma near_proper (V V' err err' : Q) (x : spec_float) :
  (V == V')%Q -> (err <= err')%Q -> near V err x -> near V' err' x.
Proof. intros HV He [Hn Hx]. split; [done|]. rewrite <- HV. lra. Qed.

Section Signed.
Variables prec emax : Z.
Hypothesis Hprec : 0 < prec.
Hypothesis Hemax : 2 <= emax.

(** No round-off is within every round-off. *)
Lemma exact_within (x y : Q) :
  (x == y)%Q ->
  (Qabs (x - y) <= Qabs y * 2 ^ (- prec) + 2 ^ (emin prec emax - 1))%Q.
Proof.
  intros Hxy.
  pose proof (pow2_pos (emin prec emax - 1)) as Hp.
  pose proof (pow2_pos (- prec)) as Hpp.
  assert (0 <= Qabs y * 2 ^ (- prec))%Q
    by (apply Qmult_le_0_compat; [apply Qabs_nonneg|lra]).
  apply Qabs_Qle_condition. rewrite Hxy. split; lra.
Qed.

(** The sign of a round-off is the sign it is given. *)
Lemma binary_round_aux_flip (s : bool) (mx ex : Z) (lx : location) :
  binary_round_aux prec emax s mx ex lx
  = flip s (binary_round_aux prec emax false mx ex lx).
Proof.
  unfold binary_round_aux.
  destruct (shr_fexp prec emax mx ex lx) as [mrs' e'].
  destruct (shr_fexp prec emax _ e' loc_Exact) as [mrs'' e''].
  destruct (shr_m mrs'') as [|p|p]; destruct s; try done.
  simpl. by destruct (e'' <=? emax - prec).
Qed.

Lemma binary_round_flip (s : bool) (m : positive) (e : Z) :
  binary_round prec emax s m e = flip s (binary_round prec emax false m e).
Proof.
  unfold binary_round. destruct (shl_align _ _ _) as [mz ez].
  apply binary_round_aux_flip.
Qed.

(** The magnitude of a finite datum. *)
Lemma value_finite (s : bool) (m : positive) (e : Z) :
  (value (S754_finite s m e)
   == (if s then - (inject_Z (Zpos m) * 2 ^ e) else inject_Z (Zpos m) * 2 ^ e))%Q.
Proof.
  destruct s; simpl; [|reflexivity].
  change (inject_Z (Z.neg m)) with (inject_Z (- Z.pos m)).
  rewrite inject_Z_opp. ring.
Qed.



(** A mantissa aligned to a lower exponent, with its sign. *)
Lemma shl_align_signed (s : bool) (m : positive) (e ez : Z) :
  ez <= e ->
  (inject_Z (cond_Zopp s (Zpos (fst (shl_align m e ez)))) * 2 ^ ez
   == value (S754_finite s m e))%Q.
Proof.
  intros Hle. pose proof (shl_align_fst m e ez Hle) as H.
  rewrite (value_finite s). destruct s; simpl cond_Zopp.
  - change (inject_Z (- Zpos (shl_align m e ez).1))
      with (inject_Z (- Zpos (fst (shl_align m e ez)))).
    rewrite inject_Z_opp, <- H. ring.
  - exact H.
Qed.

(** The round-off of an integer multiple of a power of 2. *)
Lemma binary_normalize_near (m e hi : Z) :
  (Qabs (inject_Z m * 2 ^ e) < 2 ^ hi)%Q -> hi <= emax - prec ->
  near (inject_Z m * 2 ^ e)
       (Qabs (inject_Z m * 2 ^ e) * 2 ^ (- prec) + 2 ^ (emin prec emax - 1))
       (binary_normalize prec emax m e false).
Proof.
  intros HV Hhi.
  pose proof (pow2_pos (emin prec emax - 1)) as Hp.
  pose proof (pow2_pos (- prec)) as Hpp.
  pose proof (pow2_pos e) as Hpe.
  assert (0 <= Qabs (inject_Z m * 2 ^ e) * 2 ^ (- prec))%Q as Hnn.
  { apply Qmult_le_0_compat; [apply Qabs_nonneg|lra]. }
  destruct m as [|p|p]; simpl binary_normalize.
  - split; [done|]. apply exact_within. simpl. ring.
  - assert (0 < inject_Z (Zpos p) * 2 ^ e)%Q as HP.
    { apply Qmult_lt_0_compat; [|done].
      change 0%Q with (inject_Z 0). rewrite <- Zlt_Qlt. lia. }
    assert (Qabs (inject_Z (Zpos p) * 2 ^ e) == inject_Z (Zpos p) * 2 ^ e)%Q
      as Habs by (apply Qabs_pos; lra).
    rewrite Habs in HV.
    eapply near_proper; [reflexivity|rewrite Habs; apply Qle_refl|].
    apply close_near.
    apply (rounded_mixed prec emax Hprec _ (Zpos p) e hi); try done.
    apply binary_round_rounded. done.
  - assert (0 < inject_Z (Zpos p) * 2 ^ e)%Q as HP.
    { apply Qmult_lt_0_compat; [|done].
      change 0%Q with (inject_Z 0). rewrite <- Zlt_Qlt. lia. }
    assert (inject_Z (Zneg p) * 2 ^ e == - (inject_Z (Zpos p) * 2 ^ e))%Q as HVeq.
    { change (inject_Z (Z.neg p)) with (inject_Z (- Z.pos p)).
      rewrite inject_Z_opp. ring. }
    assert (Qabs (inject_Z (Zneg p) * 2 ^ e) == inject_Z (Zpos p) * 2 ^ e)%Q as Habs.
    { rewrite HVeq, Qabs_opp. apply Qabs_pos. lra. }
    rewrite Habs in HV.
    rewrite binary_round_flip.
    eapply near_proper; [symmetry; exact HVeq|rewrite Habs; apply Qle_refl|].
    apply (near_flip true), close_near.
    apply (rounded_mixed prec emax Hprec _ (Zpos p) e hi); try done.
    apply binary_round_rounded. done.
Qed.


(** The difference of two numbers: the exact difference, up to one
    round-off. *)
Lemma SFsub_near (a c : spec_float) (hi : Z) :
  number a = true -> number c = true ->
  (Qabs (value a - value c) < 2 ^ hi)%Q -> hi <= emax - prec ->
  near (value a - value c)
       (Qabs (value a - value c) * 2 ^ (- prec) + 2 ^ (emin prec emax - 1))
       (SFsub prec emax a c).
Proof.
  intros Ha Hc HV Hhi.
  pose proof (pow2_pos (emin prec emax - 1)) as Hp.
  pose proof (pow2_pos (- prec)) as Hpp.
  pose proof exact_within as Hexact.
  destruct a as [sa|sa| |sa ma ea]; try done;
    destruct c as [sc|sc| |sc mc ec]; try done.
  - split; [by destruct sa, sc|]. apply Hexact. destruct sa, sc; simpl; ring.
  - split; [done|]. apply Hexact. simpl SFsub.
    change (value (S754_zero sa)) with 0%Q.
    rewrite (value_finite (negb sc)), (value_finite sc). destruct sc; simpl; ring.
  - split; [done|]. apply Hexact. simpl SFsub.
    change (value (S754_zero sc)) with 0%Q. ring.
  - unfold SFsub. set (ez := Z.min ea ec).
    pose proof (shl_align_signed sa ma ea ez ltac:(lia)) as Hma.
    pose proof (shl_align_signed sc mc ec ez ltac:(lia)) as Hmc.
    set (ma' := cond_Zopp sa (Zpos (fst (shl_align ma ea ez)))) in *.
    set (mc' := cond_Zopp sc (Zpos (fst (shl_align mc ec ez)))) in *.
    assert (inject_Z (ma' - mc') * 2 ^ ez
            == value (S754_finite sa ma ea) - value (S754_finite sc mc ec))%Q
      as HVeq.
    { unfold Z.sub. rewrite inject_Z_plus, inject_Z_opp, <- Hma, <- Hmc. ring. }
    rewrite <- HVeq in HV.
    eapply near_proper; [exact HVeq| |apply (binary_normalize_near _ _ hi HV Hhi)].
    rewrite HVeq. apply Qle_refl.
Qed.

End Signed.

(** ** Voxel-grid down-sampling: the round-off of a mean *)
















(** ** Voxel-grid down-sampling *)

Section Voxel.
Variables (o : float3) (leaf : spec_float).



(** The contributors of a voxel are live points of the cloud, in that
    voxel. *)
Lemma elem_of_contributors (pts : list point_t) (k : Z * Z * Z) (p : point_t) :
  p ∈ contributors o leaf pts k <->
  p ∈ pts /\ live p = true /\ cell_of o leaf (coordinates p) = Some k.
Proof.
  unfold contributors, voxel_of. rewrite list_elem_of_filter.
  destruct (live p); [tauto|]. split; [by intros [? _]|by intros (_ & ? & _)].
Qed.
End Voxel.









(** Scenario S1 of the specification, at a scale where the coordinates are
    exact in single precision: ten points a unit apart and a leaf of 2 give
    five points, at 0.5, 2.5, 4.5, 6.5 and 8.5; the point that is not valid
    contributes to none. *)
Example voxel_grid_down_sample_ten_points :
  match voxel_points cloud_samples.eleven_points cloud_samples.two with
  | Ok out => Some ((fun p => Qred (value (x (coordinates p)))) <$> out)
  | Err _ => None
  end = Some [1 # 2; 13 # 2; 17 # 2; 9 # 2; 5 # 2]%Q.
Proof. by vm_compute. Qed.

